(** * json-zod: the resolver [fromZodJson] of [lib/from-json-zod.ts]

    A shallow embedding of the recursive resolver that turns a JSON
    description document into a zod schema, together with the properties
    the specification states about it.

    Conventions of the embedding.
    - A description document is JSON data: a tree of values, every object
      with [Object.prototype] as its prototype.  An object is the list of its
      own properties in enumeration order (keys pairwise distinct for a
      well-formed object).  Where the source reads a member under a name
      the document chooses, [root.definitions[refId]], the members every
      object inherits from [Object.prototype] are found as well; where it
      assigns under such a name, [result[key] = ...], the setter
      [__proto__] of [Object.prototype] is taken into account.
    - JavaScript strings are [string]s of 8-bit code units.
    - Numbers are opaque: the resolver only passes them on, tests their
      truthiness and (for ill-typed keys) prints them, so the number type
      and these two operations are parameters.
    - The zod library and the pieces of the JavaScript runtime the resolver
      calls into are parameters, collected in [Runtime].  Library calls are
      functions of their receiver and arguments: they may throw, and they do
      not run the thunk of a lazy schema while a schema is being built.
    - [definitionCache] and the lazy schemas created so far form the state
      that is threaded through [parseNode]; a [throw] keeps the state, as
      the mutations of a JavaScript [Map] survive an exception. *)

From Stdlib Require Import String Ascii List Bool Arith Lia.
From stdpp Require Import base option list strings gmap fin_maps.

Set Warnings "-register-all".

Open Scope string_scope.
Open Scope list_scope.
Open Scope nat_scope.

(* ================================================================= *)
(** ** JavaScript strings *)

Module JsString.

(** The double-quote character, used inside error messages. *)
Definition dq : string := String (ascii_of_nat 34) EmptyString.

Definition quoted (s : string) : string := dq +:+ s +:+ dq.

(** [s.split('.')]: the segments between dots; never the empty list. *)
Fixpoint split_on (sep : ascii) (s : string) : list string :=
  match s with
  | EmptyString => [EmptyString]
  | String c rest =>
      if Ascii.eqb c sep then EmptyString :: split_on sep rest
      else match split_on sep rest with
           | seg :: segs => String c seg :: segs
           | [] => [String c EmptyString]
           end
  end.

Definition split_dot : string -> list string := split_on "."%char.

(** The one-character strings a string iterates over. *)
Fixpoint chars (s : string) : list string :=
  match s with
  | EmptyString => []
  | String c rest => String c EmptyString :: chars rest
  end.

(** [xs.join(',')] on already printed elements. *)
Fixpoint join_comma (xs : list string) : string :=
  match xs with
  | [] => ""
  | [x] => x
  | x :: rest => x +:+ "," +:+ join_comma rest
  end.

End JsString.

(* ================================================================= *)
(** ** The description model ([lib/types.ts]) *)

(** The names of the members every object inherits from
    [Object.prototype].  All are functions but [__proto__], an accessor
    that reads the prototype and, assigned an object or [null], replaces
    it. *)
Definition object_prototype_names : list string :=
  ["constructor"; "__defineGetter__"; "__defineSetter__"; "hasOwnProperty";
   "__lookupGetter__"; "__lookupSetter__"; "isPrototypeOf";
   "propertyIsEnumerable"; "toString"; "valueOf"; "__proto__";
   "toLocaleString"].

Definition inherited_name (name : string) : bool :=
  existsb (String.eqb name) object_prototype_names.

Section Model.

(** JSON numbers. *)
Context {Num : Type}.

(** [ZodJsonParam] at run time: any JSON value.  The interfaces [ZodJson],
    [ZodJsonRef] and [ZodJsonFunctionSpec] are objects told apart by their
    [_schema] and [_is] properties. *)
Inductive Json : Type :=
| JNull
| JBool (b : bool)
| JNum (n : Num)
| JStr (s : string)
| JArr (items : list Json)
| JObj (props : list (string * Json)).

(** [ZodJsonRoot]: [{ definitions?: Record<string, ZodJson>, schema }]. *)
Record ZodJsonRoot : Type := {
  definitions : option (list (string * Json));
  schema : Json
}.

(** Induction over JSON values that reaches into arrays and objects. *)
Section JsonInd.
Variable P : Json -> Prop.
Hypothesis Hnull : P JNull.
Hypothesis Hbool : forall b, P (JBool b).
Hypothesis Hnum : forall n, P (JNum n).
Hypothesis Hstr : forall s, P (JStr s).
Hypothesis Harr : forall items, Forall P items -> P (JArr items).
Hypothesis Hobj :
  forall props, Forall (fun kv => P (snd kv)) props -> P (JObj props).

Fixpoint Json_nested_ind (j : Json) : P j :=
  match j with
  | JNull => Hnull
  | JBool b => Hbool b
  | JNum n => Hnum n
  | JStr s => Hstr s
  | JArr items =>
      Harr items
        ((fix go (l : list Json) : Forall P l :=
            match l with
            | [] => @List.Forall_nil _ P
            | x :: r => @List.Forall_cons _ P x r (Json_nested_ind x) (go r)
            end) items)
  | JObj props =>
      Hobj props
        ((fix go (l : list (string * Json)) : Forall (fun kv => P (snd kv)) l :=
            match l with
            | [] => @List.Forall_nil _ (fun kv => P (snd kv))
            | kv :: r =>
                @List.Forall_cons _ (fun kv => P (snd kv)) kv r
                  (Json_nested_ind (snd kv)) (go r)
            end) props)
  end.
End JsonInd.

(** [obj[key]] on own properties; [None] is [undefined]. *)
Fixpoint prop {B : Type} (key : string) (props : list (string * B)) : option B :=
  match props with
  | [] => None
  | (k, v) :: rest => if String.eqb k key then Some v else prop key rest
  end.

(** [f (obj[key])], with [f] applied where the property is found. *)
Definition prop_with {B : Type} (f : Json -> B) (key : string)
  : list (string * Json) -> option B :=
  fix go (props : list (string * Json)) : option B :=
    match props with
    | [] => None
    | (k, v) :: rest => if String.eqb k key then Some (f v) else go rest
    end.

(** [obj[key] = v]: replace the value of an existing key in place,
    otherwise add the property at the end. *)
Fixpoint set_prop {B : Type} (props : list (string * B)) (key : string) (v : B)
  : list (string * B) :=
  match props with
  | [] => [(key, v)]
  | (k, w) :: rest =>
      if String.eqb k key then (k, v) :: rest else (k, w) :: set_prop rest key v
  end.

(** [key in node && node[key] === tag]. *)
Definition has_tag (key tag : string) (props : list (string * Json)) : bool :=
  match prop key props with
  | Some (JStr s) => String.eqb s tag
  | _ => false
  end.

(** [typeof v], with [None] for [undefined]. *)
Definition js_typeof (v : option Json) : string :=
  match v with
  | None => "undefined"
  | Some JNull => "object"
  | Some (JBool _) => "boolean"
  | Some (JNum _) => "number"
  | Some (JStr _) => "string"
  | Some (JArr _) => "object"
  | Some (JObj _) => "object"
  end.

End Model.

Arguments Json : clear implicits.
Arguments ZodJsonRoot : clear implicits.

(* ================================================================= *)
(** ** The regular expression of the function branch

    The source matches [code] against a pattern anchored at the start of
    the text: an optional [async] marker and an optional [function] marker
    (each with white space around it), an optional opening parenthesis,
    white space, a captured run of one or more characters among letters,
    digits, underscore and dollar, white space, an optional closing
    parenthesis, white space, and the arrow.  It is run here by a
    backtracking matcher for the fragment of regular expressions it uses:
    greedy optional and starred parts, one capturing group. *)

Module Regex.

Inductive regex : Type :=
| Eps
| Chr (c : ascii)
| Cls (p : ascii -> bool)
| Seq (r1 r2 : regex)
| Opt (r : regex)
| Star (r : regex)
| Group (r : regex).

Definition Plus (r : regex) : regex := Seq r (Star r).

Fixpoint Str (s : list ascii) : regex :=
  match s with
  | [] => Eps
  | c :: rest => Seq (Chr c) (Str rest)
  end.

(** The text a group has consumed: what lies between the input it started
    on and the input that is left. *)
Definition consumed (s s' : list ascii) : list ascii :=
  take (length s - length s') s.

(** The iterations of a starred part, the longest run first.  An
    iteration that consumes nothing is not taken, so [S (length s)] turns
    are always enough. *)
Fixpoint star_loop {R : Type}
  (body : list ascii -> option (list ascii)
          -> (list ascii -> option (list ascii) -> option R) -> option R)
  (k : list ascii -> option (list ascii) -> option R)
  (fuel : nat) (s : list ascii) (cap : option (list ascii)) : option R :=
  match fuel with
  | 0 => k s cap
  | S fuel' =>
      match body s cap
              (fun s' cap' =>
                 if length s' <? length s then star_loop body k fuel' s' cap'
                 else None)
      with
      | Some x => Some x
      | None => k s cap
      end
  end.

(** [run r s cap k]: match [r] at the front of [s], then hand the rest of
    the input and the current capture to [k]; when [k] fails, the next
    alternative is tried (the greedy one first). *)
Fixpoint run {R : Type} (r : regex) (s : list ascii) (cap : option (list ascii))
  (k : list ascii -> option (list ascii) -> option R) {struct r} : option R :=
  match r with
  | Eps => k s cap
  | Chr c =>
      match s with
      | c' :: s' => if Ascii.eqb c' c then k s' cap else None
      | [] => None
      end
  | Cls p =>
      match s with
      | c' :: s' => if p c' then k s' cap else None
      | [] => None
      end
  | Seq r1 r2 => run r1 s cap (fun s' cap' => run r2 s' cap' k)
  | Opt r1 =>
      match run r1 s cap k with
      | Some x => Some x
      | None => k s cap
      end
  | Star r1 => star_loop (run r1) k (S (length s)) s cap
  | Group r1 => run r1 s cap (fun s' _ => k s' (Some (consumed s s')))
  end.

(** [\s] on 8-bit code units: tab, line feed, vertical tab, form feed,
    carriage return, space and no-break space. *)
Definition is_space (c : ascii) : bool :=
  let n := nat_of_ascii c in
  ((9 <=? n) && (n <=? 13)) || (n =? 32) || (n =? 160).

(** [[a-zA-Z0-9_$]]. *)
Definition is_ident (c : ascii) : bool :=
  let n := nat_of_ascii c in
  ((97 <=? n) && (n <=? 122)) || ((65 <=? n) && (n <=? 90))
  || ((48 <=? n) && (n <=? 57)) || (n =? 95) || (n =? 36).

Definition ws : regex := Star (Cls is_space).

Definition marker (word : string) : regex :=
  Opt (Seq ws (Seq (Str (list_ascii_of_string word)) ws)).

(** The pattern of the source, anchored at the start of the input. *)
Definition arg_regex : regex :=
  Seq (marker "async")
    (Seq (marker "function")
       (Seq (Opt (Chr "("%char))
          (Seq ws
             (Seq (Group (Plus (Cls is_ident)))
                (Seq ws
                   (Seq (Opt (Chr ")"%char))
                      (Seq ws (Str (list_ascii_of_string "=>"))))))))).

(** [argMatch?.[1]]: the first group of a successful match. *)
Definition arg_match (code : string) : option string :=
  match run arg_regex (list_ascii_of_string code) None (fun _ cap => Some cap) with
  | Some (Some name) => Some (string_of_list_ascii name)
  | _ => None
  end.

(** What the pattern means: [matches r s cap s' cap'] when [r] can consume
    the front of [s] leaving [s'], turning the capture [cap] into [cap']. *)
Inductive matches : regex -> list ascii -> option (list ascii)
                    -> list ascii -> option (list ascii) -> Prop :=
| m_eps s cap : matches Eps s cap s cap
| m_chr c s cap : matches (Chr c) (c :: s) cap s cap
| m_cls p c s cap : p c = true -> matches (Cls p) (c :: s) cap s cap
| m_seq r1 r2 s cap s1 cap1 s2 cap2 :
    matches r1 s cap s1 cap1 -> matches r2 s1 cap1 s2 cap2 ->
    matches (Seq r1 r2) s cap s2 cap2
| m_opt_taken r s cap s' cap' :
    matches r s cap s' cap' -> matches (Opt r) s cap s' cap'
| m_opt_skipped r s cap : matches (Opt r) s cap s cap
| m_star_done r s cap : matches (Star r) s cap s cap
| m_star_more r s cap s1 cap1 s2 cap2 :
    matches r s cap s1 cap1 -> length s1 < length s ->
    matches (Star r) s1 cap1 s2 cap2 ->
    matches (Star r) s cap s2 cap2
| m_group r s cap s' cap' :
    matches r s cap s' cap' ->
    matches (Group r) s cap s' (Some (consumed s s')).

(** The leading parameter pattern in words: white space, a marker with
    white space around it or nothing, a parenthesis or nothing, a name. *)
Definition blank (w : list ascii) : Prop :=
  Forall (fun c => is_space c = true) w.

Definition optional_marker (word : string) (text : list ascii) : Prop :=
  text = []
  \/ exists w1 w2,
      blank w1 /\ blank w2 /\ text = w1 ++ list_ascii_of_string word ++ w2.

Definition optional_char (c : ascii) (text : list ascii) : Prop :=
  text = [] \/ text = [c].

Definition simple_name (name : list ascii) : Prop :=
  name <> [] /\ Forall (fun c => is_ident c = true) name.

(** [code] starts with a single simple parameter [name], optionally in
    parentheses and optionally after [async] and/or [function], followed by
    an arrow. *)
Definition leading_parameter (code name : string) : Prop :=
  exists a f lp w1 nm w2 rp w3 rest,
    list_ascii_of_string code
    = a ++ f ++ lp ++ w1 ++ nm ++ w2 ++ rp ++ w3
        ++ list_ascii_of_string "=>" ++ rest
    /\ optional_marker "async" a
    /\ optional_marker "function" f
    /\ optional_char "("%char lp
    /\ blank w1
    /\ simple_name nm /\ name = string_of_list_ascii nm
    /\ blank w2
    /\ optional_char ")"%char rp
    /\ blank w3.

End Regex.

(* ================================================================= *)
(** ** Values, errors and the state of one resolution pass *)

(** What a reference id can be, as a [Map] tells keys apart. *)
Inductive KeyKind : Type :=
| OfUndefined
| OfNull
| OfBoolean
| OfNumber
| OfString
| OfObject.

Definition kind_code (k : KeyKind) : nat :=
  match k with
  | OfUndefined => 0
  | OfNull => 1
  | OfBoolean => 2
  | OfNumber => 3
  | OfString => 4
  | OfObject => 5
  end.

Definition code_kind (n : nat) : KeyKind :=
  match n with
  | 0 => OfUndefined
  | 1 => OfNull
  | 2 => OfBoolean
  | 3 => OfNumber
  | 4 => OfString
  | _ => OfObject
  end.

Definition all_kinds : list KeyKind :=
  [OfUndefined; OfNull; OfBoolean; OfNumber; OfString; OfObject].

#[global] Instance KeyKind_eq_dec : EqDecision KeyKind :=
  fun a b =>
    match Nat.eq_dec (kind_code a) (kind_code b) with
    | left same =>
        left (eq_trans
                (eq_sym (match a return code_kind (kind_code a) = a with
                         | OfUndefined | OfNull | OfBoolean
                         | OfNumber | OfString | OfObject => eq_refl
                         end))
                (eq_trans (f_equal code_kind same)
                   (match b return code_kind (kind_code b) = b with
                    | OfUndefined | OfNull | OfBoolean
                    | OfNumber | OfString | OfObject => eq_refl
                    end)))
    | right differ => right (fun same => differ (f_equal kind_code same))
    end.

#[global] Instance KeyKind_countable : Countable KeyKind :=
  inj_countable' kind_code code_kind
    (fun k => match k return code_kind (kind_code k) = k with
              | OfUndefined | OfNull | OfBoolean
              | OfNumber | OfString | OfObject => eq_refl
              end).

(** A key of [definitionCache].  The cache is a [Map] and is keyed by the
    id as the reference gives it, not by the string the id is coerced to
    when [definitions] is read: the number 5 and the string "5" name the
    same definition and are two keys.  A key is the type of the id
    together with what the id prints as.  For a string, a boolean, [null]
    and [undefined] that is the value itself.  Two numbers are the same
    key exactly when they print alike (the two zeros print alike and are
    one key).  An array or an object is a key by identity, which a document
    as a value does not carry: such an id is filed under what it prints as,
    which is what the code does only when no two such ids of the document
    print alike; the statements on the cache ask for ids that are neither
    arrays nor objects. *)
Abbreviation MapKey := (KeyKind * string)%type (only parsing).

Section Values.

Context {Num L : Type}.

(** What [parseNode] returns: JSON data passed through, the callable built
    from a function spec, the lazy schema standing for a reference, or an
    object handed back by the zod library. *)
Inductive Value : Type :=
| VNull
| VBool (b : bool)
| VNum (n : Num)
| VStr (s : string)
| VArr (items : list Value)
| VObj (props : list (string * Value))
| VFunction (argName body : string)
| VLazy (h : nat)
| VLib (x : L).

(** The places where the runtime itself raises a [TypeError] that the
    resolver does not catch. *)
Inductive TypeErrorSite : Type :=
| SpreadParams          (* methodFn(...params) on a value that is not iterable *)
| DestructureTailItem   (* const [name, params] of a tail entry that is not iterable *)
| ApplyTailParams       (* fn.apply(schema, args) with a primitive for args *)
| NullReceiver.         (* schema[name] on null *)

(** Everything a resolution can throw.  The first seven are the [throw]
    statements of the source, named after the error taxonomy; the last two
    are exceptions the resolver lets through. *)
Inductive ResolutionError : Type :=
| UnknownDefinition (refId : string)
| CachedReferenceInvariantViolation (refId : string)
| UnresolvedDefinitionsContainer (refId : string)
| FunctionCompileError (code reason : string)
| InvalidMethod (actual : string)
| UnknownMethod (method : string)
| UnknownTailMethod (tailMethodName method : string)
| NativeTypeError (site : TypeErrorSite)
| LibraryError (message : string).

(** The message text of each [throw new Error(...)] of the source. *)
Definition error_message (e : ResolutionError) : option string :=
  match e with
  | UnknownDefinition refId =>
      Some ("[json-zod] Definition not found for ref: " +:+ JsString.quoted refId)
  | CachedReferenceInvariantViolation refId =>
      Some ("[json-zod] Cached definition is unexpectedly undefined for ref: "
            +:+ JsString.quoted refId)
  | UnresolvedDefinitionsContainer refId =>
      Some ("[json-zod] Definitions are undefined when resolving ref: "
            +:+ JsString.quoted refId)
  | FunctionCompileError code reason =>
      Some ("[json-zod] Failed to parse function code: " +:+ JsString.quoted code
            +:+ ". Error: " +:+ reason)
  | InvalidMethod actual =>
      Some ("[json-zod] Invalid method type: expected string, got " +:+ actual)
  | UnknownMethod method =>
      Some ("[json-zod] Unknown Zod method: " +:+ JsString.quoted ("z." +:+ method))
  | UnknownTailMethod tailMethodName method =>
      Some ("[json-zod] Unknown Zod tail method: "
            +:+ JsString.quoted ("." +:+ tailMethodName +:+ "()")
            +:+ " on " +:+ JsString.quoted ("z." +:+ method))
  | NativeTypeError _ => None
  | LibraryError message => Some message
  end.

Inductive Outcome (A : Type) : Type :=
| Returns (a : A)
| Throws (e : ResolutionError).

(** The mutable state of a pass: [definitionCache], and the lazy schemas
    made so far.  [VLazy h] is the [h]-th call of [z.lazy]; its thunk closes
    over the reference id whose key is stored at position [h]. *)
Record State : Type := {
  definitionCache : gmap MapKey Value;
  lazies : list MapKey
}.

Definition M (A : Type) : Type := State -> Outcome A * State.

Definition ret {A : Type} (a : A) : M A := fun st => (Returns _ a, st).

Definition throw {A : Type} (e : ResolutionError) : M A :=
  fun st => (Throws _ e, st).

Definition bind {A B : Type} (m : M A) (k : A -> M B) : M B :=
  fun st =>
    match m st with
    | (Returns _ a, st') => k a st'
    | (Throws _ e, st') => (Throws B e, st')
    end.

End Values.

Arguments Value : clear implicits.
Arguments State : clear implicits.
Arguments M : clear implicits.
Arguments Returns {A} a.
Arguments Throws {A} e.

Notation "x <- m ;; k" := (bind m (fun x => k))
  (at level 100, m at next level, right associativity).

(** Monadic loops, written so that a structural recursion can call itself
    on the elements. *)
Definition mapM {Num L A B : Type} (f : A -> M Num L B) : list A -> M Num L (list B) :=
  fix go (l : list A) : M Num L (list B) :=
    match l with
    | [] => ret []
    | x :: rest => y <- f x ;; ys <- go rest ;; ret (y :: ys)
    end.

Definition foldM {Num L A B : Type} (f : A -> B -> M Num L B)
  : list A -> B -> M Num L B :=
  fix go (l : list A) (acc : B) : M Num L B :=
    match l with
    | [] => ret acc
    | x :: rest => acc' <- f x acc ;; go rest acc'
    end.

(* ================================================================= *)
(** ** The zod library and the JavaScript runtime, as parameters *)

Record Runtime (Num L : Type) : Type := {
  (** truthiness and printing of a number *)
  num_truthy : Num -> bool;
  num_to_string : Num -> string;
  (** the module object [z] *)
  z : L;
  (** [v[name]] for a [v] other than [null]; [None] when the member is
      [undefined] or is not an object of the library *)
  get_member : Value Num L -> string -> option L;
  (** [typeof x === 'function'], and then what a call with a receiver and
      an argument list does: throw a message or return a value *)
  callable : L -> option (option (Value Num L) -> list (Value Num L)
                          -> string + Value Num L);
  (** the elements a library object iterates over, if it is iterable *)
  iterate : Value Num L -> option (list (Value Num L));
  (** the argument list [apply] reads off an object that is not an array *)
  array_like : Value Num L -> list (Value Num L);
  (** [new Function(argName, body)]: [Some] message of the [SyntaxError],
      or [None] when the text compiles *)
  new_Function : string -> string -> option string;
  (** the message of the [TypeError] of [code.match] on a non-string *)
  match_failure : option (Json Num) -> string;
  (** the function [Object.prototype[name]], for a name other than
      [__proto__] *)
  inherited : string -> L;
  (** the object with the given own properties once its prototype has been
      replaced: the effect of [obj.__proto__ = v] for a [v] that is no
      boolean, number or string *)
  set_prototype : list (string * Value Num L) -> Value Num L -> Value Num L;
  (** [obj[key] = v] on an object whose prototype has been replaced.  What
      happens is up to the prototype: a property is added, a setter runs,
      or the assignment is refused; [inl] is the message of what is thrown *)
  host_assign : Value Num L -> string -> Value Num L -> string + Value Num L
}.

Arguments num_truthy {Num L} _ _.
Arguments num_to_string {Num L} _ _.
Arguments z {Num L} _.
Arguments get_member {Num L} _ _ _.
Arguments callable {Num L} _ _.
Arguments iterate {Num L} _ _.
Arguments array_like {Num L} _ _.
Arguments new_Function {Num L} _ _ _.
Arguments match_failure {Num L} _ _.
Arguments inherited {Num L} _ _.
Arguments set_prototype {Num L} _ _ _.
Arguments host_assign {Num L} _ _ _ _.

(* ================================================================= *)
(** ** The resolver *)

Section Resolver.

Context {Num L : Type}.
Variable rt : Runtime Num L.
Variable root : ZodJsonRoot Num.

#[local] Abbreviation Json := (Json Num).
#[local] Abbreviation Value := (Value Num L).
#[local] Abbreviation State := (State Num L).
#[local] Abbreviation M := (M Num L).

(** Truthiness of a JSON value. *)
Definition js_truthy (v : Json) : bool :=
  match v with
  | JNull => false
  | JBool b => b
  | JNum n => num_truthy rt n
  | JStr s => negb (String.eqb s "")
  | JArr _ => true
  | JObj _ => true
  end.

(** [String(v)], the coercion applied to a value used as a property key or
    spliced into a message. *)
Fixpoint js_to_string (v : Json) : string :=
  match v with
  | JNull => "null"
  | JBool true => "true"
  | JBool false => "false"
  | JNum n => num_to_string rt n
  | JStr s => s
  | JArr items =>
      JsString.join_comma
        (map (fun x => match x with JNull => "" | _ => js_to_string x end) items)
  | JObj _ => "[object Object]"
  end.

Definition key_of (v : option Json) : string :=
  match v with
  | None => "undefined"
  | Some j => js_to_string j
  end.

(** [get(z, path)]: walk the dotted path with optional chaining. *)
Definition get (obj : L) (path : string) : option L :=
  fold_left
    (fun acc part =>
       match acc with
       | Some o => get_member rt (VLib o) part
       | None => None
       end)
    (JsString.split_dot path) (Some obj).

(** A call into the library; what it throws is not caught. *)
Definition lib_call
  (fn : option Value -> list Value -> string + Value)
  (this : option Value) (args : list Value) : M Value :=
  match fn this args with
  | inl message => throw (LibraryError message)
  | inr v => ret v
  end.

(** The type of an id, and the key the cache files the id under. *)
Definition kind_of (id : option Json) : KeyKind :=
  match id with
  | None => OfUndefined
  | Some JNull => OfNull
  | Some (JBool _) => OfBoolean
  | Some (JNum _) => OfNumber
  | Some (JStr _) => OfString
  | Some (JArr _) | Some (JObj _) => OfObject
  end.

Definition map_key (id : option Json) : MapKey := (kind_of id, key_of id).

(** [!root.definitions || !root.definitions[refId]], negated.  The read
    [root.definitions[refId]] finds an own property of [definitions], and
    failing that a member inherited from [Object.prototype], which is a
    function or, for [__proto__], the prototype itself: truthy in both
    cases. *)
Definition has_definition (refId : string) : bool :=
  match definitions root with
  | None => false
  | Some defs =>
      match prop refId defs with
      | Some definition => js_truthy definition
      | None => inherited_name refId
      end
  end.

(** [z.lazy(thunk)]: a new lazy schema; nothing is run. *)
Definition z_lazy (key : MapKey) : M Value :=
  fun st =>
    (Returns (VLazy (length (lazies st))),
     {| definitionCache := definitionCache st;
        lazies := lazies st ++ [key] |}).

(** [definitionCache.set(refId, schema)]. *)
Definition cache_set (key : MapKey) (schema : Value) : M unit :=
  fun st =>
    (Returns tt,
     {| definitionCache := <[key := schema]> (definitionCache st);
        lazies := lazies st |}).

Definition get_state : M State := fun st => (Returns st, st).

(** Branch A: a reference.  The cache only ever holds what [cache_set]
    put there, a lazy schema, so the entry that [has] finds is never
    [undefined] and the defensive [throw] that follows it in the source is
    never taken.  [refId] is a string by its declared type; an id of
    another type is coerced to a string where [definitions] is read and
    where it is spliced into a message, and is a key of the cache as it
    is. *)
Definition parse_ref (props : list (string * Json)) : M Value :=
  let refId := prop "id" props in
  if negb (has_definition (key_of refId)) then throw (UnknownDefinition (key_of refId))
  else
    st <- get_state ;;
    match definitionCache st !! map_key refId with
    | Some cached => ret cached
    | None =>
        lazySchema <- z_lazy (map_key refId) ;;
        _ <- cache_set (map_key refId) lazySchema ;;
        ret lazySchema
    end.

(** Branch B: a function spec.  Everything is inside the [try]: a [code]
    that is not a string fails at [code.match], text that does not compile
    fails in [new Function]. *)
Definition parse_function (props : list (string * Json)) : M Value :=
  match prop "code" props with
  | Some (JStr code) =>
      let argName :=
        match Regex.arg_match code with
        | Some name => name
        | None => "data"
        end in
      let body := "return (" +:+ code +:+ ")(" +:+ argName +:+ ")" in
      match new_Function rt argName body with
      | None => ret (VFunction argName body)
      | Some reason => throw (FunctionCompileError code reason)
      end
  | other => throw (FunctionCompileError (key_of other) (match_failure rt other))
  end.

(** [methodFn(...params)]: the elements of an iterable. *)
Definition spread (params : Value) : M (list Value) :=
  match params with
  | VArr items => ret items
  | VStr s => ret (map VStr (JsString.chars s))
  | VLib _ | VLazy _ =>
      match iterate rt params with
      | Some items => ret items
      | None => throw (NativeTypeError SpreadParams)
      end
  | _ => throw (NativeTypeError SpreadParams)
  end.

(** The argument list of [fn.apply(schema, args)]. *)
Definition apply_args (args : Value) : M (list Value) :=
  match args with
  | VArr items => ret items
  | VNull => ret []
  | VBool _ | VNum _ | VStr _ => throw (NativeTypeError ApplyTailParams)
  | _ => ret (array_like rt args)
  end.

(** One turn of the tail loop once the entry is destructured: look the
    method up on the current schema, check it, resolve the parameters, call. *)
Definition call_tail (method tailMethodName : string)
  (parseParams : M Value) (schema : Value) : M Value :=
  match schema with
  | VNull => throw (NativeTypeError NullReceiver)
  | _ =>
      match get_member rt schema tailMethodName ≫= callable rt with
      | None => throw (UnknownTailMethod tailMethodName method)
      | Some tailMethodFn =>
          parsedTailParams <- parseParams ;;
          args <- apply_args parsedTailParams ;;
          lib_call tailMethodFn (Some schema) args
      end
  end.

(** [const [tailMethodName, tailMethodParams] of zodNode.tail] and the
    body of the loop.  An array entry gives its first two elements; a
    string entry, being iterable, gives its first two characters. *)
Definition tail_step (parseNode : Json -> M Value) (method : string)
  (item : Json) (schema : Value) : M Value :=
  match item with
  | JArr elems =>
      call_tail method (key_of (head elems))
        (match elems with
         | _ :: tailMethodParams :: _ =>
             if js_truthy tailMethodParams then parseNode tailMethodParams
             else ret (VArr [])
         | _ => ret (VArr [])
         end)
        schema
  | JStr s =>
      call_tail method
        (match JsString.chars s with c :: _ => c | [] => "undefined" end)
        (match JsString.chars s with
         | _ :: c :: _ => ret (VStr c)
         | _ => ret (VArr [])
         end)
        schema
  | _ => throw (NativeTypeError DestructureTailItem)
  end.

(** Step 4 of branch C: [if (Array.isArray(zodNode.tail))], the loop over
    the tail entries, each applied to the schema the previous one returned. *)
Definition run_tail (parseNode : Json -> M Value) (method : string)
  (props : list (string * Json)) (schema : Value) : M Value :=
  match prop_with
          (fun tail =>
             match tail with
             | JArr items => foldM (tail_step parseNode method) items
             | _ => ret
             end)
          "tail" props
  with
  | Some loop => loop schema
  | None => ret schema
  end.

(** Branch C: a [ZodJson] node. *)
Definition parse_zod_json (parseNode : Json -> M Value)
  (props : list (string * Json)) : M Value :=
  match prop "method" props with
  | Some (JStr method) =>
      match get (z rt) method ≫= callable rt with
      | None => throw (UnknownMethod method)
      | Some methodFn =>
          params <-
            match prop_with
                    (fun p => if js_truthy p then parseNode p else ret (VArr []))
                    "params" props
            with
            | Some resolve => resolve
            | None => ret (VArr [])
            end ;;
          args <- spread params ;;
          schema <- lib_call methodFn None args ;;
          run_tail parseNode method props schema
      end
  | other => throw (InvalidMethod (js_typeof other))
  end.

(** [result[key] = v] on the object the record branch is building.  As
    long as the prototype of [result] is [Object.prototype] the assignment
    adds the property, except under the name [__proto__], where it runs
    the setter of [Object.prototype]: a boolean, a number or a string is
    ignored and nothing is added; anything else replaces the prototype.
    From then on an assignment is up to the new prototype. *)
Definition assign (result : Value) (key : string) (v : Value) : M Value :=
  match result with
  | VObj fields =>
      if String.eqb key "__proto__" then
        match v with
        | VBool _ | VNum _ | VStr _ => ret result
        | _ => ret (set_prototype rt fields v)
        end
      else ret (VObj (set_prop fields key v))
  | _ =>
      match host_assign rt result key v with
      | inl message => throw (LibraryError message)
      | inr result' => ret result'
      end
  end.

(** The last branch: a plain record, resolved value by value into a new
    object. *)
Definition parse_record (parseNode : Json -> M Value)
  (props : list (string * Json)) : M Value :=
  foldM (fun kv result =>
           v <- parseNode (snd kv) ;;
           assign result (fst kv) v)
        props (VObj []).

(** The body of [parseNode], over the function it calls on the children. *)
Definition parseNode_body (parseNode : Json -> M Value) (node : Json) : M Value :=
  match node with
  | JNull => ret VNull
  | JBool b => ret (VBool b)
  | JNum n => ret (VNum n)
  | JStr s => ret (VStr s)
  | JArr items => vs <- mapM parseNode items ;; ret (VArr vs)
  | JObj props =>
      if has_tag "_is" "ref" props then parse_ref props
      else if has_tag "_is" "function" props then parse_function props
      else if has_tag "_schema" "json-zod" props then parse_zod_json parseNode props
      else parse_record parseNode props
  end.

Fixpoint parseNode (node : Json) {struct node} : M Value :=
  parseNode_body parseNode node.

Definition initial_state : State :=
  {| definitionCache := ∅; lazies := [] |}.

(** [fromZodJson(root)]: a fresh cache, then [parseNode(root.schema)]. *)
Definition resolve_pass : Outcome Value * State :=
  parseNode (schema root) initial_state.

Definition fromZodJson : Outcome Value := fst resolve_pass.

(** [parseNode] on a member inherited from [Object.prototype].  A
    function is no object for [typeof] and is returned as it is.
    [__proto__] reads [Object.prototype] itself, an object that has none of
    [_is] and [_schema] and no enumerable property: the record branch
    returns a new empty object for it. *)
Definition parse_inherited (name : string) : M Value :=
  if String.eqb name "__proto__" then ret (VObj [])
  else ret (VLib (inherited rt name)).

(** The thunk handed to [z.lazy] for [refId]. *)
Definition lazy_thunk (refId : string) : M Value :=
  match definitions root with
  | None => throw (UnresolvedDefinitionsContainer refId)
  | Some defs =>
      match prop refId defs with
      | Some definition =>
          if js_truthy definition then parseNode definition
          else throw (UnknownDefinition refId)
      | None =>
          if inherited_name refId then parse_inherited refId
          else throw (UnknownDefinition refId)
      end
  end.

End Resolver.

Arguments parseNode {Num L} rt root node _.
Arguments assign {Num L} rt result key v _ : simpl never.
Arguments lazy_thunk {Num L} rt root refId _.
Arguments fromZodJson {Num L} rt root.
Arguments resolve_pass {Num L} rt root.

(* ================================================================= *)
(** ** Using the result: forcing lazy schemas

    zod keeps the value of a lazy schema's thunk once the thunk has
    returned; a thunk that throws is run again at the next use.  A session
    is the state the thunks close over, together with those kept values. *)

Section Forcing.

Context {Num L : Type}.
Variable rt : Runtime Num L.
Variable root : ZodJsonRoot Num.

Record Session : Type := {
  state : State Num L;
  innerType : gmap nat (Value Num L)
}.

(** First use of the lazy schema [h] runs its thunk; later uses return the
    kept value.  [None]: there is no lazy schema [h]. *)
Definition force (h : nat) (ss : Session) : option (Outcome (Value Num L) * Session) :=
  match innerType ss !! h with
  | Some v => Some (Returns v, ss)
  | None =>
      match lazies (state ss) !! h with
      | None => None
      | Some key =>
          match lazy_thunk rt root (snd key) (state ss) with
          | (Returns v, st') =>
              Some (Returns v,
                    {| state := st'; innerType := <[h := v]> (innerType ss) |})
          | (Throws e, st') =>
              Some (Throws e, {| state := st'; innerType := innerType ss |})
          end
      end
  end.

(** The lazy schemas whose thunk has not returned yet, oldest first. *)
Definition pending (ss : Session) : list nat :=
  filter (fun h => innerType ss !! h = None) (seq 0 (length (lazies (state ss)))).

(** Force pending lazy schemas until none is left or one throws.  [None]:
    the allowance of thunk runs is used up. *)
Fixpoint force_all (fuel : nat) (ss : Session) : option (Outcome unit * Session) :=
  match pending ss with
  | [] => Some (Returns tt, ss)
  | h :: _ =>
      match fuel with
      | 0 => None
      | S fuel' =>
          match force h ss with
          | Some (Returns _, ss') => force_all fuel' ss'
          | Some (Throws e, ss') => Some (Throws e, ss')
          | None => None
          end
      end
  end.

(** The session a caller holds after [fromZodJson] has returned. *)
Definition session_of (st : State Num L) : Session :=
  {| state := st; innerType := ∅ |}.

End Forcing.

Arguments Session : clear implicits.
Arguments force {Num L} rt root h ss.
Arguments force_all {Num L} rt root fuel ss.
Arguments pending {Num L} ss.
Arguments session_of {Num L} st.

(* ================================================================= *)
(** ** The reverse direction *)

Inductive ConversionError : Type :=
| NotImplemented.

(** [toZodJson] of [from-json-zod.ts]: a placeholder whose body is a single
    [throw]. *)
Definition toZodJson {Num L : Type} (schema : Value Num L)
  : ConversionError + ZodJsonRoot Num :=
  inl NotImplemented.

(* ================================================================= *)
(** ** A small instance of the parameters

    Numbers are integers.  A library object is the module, the [coerce]
    namespace, a function, or a schema that records how it was built, so
    that two schemas are equal exactly when they were built by the same
    calls in the same order; besides these, a function of
    [Object.prototype], or an object whose prototype was replaced, which
    takes every assignment as a property of its own. *)

Module Toy.

Inductive Obj : Type :=
| Zod
| Coerce
| Ctor (path : string)
| Method (name : string)
| Built (path : string) (args : list (Value Z Obj))
| Chained (receiver : Value Z Obj) (name : string) (args : list (Value Z Obj))
| Native (name : string)
| Reparented (prototype : Value Z Obj) (fields : list (string * Value Z Obj)).

Definition ctor_names : list string :=
  ["string"; "number"; "boolean"; "object"; "array"; "union"; "literal"; "email"].

Definition coerce_names : list string := ["string"; "number"; "boolean"].

Definition method_names : list string :=
  ["min"; "max"; "optional"; "nullable"; "transform"; "refine"].

Definition mem (s : string) (l : list string) : bool :=
  existsb (String.eqb s) l.

Definition is_schema (v : Value Z Obj) : bool :=
  match v with
  | VLazy _ | VLib (Built _ _) | VLib (Chained _ _ _) => true
  | _ => false
  end.

Definition member_of (v : Value Z Obj) (name : string) : option Obj :=
  match v with
  | VLib Zod =>
      if String.eqb name "coerce" then Some Coerce
      else if mem name ctor_names then Some (Ctor name) else None
  | VLib Coerce =>
      if mem name coerce_names then Some (Ctor ("coerce." +:+ name)) else None
  | _ => if is_schema v && mem name method_names then Some (Method name) else None
  end.

(** [z.literal] refuses an empty argument list; every other call succeeds. *)
Definition function_of (x : Obj)
  : option (option (Value Z Obj) -> list (Value Z Obj) -> string + Value Z Obj) :=
  match x with
  | Ctor path =>
      Some (fun _ args =>
              match String.eqb path "literal", args with
              | true, [] => inl "literal needs a value"
              | _, _ => inr (VLib (Built path args))
              end)
  | Method name =>
      Some (fun this args =>
              match this with
              | Some receiver => inr (VLib (Chained receiver name args))
              | None => inl "method called without a receiver"
              end)
  | _ => None
  end.

(** Text compiles when its parentheses are balanced. *)
Fixpoint balanced (depth : nat) (s : string) : bool :=
  match s with
  | EmptyString => depth =? 0
  | String c rest =>
      if Ascii.eqb c "("%char then balanced (S depth) rest
      else if Ascii.eqb c ")"%char then
             match depth with
             | 0 => false
             | S d => balanced d rest
             end
           else balanced depth rest
  end.

Definition digit (n : nat) : string :=
  String (ascii_of_nat (48 + n)) EmptyString.

Fixpoint print_nat (fuel n : nat) : string :=
  match fuel with
  | 0 => ""
  | S fuel' =>
      if n <? 10 then digit n
      else print_nat fuel' (n / 10) +:+ digit (n mod 10)
  end.

Definition print_Z (n : Z) : string :=
  match n with
  | Z0 => "0"
  | Zpos p => print_nat (Pos.to_nat p) (Pos.to_nat p)
  | Zneg p => "-" +:+ print_nat (Pos.to_nat p) (Pos.to_nat p)
  end.

Definition rt : Runtime Z Obj := {|
  num_truthy := fun n => negb (Z.eqb n 0);
  num_to_string := print_Z;
  z := Zod;
  get_member := member_of;
  callable := function_of;
  iterate := fun _ => None;
  array_like := fun _ => [];
  new_Function := fun _ body =>
    if balanced 0 body then None else Some "Unexpected end of input";
  match_failure := fun _ => "code.match is not a function";
  inherited := Native;
  set_prototype := fun fields prototype => VLib (Reparented prototype fields);
  host_assign := fun target key v =>
    match target with
    | VLib (Reparented prototype fields) =>
        inr (VLib (Reparented prototype (set_prop fields key v)))
    | _ => inl "Cannot assign to read only property"
    end
|}.

(** Builders for the documents of the examples. *)
Definition node (method : string) (rest : list (string * Json Z)) : Json Z :=
  JObj (("_schema", JStr "json-zod") :: ("method", JStr method) :: rest).

Definition ref (id : string) : Json Z :=
  JObj [("_is", JStr "ref"); ("id", JStr id)].

Definition fn (code : string) : Json Z :=
  JObj [("_is", JStr "function"); ("code", JStr code)].

(** The recursive category of the test suite. *)
Definition category : ZodJsonRoot Z := {|
  definitions := Some
    [("Category",
      node "object"
        [("params",
          JArr [JObj [("name", node "string" []);
                      ("subcategories",
                       node "array" [("params", JArr [ref "Category"])])]])])];
  schema := ref "Category"
|}.

(** Three definitions that refer to each other in a cycle. *)
Definition cycle : ZodJsonRoot Z := {|
  definitions := Some
    [("A", node "object" [("params", JArr [JObj [("b", ref "B")]])]);
     ("B", node "object" [("params", JArr [JObj [("c", ref "C")]])]);
     ("C", node "object" [("params", JArr [JObj [("a", ref "A")]])])];
  schema := ref "A"
|}.

(** A reference to a definition that is not there. *)
Definition missing_props : list (string * Json Z) :=
  [("_is", JStr "ref"); ("id", JStr "NonExistentDefinition")].

Definition missing : ZodJsonRoot Z := {|
  definitions := None;
  schema := JObj missing_props
|}.

(** A definition that names a constructor zod does not have, reached only
    through the reference of the root. *)
Definition broken_definition : ZodJsonRoot Z := {|
  definitions := Some [("Broken", node "notAMethod" [])];
  schema := ref "Broken"
|}.

(** A node whose [method] is the empty string. *)
Definition empty_method : ZodJsonRoot Z := {|
  definitions := None;
  schema := node "" []
|}.

(** A node whose [method] is a number, alone and inside a shape. *)
Definition numeric_method_props : list (string * Json Z) :=
  [("_schema", JStr "json-zod"); ("method", JNum 5%Z)].

Definition shape_with_invalid : list (string * Json Z) :=
  [("name", node "string" []); ("age", JObj numeric_method_props)].

Definition object_with_invalid : list (string * Json Z) :=
  [("_schema", JStr "json-zod"); ("method", JStr "object");
   ("params", JArr [JObj shape_with_invalid])].

Definition nested_invalid : ZodJsonRoot Z := {|
  definitions := None;
  schema := JObj object_with_invalid
|}.

(** [z.string().min(3).max(10)] and the same tail reversed. *)
Definition min_entry : Json Z := JArr [JStr "min"; JArr [JNum 3%Z]].
Definition max_entry : Json Z := JArr [JStr "max"; JArr [JNum 10%Z]].

Definition min_then_max : ZodJsonRoot Z := {|
  definitions := None;
  schema := node "string" [("tail", JArr [min_entry; max_entry])]
|}.

Definition max_then_min : ZodJsonRoot Z := {|
  definitions := None;
  schema := node "string" [("tail", JArr [max_entry; min_entry])]
|}.

(** A shape whose keys are not in alphabetical order. *)
Definition shape_props : list (string * Json Z) :=
  [("zeta", node "string" []); ("alpha", JNum 1%Z); ("mid", JNull)].

Definition no_definitions : ZodJsonRoot Z := {|
  definitions := None;
  schema := JNull
|}.

(** A reference to a name every object inherits, with no definition of
    that name. *)
Definition inherited_props : list (string * Json Z) :=
  [("_is", JStr "ref"); ("id", JStr "toString")].

Definition inherited_reference : ZodJsonRoot Z := {|
  definitions := Some [];
  schema := JObj inherited_props
|}.

(** A shape with a key [__proto__], as [JSON.parse] gives it. *)
Definition proto_record : list (string * Json Z) :=
  [("a", node "string" []); ("__proto__", node "number" [])].

(** One definition referred to by the number 5 and by the string "5". *)
Definition number_and_string : ZodJsonRoot Z := {|
  definitions := Some [("5", node "string" [])];
  schema :=
    JArr [JObj [("_is", JStr "ref"); ("id", JNum 5%Z)]; ref "5"; ref "5"]
|}.

(** The state after [fromZodJson] on the cycle, and the body of [A]. *)
Definition cycle_state : State Z Obj := snd (resolve_pass rt cycle).

Definition body_of_A : Json Z :=
  node "object" [("params", JArr [JObj [("b", ref "B")]])].

Definition ref_A_props : list (string * Json Z) :=
  [("_is", JStr "ref"); ("id", JStr "A")].

End Toy.

(* ================================================================= *)
(** ** Invariants of the cache *)

Section Invariants.

Context {Num L : Type}.
Variable rt : Runtime Num L.
Variable root : ZodJsonRoot Num.

(** Every entry of the cache is a lazy schema made for that id, and every
    lazy schema made is the entry of the id it was made for. *)
Definition cache_consistent (st : State Num L) : Prop :=
  (forall key v, definitionCache st !! key = Some v ->
                 exists h, v = VLazy h /\ lazies st !! h = Some key)
  /\ (forall h key, lazies st !! h = Some key ->
                    definitionCache st !! key = Some (VLazy h)).

(** Lazy schemas are only made for ids that pass the check of the
    reference branch. *)
Definition ids_defined (st : State Num L) : Prop :=
  forall key, key ∈ lazies st -> has_definition rt root (snd key) = true.

Definition cache_inv (st : State Num L) : Prop :=
  cache_consistent st /\ ids_defined st.

(** From [st] to [st']: entries are only added, lazy schemas are only
    appended, and the invariant is kept. *)
Definition extends (st st' : State Num L) : Prop :=
  definitionCache st ⊆ definitionCache st'
  /\ lazies st `prefix_of` lazies st'
  /\ (cache_inv st -> cache_inv st').

(** A computation all of whose runs extend the state, also when it throws. *)
Definition monotone {A : Type} (m : M Num L A) : Prop :=
  forall st r st', m st = (r, st') -> extends st st'.

(** The invariant of a session: the cache invariant, and kept values only
    for lazy schemas that exist. *)
Definition session_inv (ss : Session Num L) : Prop :=
  cache_inv (state ss)
  /\ forall h, is_Some (innerType ss !! h) -> h < length (lazies (state ss)).

(** The number of definitions. *)
Definition definition_count : nat :=
  match definitions root with
  | None => 0
  | Some defs => length defs
  end.

(** A bound on the lazy schemas of one document: a key is one of six
    types together with a name that passes the check of the reference
    branch, an own key of [definitions] or a name of [Object.prototype]. *)
Definition thunk_bound : nat :=
  length all_kinds * (definition_count + length object_prototype_names).

End Invariants.

Arguments cache_consistent {Num L} st.
Arguments extends {Num L} rt root st st'.
Arguments monotone {Num L} rt root {A} m.
Arguments cache_inv {Num L} rt root st.
Arguments ids_defined {Num L} rt root st.
Arguments session_inv {Num L} rt root ss.
Arguments definition_count {Num} root.
Arguments thunk_bound {Num} root.

(* ================================================================= *)
(** ** Positions in a document *)

Section Positions.

Context {Num L : Type}.
Variable rt : Runtime Num L.
Variable root : ZodJsonRoot Num.

(** The elements of an array and the property values of an object. *)
Inductive child : Json Num -> Json Num -> Prop :=
| child_item x items : x ∈ items -> child x (JArr items)
| child_value k v props : (k, v) ∈ props -> child v (JObj props).

(** Anything strictly inside a value. *)
Inductive inside : Json Num -> Json Num -> Prop :=
| inside_child c j : child c j -> inside c j
| inside_deeper c j' j : inside c j' -> child j' j -> inside c j.

(** The branch [parseNode] takes on an object, in the order of its tests. *)
Inductive Shape : Type :=
| IsRef
| IsFunction
| IsZodJson
| IsRecord.

Definition shape_of (props : list (string * Json Num)) : Shape :=
  if has_tag "_is" "ref" props then IsRef
  else if has_tag "_is" "function" props then IsFunction
  else if has_tag "_schema" "json-zod" props then IsZodJson
  else IsRecord.

(** The values [parseNode] calls itself on while it resolves a node: array
    elements, the values of a plain record, the [params] of a [ZodJson]
    node and the parameters of its tail entries.  A reference has none:
    the definition it names is left to the thunk. *)
Inductive eager_child : Json Num -> Json Num -> Prop :=
| eager_item x items :
    x ∈ items -> eager_child x (JArr items)
| eager_value k v props :
    shape_of props = IsRecord -> (k, v) ∈ props -> eager_child v (JObj props)
| eager_params p props :
    shape_of props = IsZodJson -> prop "params" props = Some p ->
    eager_child p (JObj props)
| eager_tail_params name p rest items props :
    shape_of props = IsZodJson -> prop "tail" props = Some (JArr items) ->
    JArr (name :: p :: rest) ∈ items ->
    eager_child p (JObj props).

(** Reached from [node] without going through a reference. *)
Definition eager_in (x node : Json Num) : Prop := rtc eager_child x node.

(** The id of a reference is neither an array nor an object. *)
Definition primitive_id (props : list (string * Json Num)) : bool :=
  match prop "id" props with
  | Some (JArr _) | Some (JObj _) => false
  | _ => true
  end.

(** Every reference of a value, at any depth, has such an id. *)
Fixpoint primitive_ids (node : Json Num) : bool :=
  match node with
  | JArr items => forallb primitive_ids items
  | JObj props =>
      (if has_tag "_is" "ref" props then primitive_id props else true)
      && forallb (fun kv => primitive_ids (snd kv)) props
  | _ => true
  end.

(** The same for a document: its [schema] and every definition. *)
Definition root_primitive_ids : bool :=
  primitive_ids (schema root)
  && match definitions root with
     | Some defs => forallb (fun kv => primitive_ids (snd kv)) defs
     | None => true
     end.

(** A computation that throws from every state. *)
Definition fails {A : Type} (m : M Num L A) : Prop :=
  forall st, exists e st', m st = (Throws e, st').

(** A value whose resolution throws whatever the cache holds. *)
Definition always_fails (x : Json Num) : Prop :=
  fails (parseNode rt root x).

End Positions.

Arguments child {Num} _ _.
Arguments inside {Num} _ _.
Arguments shape_of {Num} props.
Arguments eager_child {Num} _ _.
Arguments eager_in {Num} x node.
Arguments primitive_id {Num} props.
Arguments primitive_ids {Num} node.
Arguments root_primitive_ids {Num} root.
Arguments always_fails {Num L} rt root x.
Arguments fails {Num L A} m.

(* ================================================================= *)
(** ** Vocabulary of the statements *)

Section Vocabulary.

Context {Num L : Type}.
Variable rt : Runtime Num L.
Variable root : ZodJsonRoot Num.

(** A scalar or [null], and the same value on the other side. *)
Inductive same_scalar : Json Num -> Value Num L -> Prop :=
| same_null : same_scalar JNull VNull
| same_bool b : same_scalar (JBool b) (VBool b)
| same_num n : same_scalar (JNum n) (VNum n)
| same_str s : same_scalar (JStr s) (VStr s).

(** The properties of a record resolved one after the other, each value by
    [parseNode] in the state the previous one left. *)
Inductive resolved_fields
  : State Num L -> list (string * Json Num) -> list (string * Value Num L)
    -> State Num L -> Prop :=
| resolved_nil st : resolved_fields st [] [] st
| resolved_cons st key node rest v st1 fields st' :
    parseNode rt root node st = (Returns v, st1) ->
    resolved_fields st1 rest fields st' ->
    resolved_fields st ((key, node) :: rest) ((key, v) :: fields) st'.

End Vocabulary.

Arguments same_scalar {Num L} _ _.
Arguments resolved_fields {Num L} rt root _ _ _ _.

(* ================================================================= *)
(** ** More vocabulary: arrays, documents without references, typed
    documents *)

(** An ordinary property name.  Assigning to [__proto__] sets the
    prototype of an object instead of adding a property, and a name that
    is an array index is listed before the other keys instead of last.
    The association lists model neither, so the statements on objects
    built by assignment ask for ordinary names where that matters. *)
Definition ordinary_key (k : string) : bool := negb (String.eqb k "__proto__").

Definition is_digit (c : ascii) : bool :=
  (48 <=? nat_of_ascii c) && (nat_of_ascii c <=? 57).

(** Every string of digits, which covers the canonical array indices. *)
Definition index_like (k : string) : bool :=
  negb (String.eqb k "") && forallb is_digit (list_ascii_of_string k).

Section MoreVocabulary.

Context {Num L : Type}.
Variable rt : Runtime Num L.
Variable root : ZodJsonRoot Num.

(** The elements of an array resolved one after the other, each in the
    state the previous one left. *)
Inductive resolved_items
  : State Num L -> list (Json Num) -> list (Value Num L) -> State Num L -> Prop :=
| resolved_items_nil st : resolved_items st [] [] st
| resolved_items_cons st item rest v st1 vs st' :
    parseNode rt root item st = (Returns v, st1) ->
    resolved_items st1 rest vs st' ->
    resolved_items st (item :: rest) (v :: vs) st'.

(** No object of the document, at any depth, is a reference. *)
Definition reference_free (node : Json Num) : Prop :=
  forall c props,
    c = node \/ inside c node ->
    c = JObj props -> has_tag "_is" "ref" props = false.

(** The same, as a test that can be run. *)
Fixpoint mentions_reference (node : Json Num) : bool :=
  match node with
  | JArr items => existsb mentions_reference items
  | JObj props =>
      has_tag "_is" "ref" props
      || existsb (fun kv => mentions_reference (snd kv)) props
  | _ => false
  end.

(** A computation that leaves the state as it found it and throws only
    errors that [allowed] admits. *)
Definition confined {A : Type} (allowed : ResolutionError -> Prop) (m : M Num L A)
  : Prop :=
  forall st r st',
    m st = (r, st') ->
    st' = st /\ match r with Throws e => allowed e | Returns _ => True end.

(** The errors that come from the library: a constructor or a chained
    method that is not there, an exception of a call, a call that returned
    [null] as schema. *)
Definition from_library (e : ResolutionError) : Prop :=
  match e with
  | UnknownMethod _ | UnknownTailMethod _ _ | LibraryError _
  | NativeTypeError NullReceiver => True
  | _ => False
  end.

(** A tail entry as [ZodJsonTailItem] declares it: a method name alone, or
    a method name and an array of parameters. *)
Inductive typed_entry (P : Json Num -> Prop) : Json Num -> Prop :=
| typed_entry_bare name : typed_entry P (JArr [JStr name])
| typed_entry_params name params :
    Forall P params -> typed_entry P (JArr [JStr name; JArr params]).

(** A document as [lib/types.ts] declares [ZodJsonParam], without
    references and function specs: literals, arrays, records, and nodes
    whose [method] is a string, whose [params] are absent or an array and
    whose [tail] is absent or an array of entries. *)
Inductive typed_document : Json Num -> Prop :=
| typed_null : typed_document JNull
| typed_bool b : typed_document (JBool b)
| typed_num n : typed_document (JNum n)
| typed_str s : typed_document (JStr s)
| typed_array items :
    Forall typed_document items -> typed_document (JArr items)
| typed_node props method :
    shape_of props = IsZodJson ->
    prop "method" props = Some (JStr method) ->
    (prop "params" props = None
     \/ exists params,
         prop "params" props = Some (JArr params) /\ Forall typed_document params) ->
    (prop "tail" props = None
     \/ exists entries,
         prop "tail" props = Some (JArr entries)
         /\ Forall (typed_entry typed_document) entries) ->
    typed_document (JObj props)
| typed_record props :
    shape_of props = IsRecord ->
    Forall (fun kv => typed_document (snd kv)) props ->
    typed_document (JObj props).

End MoreVocabulary.

Arguments resolved_items {Num L} rt root _ _ _ _.
Arguments reference_free {Num} node.
Arguments mentions_reference {Num} node.
Arguments confined {Num L A} allowed m.
Arguments typed_entry {Num} P _.
Arguments typed_document {Num} _.

(* ================================================================= *)
(** ** The reverse direction, as far as it is written ([lib/to-json-zod.ts]) *)

Module ToJsonZod.

(** What [convertSchema] reads of a zod schema: [_def.typeName], and of the
    rest of [_def] the element [type] of an array, the entries of what
    [shape()] returns for an object, and the [innerType] of an optional.
    [None] is a member that is not there. *)
Inductive ZodSchema : Type :=
| ZodDef (typeName : option string)
         (type : option ZodSchema)
         (shape : option (list (string * ZodSchema)))
         (innerType : option ZodSchema).

(** Induction that reaches into the members. *)
Section ZodSchemaInd.
Variable P : ZodSchema -> Prop.
Hypothesis Hdef :
  forall typeName type shape innerType,
    from_option P True type ->
    from_option (Forall (fun kv => P (snd kv))) True shape ->
    from_option P True innerType ->
    P (ZodDef typeName type shape innerType).

Fixpoint ZodSchema_nested_ind (s : ZodSchema) : P s :=
  match s with
  | ZodDef typeName type shape innerType =>
      Hdef typeName type shape innerType
        (match type return from_option P True type with
         | Some t => ZodSchema_nested_ind t
         | None => I
         end)
        (match shape
               return from_option (Forall (fun kv => P (snd kv))) True shape with
         | Some entries =>
             (fix go (l : list (string * ZodSchema))
                : Forall (fun kv => P (snd kv)) l :=
                match l with
                | [] => @List.Forall_nil _ (fun kv => P (snd kv))
                | kv :: r =>
                    @List.Forall_cons _ (fun kv => P (snd kv)) kv r
                      (ZodSchema_nested_ind (snd kv)) (go r)
                end) entries
         | None => I
         end)
        (match innerType return from_option P True innerType with
         | Some t => ZodSchema_nested_ind t
         | None => I
         end)
  end.
End ZodSchemaInd.

Inductive ConvertError : Type :=
| Unsupported (typeName : string)   (* the [throw] of the [default] case *)
| NotASchema.                       (* a [TypeError]: a member that is not there *)

Definition convert_message (e : ConvertError) : option string :=
  match e with
  | Unsupported typeName =>
      Some ("[json-zod] toZodJson: Unsupported Zod type: " +:+ typeName)
  | NotASchema => None
  end.

Section Convert.

Context {Num : Type}.

#[local] Abbreviation Json := (Json Num).

(** The object literal [{ _schema: 'json-zod', method, ... }], as the
    list of its properties. *)
Definition zod_json (method : string) (rest : list (string * Json))
  : list (string * Json) :=
  ("_schema", JStr "json-zod") :: ("method", JStr method) :: rest.

(** [innerSchema.tail || []]; the [tail] of a [ZodJson] is an array. *)
Definition tail_or_empty (props : list (string * Json)) : list Json :=
  match prop "tail" props with
  | Some (JArr entries) => entries
  | _ => []
  end.

(** [{ ...innerSchema, tail: [...(innerSchema.tail || []), ['optional']] }]. *)
Definition with_optional (innerSchema : list (string * Json)) : list (string * Json) :=
  set_prop innerSchema "tail"
    (JArr (tail_or_empty innerSchema ++ [JArr [JStr "optional"]])).

(** The loop of the [ZodObject] case over [Object.entries(shape())]. *)
Definition convert_entries
  (convertSchema : ZodSchema -> ConvertError + list (string * Json))
  : list (string * ZodSchema) -> list (string * Json)
    -> ConvertError + list (string * Json) :=
  fix go (entries : list (string * ZodSchema)) (shape : list (string * Json)) :=
    match entries with
    | [] => inr shape
    | (key, value) :: rest =>
        match convertSchema value with
        | inl e => inl e
        | inr node => go rest (set_prop shape key (JObj node))
        end
    end.

(** The body of [convertSchema]: the [switch] on [typeName].  It returns
    the properties of the [ZodJson] object. *)
Definition convertSchema_body
  (convertSchema : ZodSchema -> ConvertError + list (string * Json))
  (schema : ZodSchema) : ConvertError + list (string * Json) :=
  match schema with
  | ZodDef typeName type shape innerType =>
      match typeName with
      | Some name =>
          if String.eqb name "ZodString" then inr (zod_json "string" [])
          else if String.eqb name "ZodNumber" then inr (zod_json "number" [])
          else if String.eqb name "ZodBoolean" then inr (zod_json "boolean" [])
          else if String.eqb name "ZodArray" then
            match type with
            | Some element =>
                match convertSchema element with
                | inl e => inl e
                | inr elementSchema =>
                    inr (zod_json "array" [("params", JArr [JObj elementSchema])])
                end
            | None => inl NotASchema
            end
          else if String.eqb name "ZodObject" then
            match shape with
            | Some entries =>
                match convert_entries convertSchema entries [] with
                | inl e => inl e
                | inr converted =>
                    inr (zod_json "object" [("params", JArr [JObj converted])])
                end
            | None => inl NotASchema
            end
          else if String.eqb name "ZodOptional" then
            match innerType with
            | Some inner =>
                match convertSchema inner with
                | inl e => inl e
                | inr innerSchema => inr (with_optional innerSchema)
                end
            | None => inl NotASchema
            end
          else inl (Unsupported name)
      | None => inl (Unsupported "undefined")
      end
  end.

Fixpoint convertSchema (schema : ZodSchema) {struct schema}
  : ConvertError + list (string * Json) :=
  convertSchema_body convertSchema schema.

(** [toZodJson] of [lib/to-json-zod.ts]: [{ schema: convertSchema(schema) }]. *)
Definition toZodJson (schema : ZodSchema) : ConvertError + ZodJsonRoot Num :=
  match convertSchema schema with
  | inl e => inl e
  | inr rootSchema => inr {| definitions := None; schema := JObj rootSchema |}
  end.

End Convert.

(** The keys of every shape in the schema are ordinary property names. *)
Fixpoint ordinary_keys (s : ZodSchema) : bool :=
  match s with
  | ZodDef _ type shape innerType =>
      from_option ordinary_keys true type
      && from_option
           (forallb (fun kv => ordinary_key (fst kv) && ordinary_keys (snd kv)))
           true shape
      && from_option ordinary_keys true innerType
  end.

(** The type names the [switch] has a case for. *)
Definition supported_names : list string :=
  ["ZodString"; "ZodNumber"; "ZodBoolean"; "ZodArray"; "ZodObject"; "ZodOptional"].

(** A schema every part of which [convertSchema] has a case for, with the
    member that case reads in place. *)
Inductive convertible : ZodSchema -> Prop :=
| convertible_string type shape innerType :
    convertible (ZodDef (Some "ZodString") type shape innerType)
| convertible_number type shape innerType :
    convertible (ZodDef (Some "ZodNumber") type shape innerType)
| convertible_boolean type shape innerType :
    convertible (ZodDef (Some "ZodBoolean") type shape innerType)
| convertible_array element shape innerType :
    convertible element ->
    convertible (ZodDef (Some "ZodArray") (Some element) shape innerType)
| convertible_object type entries innerType :
    Forall (fun kv => convertible (snd kv)) entries ->
    convertible (ZodDef (Some "ZodObject") type (Some entries) innerType)
| convertible_optional type shape inner :
    convertible inner ->
    convertible (ZodDef (Some "ZodOptional") type shape (Some inner)).

(** What [convertSchema] returns: a typed [ZodJson] node. *)
Definition converted_node {Num : Type} (props : list (string * Json Num)) : Prop :=
  shape_of props = IsZodJson /\ typed_document (JObj props).

(** Schemas for the examples. *)
Definition leaf (name : string) : ZodSchema := ZodDef (Some name) None None None.

Definition optional_of (inner : ZodSchema) : ZodSchema :=
  ZodDef (Some "ZodOptional") None None (Some inner).

Definition array_of (element : ZodSchema) : ZodSchema :=
  ZodDef (Some "ZodArray") (Some element) None None.

Definition object_of (entries : list (string * ZodSchema)) : ZodSchema :=
  ZodDef (Some "ZodObject") None (Some entries) None.

Definition person : ZodSchema :=
  object_of [("name", leaf "ZodString");
             ("tags", optional_of (array_of (leaf "ZodString")));
             ("age", optional_of (optional_of (leaf "ZodNumber")))].

End ToJsonZod.

(* ================================================================= *)
(** ** The form generators of the examples
    ([lib/simple-examples.ts], [lib/examples.ts]) *)

Module FormSchemas.

(** ['string' | 'number' | 'email' | 'boolean']. *)
Inductive FieldType : Type :=
| TString
| TNumber
| TEmail
| TBoolean.

Definition type_name (t : FieldType) : string :=
  match t with
  | TString => "string"
  | TNumber => "number"
  | TEmail => "email"
  | TBoolean => "boolean"
  end.

(** [fieldType === 'email' ? 'email' : fieldType]. *)
Definition method_of (t : FieldType) : string :=
  if String.eqb (type_name t) "email" then "email" else type_name t.

Section Forms.

Context {Num : Type}.

#[local] Abbreviation Json := (Json Num).

(** [{ schema: { _schema: 'json-zod', method: 'object', params: [shape] } }]. *)
Definition form_root (shape : list (string * Json)) : ZodJsonRoot Num := {|
  definitions := None;
  schema :=
    JObj [("_schema", JStr "json-zod"); ("method", JStr "object");
          ("params", JArr [JObj shape])]
|}.

(** [createSimpleFormSchema(fields)].  [fields] is the list of
    [Object.entries(fields)]. *)
Definition createSimpleFormSchema (fields : list (string * FieldType))
  : ZodJsonRoot Num :=
  form_root
    (fold_left
       (fun shape entry =>
          set_prop shape (fst entry)
            (JObj [("_schema", JStr "json-zod");
                   ("method", JStr (method_of (snd entry)))]))
       fields []).

(** [validation?: { min?: number; max?: number; pattern?: string }]. *)
Record Validation : Type := {
  min : option Num;
  max : option Num;
  pattern : option string
}.

(** One element of the array given to [createDynamicFormSchema]. *)
Record Field : Type := {
  name : string;
  type : FieldType;
  required : option bool;
  validation : option Validation
}.

(** The rules pushed inside [if (field.validation)]. *)
Definition validation_rules (v : Validation) : list Json :=
  (match min v with
   | Some n => [JArr [JStr "min"; JArr [JNum n]]]
   | None => []
   end)
  ++ (match max v with
      | Some n => [JArr [JStr "max"; JArr [JNum n]]]
      | None => []
      end)
  ++ (match pattern v with
      | Some p =>
          if String.eqb p "" then [] else [JArr [JStr "regex"; JArr [JStr p]]]
      | None => []
      end).

(** The [tail] built for a field: the rules, then [optional] unless the
    field is required. *)
Definition field_tail (field : Field) : list Json :=
  (match validation field with
   | Some v => validation_rules v
   | None => []
   end)
  ++ (match required field with
      | Some true => []
      | _ => [JArr [JStr "optional"]]
      end).

(** [fieldSchema], with [tail] set only when it is not empty. *)
Definition field_schema (field : Field) : Json :=
  JObj (("_schema", JStr "json-zod")
        :: ("method", JStr (method_of (type field)))
        :: match field_tail field with
           | [] => []
           | tail => [("tail", JArr tail)]
           end).

(** [createDynamicFormSchema(fields)]. *)
Definition createDynamicFormSchema (fields : list Field) : ZodJsonRoot Num :=
  form_root
    (fold_left
       (fun shape field => set_prop shape (name field) (field_schema field))
       fields []).

(** The name of a tail entry. *)
Definition entry_name (entry : Json) : option string :=
  match entry with
  | JArr (JStr n :: _) => Some n
  | _ => None
  end.

End Forms.

Arguments Validation : clear implicits.
Arguments Field : clear implicits.

End FormSchemas.

(* ================================================================= *)
(** ** Documents, schemas and fields for the examples *)

Module Samples.

(** A tail entry naming a method no schema has. *)
Definition unknown_entry : Json Z := JArr [JStr "nope"].

(** A string with a transform given as a function spec. *)
Definition trimmed : ZodJsonRoot Z := {|
  definitions := None;
  schema :=
    Toy.node "string"
      [("tail", JArr [JArr [JStr "transform"; JArr [Toy.fn "val => val.trim()"]]])]
|}.

(** What [convertSchema] returns for an array of strings. *)
Definition tags_node : list (string * Json Z) :=
  ToJsonZod.zod_json "array"
    [("params", JArr [JObj (ToJsonZod.zod_json "string" [])])].

Definition signup : list (string * FormSchemas.FieldType) :=
  [("firstName", FormSchemas.TString);
   ("email", FormSchemas.TEmail);
   ("age", FormSchemas.TNumber)].

End Samples.
(* ================================================================= *)
(** * Properties *)

Section ResolverFacts.

Context {Num L : Type}.
Variable rt : Runtime Num L.
Variable root : ZodJsonRoot Num.

#[local] Abbreviation Json := (Json Num).
#[local] Abbreviation Value := (Value Num L).
#[local] Abbreviation State := (State Num L).
#[local] Abbreviation M := (M Num L).
#[local] Abbreviation parse := (parseNode rt root).

Lemma parseNode_unfold (node : Json) :
  parse node = parseNode_body rt root parse node.
Proof. destruct node; reflexivity. Qed.

(** *** The monad *)

Lemma bind_returns {A B : Type} (m : M A) (k : A -> M B) st a st' :
  m st = (Returns a, st') -> bind m k st = k a st'.
Proof. intros H. unfold bind. now rewrite H. Qed.

Lemma bind_throws {A B : Type} (m : M A) (k : A -> M B) st e st' :
  m st = (Throws e, st') -> bind m k st = (Throws e, st').
Proof. intros H. unfold bind. now rewrite H. Qed.

Lemma bind_inv {A B : Type} (m : M A) (k : A -> M B) st r st' :
  bind m k st = (r, st') ->
  (exists a st1, m st = (Returns a, st1) /\ k a st1 = (r, st'))
  \/ (exists e, m st = (Throws e, st') /\ r = Throws e).
Proof.
  unfold bind. destruct (m st) as [[a | e] st1] eqn:E; intros H.
  - left. eauto.
  - right. inversion H; subst. eauto.
Qed.

(** *** Monotonicity of the state *)

Lemma extends_refl st : extends rt root st st.
Proof. split; [reflexivity | split; [reflexivity | auto]]. Qed.

Lemma extends_trans st1 st2 st3 :
  extends rt root st1 st2 -> extends rt root st2 st3 -> extends rt root st1 st3.
Proof.
  intros (Hc1 & Hl1 & Hi1) (Hc2 & Hl2 & Hi2). split; [| split].
  - etransitivity; eauto.
  - etransitivity; eauto.
  - intros H; apply Hi2, Hi1, H.
Qed.

Lemma monotone_ret {A : Type} (a : A) : monotone rt root (ret (Num:=Num) (L:=L) a).
Proof. intros st r st' H. inversion H; subst. apply extends_refl. Qed.

Lemma monotone_throw {A : Type} e : monotone rt root (throw (Num:=Num) (L:=L) (A:=A) e).
Proof. intros st r st' H. inversion H; subst. apply extends_refl. Qed.

Lemma monotone_bind {A B : Type} (m : M A) (k : A -> M B) :
  monotone rt root m -> (forall a, monotone rt root (k a)) ->
  monotone rt root (bind m k).
Proof.
  intros Hm Hk st r st' H.
  destruct (bind_inv _ _ _ _ _ H) as [(a & st1 & H1 & H2) | (e & H1 & _)].
  - eapply extends_trans; [eapply Hm | eapply Hk]; eauto.
  - eapply Hm; eauto.
Qed.

Lemma monotone_mapM {A B : Type} (f : A -> M B) (l : list A) :
  Forall (fun x => monotone rt root (f x)) l -> monotone rt root (mapM f l).
Proof.
  induction 1 as [| x l Hx Hl IH]; simpl.
  - apply monotone_ret.
  - apply monotone_bind; [exact Hx |]. intros y.
    apply monotone_bind; [exact IH |]. intros ys. apply monotone_ret.
Qed.

Lemma monotone_foldM {A B : Type} (f : A -> B -> M B) (l : list A) :
  Forall (fun x => forall acc, monotone rt root (f x acc)) l ->
  forall acc, monotone rt root (foldM f l acc).
Proof.
  induction 1 as [| x l Hx Hl IH]; simpl; intros acc.
  - apply monotone_ret.
  - apply monotone_bind; [apply Hx |]. intros acc'. apply IH.
Qed.

(** *** The reference branch *)

Lemma parse_ref_undefined props st :
  has_definition rt root (key_of rt (prop "id" props)) = false ->
  parse_ref rt root props st
  = (Throws (UnknownDefinition (key_of rt (prop "id" props))), st).
Proof. intros H. unfold parse_ref. rewrite H. reflexivity. Qed.

Lemma parse_ref_hit props st cached :
  has_definition rt root (key_of rt (prop "id" props)) = true ->
  definitionCache st !! map_key rt (prop "id" props) = Some cached ->
  parse_ref rt root props st = (Returns cached, st).
Proof.
  intros Hdef Hc. unfold parse_ref. rewrite Hdef. simpl.
  unfold bind, get_state. rewrite Hc. reflexivity.
Qed.

Lemma parse_ref_miss props st :
  has_definition rt root (key_of rt (prop "id" props)) = true ->
  definitionCache st !! map_key rt (prop "id" props) = None ->
  parse_ref rt root props st
  = (Returns (VLazy (length (lazies st))),
     {| definitionCache :=
          <[map_key rt (prop "id" props) := VLazy (length (lazies st))]>
            (definitionCache st);
        lazies := lazies st ++ [map_key rt (prop "id" props)] |}).
Proof.
  intros Hdef Hc. unfold parse_ref. rewrite Hdef. simpl.
  unfold bind, get_state. rewrite Hc. reflexivity.
Qed.

Lemma register_keeps_inv st (key : MapKey) :
  has_definition rt root (snd key) = true ->
  definitionCache st !! key = None ->
  cache_inv rt root st ->
  cache_inv rt root
    {| definitionCache := <[key := VLazy (length (lazies st))]> (definitionCache st);
       lazies := lazies st ++ [key] |}.
Proof.
  intros Hdef Hmiss [[Hc1 Hc2] Hids]. split; [split |]; simpl.
  - intros id v Hl. destruct (decide (key = id)) as [<- | Hne].
    + rewrite lookup_insert_eq in Hl. inversion Hl; subst.
      exists (length (lazies st)). split; [reflexivity |].
      rewrite lookup_app_r by lia. now rewrite Nat.sub_diag.
    + rewrite lookup_insert_ne in Hl by assumption.
      destruct (Hc1 _ _ Hl) as (h & -> & Hh). exists h. split; [reflexivity |].
      now apply lookup_app_l_Some.
  - intros h id Hl. apply lookup_app_Some in Hl as [Hl | [Hge Hl]].
    + assert (Hne : key <> id).
      { intros <-. apply Hc2 in Hl. congruence. }
      rewrite lookup_insert_ne by assumption. now apply Hc2.
    + destruct (h - length (lazies st)) as [| k] eqn:Ek; simpl in Hl; [| now destruct k].
      inversion Hl; subst. assert (h = length (lazies st)) as -> by lia.
      apply lookup_insert_eq.
  - intros id Hin. apply elem_of_app in Hin as [Hin | Hin].
    + now apply Hids.
    + apply list_elem_of_singleton in Hin. now subst.
Qed.

Lemma monotone_parse_ref props : monotone rt root (parse_ref rt root props).
Proof.
  intros st r st' H.
  destruct (has_definition rt root (key_of rt (prop "id" props))) eqn:Hdef.
  - destruct (definitionCache st !! map_key rt (prop "id" props)) as [cached |] eqn:Hc.
    + rewrite (parse_ref_hit _ _ _ Hdef Hc) in H. inversion H; subst.
      apply extends_refl.
    + rewrite (parse_ref_miss _ _ Hdef Hc) in H. inversion H; subst.
      split; [| split]; simpl.
      * now apply insert_subseteq.
      * now apply prefix_app_r.
      * now apply (register_keeps_inv st (map_key rt (prop "id" props))).
  - rewrite (parse_ref_undefined _ _ Hdef) in H. inversion H; subst.
    apply extends_refl.
Qed.

(** *** Induction over everything inside a value *)

Lemma Json_deep_ind (Q : Json -> Prop) :
  (forall j, (forall c, inside c j -> Q c) -> Q j) -> forall j, Q j.
Proof.
  intros H.
  assert (Hall : forall j, Q j /\ forall c, inside c j -> Q c).
  { induction j as [| b | n | s | items IH | props IH] using Json_nested_ind.
    1-4: (match goal with
          | |- ?q ?j /\ _ => assert (Hin : forall c, inside c j -> q c)
          end;
          [intros c Hc; inversion Hc as [? ? Hch | ? ? ? _ Hch]; inversion Hch
          | split; [apply H |]; apply Hin]).
    - assert (Hin : forall c, inside c (JArr items) -> Q c).
      { intros c Hc. rewrite Forall_forall in IH.
        inversion Hc as [? ? Hch | ? j' ? Hd Hch]; subst;
          inversion Hch; subst.
        - destruct (IH c) as [Hq _]; [assumption | exact Hq].
        - destruct (IH j') as [_ Hq]; [assumption | now apply Hq]. }
      split; [apply H |]; apply Hin.
    - assert (Hin : forall c, inside c (JObj props) -> Q c).
      { intros c Hc. rewrite Forall_forall in IH.
        inversion Hc as [? ? Hch | ? j' ? Hd Hch]; subst;
          inversion Hch as [| k v ? Hkv]; subst.
        - destruct (IH (k, c)) as [Hq _]; [assumption | exact Hq].
        - destruct (IH (k, j')) as [_ Hq]; [assumption | now apply Hq]. }
      split; [apply H |]; apply Hin. }
  intros j. apply Hall.
Qed.

Lemma prop_with_prop {B : Type} (f : Json -> B) key props :
  prop_with f key props = f <$> prop key props.
Proof.
  induction props as [| [k v] rest IH]; simpl; [reflexivity |].
  destruct (String.eqb k key); [reflexivity | exact IH].
Qed.

Lemma prop_elem_of {B : Type} key (props : list (string * B)) v :
  prop key props = Some v -> (key, v) ∈ props.
Proof.
  induction props as [| [k w] rest IH]; simpl; [discriminate |].
  destruct (String.eqb k key) eqn:E.
  - intros [= ->]. apply String.eqb_eq in E. subst. apply list_elem_of_here.
  - intros Hp. apply list_elem_of_further. now apply IH.
Qed.

(** *** Every branch extends the state *)

Lemma monotone_lib_call fn this args : monotone rt root (lib_call fn this args).
Proof.
  unfold lib_call. destruct (fn this args); [apply monotone_throw | apply monotone_ret].
Qed.

Lemma monotone_spread params : monotone rt root (spread rt params).
Proof.
  unfold spread. destruct params; try apply monotone_throw; try apply monotone_ret;
    destruct (iterate rt _); (apply monotone_throw || apply monotone_ret).
Qed.

Lemma monotone_apply_args args : monotone rt root (apply_args rt args).
Proof.
  unfold apply_args. destruct args; (apply monotone_throw || apply monotone_ret).
Qed.

Lemma monotone_parse_function props : monotone rt root (parse_function rt props).
Proof.
  unfold parse_function.
  destruct (prop "code" props) as [[] |]; try apply monotone_throw.
  destruct (new_Function rt _ _); [apply monotone_throw | apply monotone_ret].
Qed.

Lemma monotone_call_tail method name parseParams schema :
  monotone rt root parseParams ->
  monotone rt root (call_tail rt method name parseParams schema).
Proof.
  intros Hp. unfold call_tail.
  assert (Hgo : monotone rt root
            match get_member rt schema name ≫= callable rt with
            | Some tailMethodFn =>
                parsedTailParams <- parseParams ;;
                args <- apply_args rt parsedTailParams ;;
                lib_call tailMethodFn (Some schema) args
            | None => throw (UnknownTailMethod name method)
            end).
  { destruct (get_member rt schema name ≫= callable rt); [| apply monotone_throw].
    apply monotone_bind; [exact Hp |]. intros v.
    apply monotone_bind; [apply monotone_apply_args |]. intros args.
    apply monotone_lib_call. }
  destruct schema; try exact Hgo. apply monotone_throw.
Qed.

Lemma monotone_tail_step (f : Json -> M Value) method item schema :
  (forall elems, item = JArr elems ->
                 forall p, p ∈ elems -> monotone rt root (f p)) ->
  monotone rt root (tail_step rt f method item schema).
Proof.
  intros Hf. unfold tail_step. destruct item; try apply monotone_throw.
  - apply monotone_call_tail.
    destruct (JsString.chars s) as [| ? [| ? ?]]; apply monotone_ret.
  - apply monotone_call_tail.
    destruct items as [| name [| p rest]]; try apply monotone_ret.
    destruct (js_truthy rt p); [| apply monotone_ret].
    apply (Hf _ eq_refl). apply list_elem_of_further, list_elem_of_here.
Qed.

Lemma run_tail_array (f : Json -> M Value) method props items schema :
  prop "tail" props = Some (JArr items) ->
  run_tail rt f method props schema = foldM (tail_step rt f method) items schema.
Proof. intros H. unfold run_tail. rewrite prop_with_prop, H. reflexivity. Qed.

Lemma run_tail_absent (f : Json -> M Value) method props schema :
  (forall items, prop "tail" props <> Some (JArr items)) ->
  run_tail rt f method props schema = ret schema.
Proof.
  intros H. unfold run_tail. rewrite prop_with_prop.
  destruct (prop "tail" props) as [[] |]; try reflexivity.
  now destruct (H items).
Qed.

Lemma monotone_run_tail (f : Json -> M Value) method props schema :
  (forall c, inside c (JObj props) -> monotone rt root (f c)) ->
  monotone rt root (run_tail rt f method props schema).
Proof.
  intros Hf. unfold run_tail.
  rewrite prop_with_prop. destruct (prop "tail" props) as [tail |] eqn:Ht; simpl;
    [| apply monotone_ret].
  destruct tail; try apply monotone_ret.
  apply monotone_foldM. apply Forall_forall. intros item Hitem acc.
  apply monotone_tail_step. intros elems -> p Hp.
  apply Hf. eapply inside_deeper; [eapply inside_deeper |].
  - apply inside_child, child_item, Hp.
  - apply child_item, Hitem.
  - eapply child_value, prop_elem_of, Ht.
Qed.

Lemma monotone_parse_zod_json (f : Json -> M Value) props :
  (forall c, inside c (JObj props) -> monotone rt root (f c)) ->
  monotone rt root (parse_zod_json rt f props).
Proof.
  intros Hf. unfold parse_zod_json.
  destruct (prop "method" props) as [[| | | method | |] |]; try apply monotone_throw.
  destruct (get rt (z rt) method ≫= callable rt) as [methodFn |];
    [| apply monotone_throw].
  apply monotone_bind.
  { rewrite prop_with_prop. destruct (prop "params" props) as [p |] eqn:Hp; simpl;
      [| apply monotone_ret].
    destruct (js_truthy rt p); [| apply monotone_ret].
    apply Hf. apply inside_child. eapply child_value, prop_elem_of, Hp. }
  intros params. apply monotone_bind; [apply monotone_spread |]. intros args.
  apply monotone_bind; [apply monotone_lib_call |]. intros schema.
  now apply monotone_run_tail.
Qed.

Lemma monotone_assign result key v : monotone rt root (assign rt result key v).
Proof.
  unfold assign. destruct result;
    try (destruct (host_assign rt _ key v); [apply monotone_throw | apply monotone_ret]).
  destruct (String.eqb key "__proto__"); [| apply monotone_ret].
  destruct v; apply monotone_ret.
Qed.

Lemma monotone_parse_record (f : Json -> M Value) props :
  (forall c, inside c (JObj props) -> monotone rt root (f c)) ->
  monotone rt root (parse_record rt f props).
Proof.
  intros Hf. unfold parse_record.
  apply monotone_foldM. apply Forall_forall. intros [k v] Hkv acc. simpl.
  apply monotone_bind; [| intros; apply monotone_assign].
  apply Hf, inside_child. eapply child_value, Hkv.
Qed.

Lemma monotone_parseNode (node : Json) : monotone rt root (parse node).
Proof.
  induction node as [node IH] using Json_deep_ind.
  rewrite parseNode_unfold. destruct node as [| b | n | s | items | props]; simpl;
    try apply monotone_ret.
  - apply monotone_bind; [| intros; apply monotone_ret].
    apply monotone_mapM, Forall_forall. intros x Hx.
    apply IH, inside_child, child_item, Hx.
  - destruct (has_tag "_is" "ref" props); [apply monotone_parse_ref |].
    destruct (has_tag "_is" "function" props); [apply monotone_parse_function |].
    destruct (has_tag "_schema" "json-zod" props).
    + apply monotone_parse_zod_json, IH.
    + apply monotone_parse_record, IH.
Qed.

Lemma monotone_lazy_thunk refId : monotone rt root (lazy_thunk rt root refId).
Proof.
  unfold lazy_thunk. destruct (definitions root) as [defs |]; [| apply monotone_throw].
  destruct (prop refId defs) as [definition |].
  - destruct (js_truthy rt definition); [apply monotone_parseNode | apply monotone_throw].
  - destruct (inherited_name refId); [| apply monotone_throw].
    unfold parse_inherited. destruct (String.eqb refId "__proto__"); apply monotone_ret.
Qed.

(** *** At most one lazy schema per definition *)

Lemma initial_state_inv : cache_inv rt root initial_state.
Proof.
  split; [split |]; simpl.
  - intros id v H. rewrite lookup_empty in H. discriminate.
  - intros h id H. rewrite lookup_nil in H. discriminate.
  - intros id H. apply elem_of_nil in H. contradiction.
Qed.

Lemma lazies_NoDup (st : State) : cache_consistent st -> NoDup (lazies st).
Proof.
  intros [_ Hc]. apply NoDup_alt. intros i j id Hi Hj.
  apply Hc in Hi. apply Hc in Hj. congruence.
Qed.

Lemma has_definition_name id :
  has_definition rt root id = true ->
  exists defs,
    definitions root = Some defs /\ id ∈ map fst defs ++ object_prototype_names.
Proof.
  unfold has_definition. destruct (definitions root) as [defs |]; [| discriminate].
  destruct (prop id defs) as [d |] eqn:Hp.
  - intros _. exists defs. split; [reflexivity |]. apply elem_of_app. left.
    apply prop_elem_of in Hp. apply list_elem_of_fmap. now exists (id, d).
  - intros Hin. exists defs. split; [reflexivity |]. apply elem_of_app. right.
    unfold inherited_name in Hin. apply existsb_exists in Hin as (name & Hname & Heq).
    apply String.eqb_eq in Heq. subst. now apply list_elem_of_In.
Qed.

Lemma lazies_bound (st : State) :
  cache_inv rt root st -> length (lazies st) <= thunk_bound root.
Proof.
  intros [Hc Hids]. unfold thunk_bound, definition_count.
  destruct (lazies st) as [| key0 rest] eqn:El; [simpl; lia |].
  destruct (has_definition_name (snd key0)) as (defs & Hdefs & _).
  { apply Hids. rewrite El. apply list_elem_of_here. }
  rewrite Hdefs, <- El.
  set (names := map fst defs ++ object_prototype_names).
  assert (Hlen : length defs + length object_prototype_names = length names).
  { unfold names. now rewrite length_app, length_map. }
  rewrite Hlen, <- (List.length_prod all_kinds names).
  apply submseteq_length, NoDup_submseteq; [now apply lazies_NoDup |].
  intros [kind name] Hin. apply list_elem_of_In, in_prod.
  - destruct kind; simpl; tauto.
  - apply list_elem_of_In.
    destruct (has_definition_name name (Hids _ Hin)) as (defs' & Hd & Hn).
    unfold names. congruence.
Qed.

(** *** Forcing *)

Lemma pending_head (ss : Session Num L) h rest :
  pending ss = h :: rest ->
  h < length (lazies (state ss)) /\ innerType ss !! h = None.
Proof.
  intros Hp. assert (Hin : h ∈ pending ss) by (rewrite Hp; apply list_elem_of_here).
  unfold pending in Hin. apply list_elem_of_filter in Hin as [Hnone Hseq].
  apply elem_of_seq in Hseq. split; [lia | exact Hnone].
Qed.

Lemma pending_nil (ss : Session Num L) h :
  pending ss = [] -> h < length (lazies (state ss)) -> is_Some (innerType ss !! h).
Proof.
  intros Hp Hlt. destruct (innerType ss !! h) eqn:E; [eauto |].
  assert (Hin : h ∈ pending ss).
  { unfold pending. apply list_elem_of_filter. split; [exact E |].
    apply elem_of_seq. lia. }
  rewrite Hp in Hin. apply elem_of_nil in Hin. contradiction.
Qed.

Lemma kept_below (ss : Session Num L) h :
  session_inv rt root ss ->
  h < length (lazies (state ss)) -> innerType ss !! h = None ->
  size (innerType ss) < length (lazies (state ss)).
Proof.
  intros [_ Hk] Hlt Hnone.
  rewrite <- size_dom.
  rewrite <- (size_set_seq (C := gset nat) 0 (length (lazies (state ss)))).
  apply subset_size. split.
  - intros x Hx. apply elem_of_dom in Hx. apply elem_of_set_seq.
    split; [lia | simpl; now apply Hk].
  - intros Hsub. assert (Hin : h ∈ dom (innerType ss)).
    { apply Hsub, elem_of_set_seq. lia. }
    apply elem_of_dom in Hin. rewrite Hnone in Hin. now destruct Hin.
Qed.

Lemma force_spec h (ss : Session Num L) (key : MapKey) :
  innerType ss !! h = None -> lazies (state ss) !! h = Some key ->
  session_inv rt root ss ->
  exists r ss',
    force rt root h ss = Some (r, ss')
    /\ session_inv rt root ss'
    /\ extends rt root (state ss) (state ss')
    /\ match r with
       | Returns v => innerType ss' = <[h := v]> (innerType ss)
       | Throws _ => innerType ss' = innerType ss
       end.
Proof.
  intros Hnone Hl [Hinv Hk]. unfold force. rewrite Hnone, Hl.
  destruct (lazy_thunk rt root (snd key) (state ss)) as [[v | e] st'] eqn:Et;
    pose proof (monotone_lazy_thunk (snd key) _ _ _ Et) as Hext;
    pose proof Hext as (_ & Hpre & Hkeep);
    apply prefix_length in Hpre.
  - eexists _, _. split; [reflexivity |]. split; [| split; [exact Hext | reflexivity]].
    split; simpl; [now apply Hkeep |].
    intros h' Hs. destruct (decide (h = h')) as [<- | Hne].
    + apply lookup_lt_Some in Hl. lia.
    + rewrite lookup_insert_ne in Hs by assumption. apply Hk in Hs. lia.
  - eexists _, _. split; [reflexivity |]. split; [| split; [exact Hext | reflexivity]].
    split; simpl; [now apply Hkeep |].
    intros h' Hs. apply Hk in Hs. lia.
Qed.

Lemma force_all_enough_fuel fuel (ss : Session Num L) :
  session_inv rt root ss ->
  thunk_bound root - size (innerType ss) <= fuel ->
  exists r ss',
    force_all rt root fuel ss = Some (r, ss')
    /\ session_inv rt root ss'
    /\ match r with Returns _ => pending ss' = [] | Throws _ => True end.
Proof.
  revert ss. induction fuel as [| fuel IH]; intros ss Hinv Hfuel.
  - simpl. destruct (pending ss) as [| h rest] eqn:Hp.
    + eexists _, _. split; [reflexivity |]. split; [exact Hinv | exact Hp].
    + exfalso. apply pending_head in Hp as [Hlt Hnone].
      pose proof (kept_below _ _ Hinv Hlt Hnone).
      pose proof (lazies_bound _ (proj1 Hinv)). lia.
  - simpl. destruct (pending ss) as [| h rest] eqn:Hp.
    + eexists _, _. split; [reflexivity |]. split; [exact Hinv | exact Hp].
    + apply pending_head in Hp as [Hlt Hnone].
      destruct (lookup_lt_is_Some_2 _ _ Hlt) as [refId Hl].
      destruct (force_spec _ _ _ Hnone Hl Hinv) as (r & ss' & Hf & Hinv' & _ & Hr).
      rewrite Hf. destruct r as [v | e].
      * apply IH; [exact Hinv' |]. rewrite Hr.
        rewrite map_size_insert_None by exact Hnone.
        pose proof (kept_below _ _ Hinv Hlt Hnone).
        pose proof (lazies_bound _ (proj1 Hinv)). lia.
      * eexists _, _. split; [reflexivity |]. split; [exact Hinv' | exact I].
Qed.

(** *** Dispatch on the shape of an object *)

Lemma parse_object props :
  parse (JObj props)
  = match shape_of props with
    | IsRef => parse_ref rt root props
    | IsFunction => parse_function rt props
    | IsZodJson => parse_zod_json rt parse props
    | IsRecord => parse_record rt parse props
    end.
Proof.
  rewrite parseNode_unfold. unfold shape_of. simpl.
  destruct (has_tag "_is" "ref" props); [reflexivity |].
  destruct (has_tag "_is" "function" props); [reflexivity |].
  destruct (has_tag "_schema" "json-zod" props); reflexivity.
Qed.

Lemma shape_of_ref (props : list (string * Json)) :
  has_tag "_is" "ref" props = true -> shape_of props = IsRef.
Proof. intros H. unfold shape_of. now rewrite H. Qed.

Lemma resolve_pass_inv :
  session_inv rt root (session_of (snd (resolve_pass rt root))).
Proof.
  unfold resolve_pass.
  destruct (parse (schema root) initial_state) as [r st] eqn:E. simpl.
  split; simpl.
  - apply (monotone_parseNode _ _ _ _ E), initial_state_inv.
  - intros h [v Hv]. rewrite lookup_empty in Hv. discriminate.
Qed.

Lemma force_all_inv fuel : forall (ss : Session Num L) u ss',
  session_inv rt root ss ->
  force_all rt root fuel ss = Some (u, ss') ->
  session_inv rt root ss' /\ extends rt root (state ss) (state ss').
Proof.
  induction fuel as [| fuel IH]; intros ss u ss' Hinv; simpl;
    destruct (pending ss) as [| h rest] eqn:Hp; try discriminate.
  - intros [= _ <-]. split; [exact Hinv | apply extends_refl].
  - intros [= _ <-]. split; [exact Hinv | apply extends_refl].
  - apply pending_head in Hp as [Hlt Hnone].
    destruct (lookup_lt_is_Some_2 _ _ Hlt) as [key Hl].
    destruct (force_spec _ _ _ Hnone Hl Hinv) as (r & ss1 & Hf & Hinv1 & Hext & _).
    rewrite Hf. destruct r as [v | e].
    + intros Hrest. destruct (IH _ _ _ Hinv1 Hrest) as [Hinv' Hext'].
      split; [exact Hinv' | eapply extends_trans; eauto].
    + intros [= _ <-]. split; [exact Hinv1 | exact Hext].
Qed.

Lemma force_own h (ss : Session Num L) (key : MapKey) defs definition :
  innerType ss !! h = None ->
  lazies (state ss) !! h = Some key ->
  definitions root = Some defs ->
  prop (snd key) defs = Some definition ->
  js_truthy rt definition = true ->
  force rt root h ss
  = Some (match parse definition (state ss) with
          | (Returns v, st') =>
              (Returns v, {| state := st'; innerType := <[h := v]> (innerType ss) |})
          | (Throws e, st') =>
              (Throws e, {| state := st'; innerType := innerType ss |})
          end).
Proof.
  intros Hnone Hl Hd Hp Ht. unfold force, lazy_thunk.
  rewrite Hnone, Hl, Hd, Hp, Ht.
  destruct (parse definition (state ss)) as [[v | e] st']; reflexivity.
Qed.

Lemma own_definition_truthy (st : State) (key : MapKey) defs definition :
  cache_inv rt root st ->
  key ∈ lazies st ->
  definitions root = Some defs ->
  prop (snd key) defs = Some definition ->
  js_truthy rt definition = true.
Proof.
  intros [_ Hids] Hin Hd Hp. specialize (Hids _ Hin).
  unfold has_definition in Hids. now rewrite Hd, Hp in Hids.
Qed.

Lemma registered_reference_hits (st st1 : State) h props :
  cache_inv rt root st ->
  lazies st !! h = Some (map_key rt (prop "id" props)) ->
  extends rt root st st1 ->
  has_tag "_is" "ref" props = true ->
  parse (JObj props) st1 = (Returns (VLazy h), st1).
Proof.
  intros [[_ Hc] Hids] Hl (Hsub & _ & _) Href.
  rewrite parse_object, (shape_of_ref _ Href). apply parse_ref_hit.
  - apply (Hids (map_key rt (prop "id" props))). eapply list_elem_of_lookup_2, Hl.
  - eapply lookup_weaken; [apply Hc, Hl | exact Hsub].
Qed.


Lemma cache_size (st : State) :
  cache_consistent st -> size (definitionCache st) = length (lazies st).
Proof.
  intros Hc. pose proof (lazies_NoDup _ Hc) as Hnd. destruct Hc as [Hc1 Hc2].
  rewrite <- size_dom.
  rewrite <- (size_list_to_set (C := gset MapKey) (lazies st) Hnd).
  f_equal. apply set_eq. intros key.
  rewrite elem_of_dom, elem_of_list_to_set. split.
  - intros [v Hv]. destruct (Hc1 _ _ Hv) as (h & _ & Hl).
    eapply list_elem_of_lookup_2, Hl.
  - intros Hin. apply list_elem_of_lookup_1 in Hin as [h Hl]. eauto.
Qed.

(** C6.  One lazy schema per reference id.  Whatever [parseNode] is called
    on whose reference ids are not arrays or objects, from a state that
    satisfies the invariant of the cache: every entry of the cache is still
    there afterwards with the same value, also when the call throws; no id
    has had [z.lazy] called for it twice, and [z.lazy] has been called as
    many times as the cache has entries; two ids never share a lazy
    schema; a reference to an id that was in the cache before the call
    returns exactly the cached schema afterwards and leaves the state as
    it is; and a reference that passes the check and whose id is not in
    the cache makes one lazy schema, files it under the id, and meets it
    again at the next encounter.  An id is what the cache takes it for:
    its type together with its value. *)
Theorem one_lazy_schema_per_id node st r st' :
  primitive_ids node = true ->
  cache_inv rt root st ->
  parse node st = (r, st') ->
  definitionCache st ⊆ definitionCache st'
  /\ cache_inv rt root st'
  /\ NoDup (lazies st')
  /\ size (definitionCache st') = length (lazies st')
  /\ (forall key1 key2 h,
        definitionCache st' !! key1 = Some (VLazy h) ->
        definitionCache st' !! key2 = Some (VLazy h) -> key1 = key2)
  /\ (forall props cached,
        has_tag "_is" "ref" props = true ->
        primitive_id props = true ->
        definitionCache st !! map_key rt (prop "id" props) = Some cached ->
        parse (JObj props) st' = (Returns cached, st'))
  /\ (forall props,
        has_tag "_is" "ref" props = true ->
        primitive_id props = true ->
        has_definition rt root (key_of rt (prop "id" props)) = true ->
        definitionCache st' !! map_key rt (prop "id" props) = None ->
        exists st'',
          parse (JObj props) st' = (Returns (VLazy (length (lazies st'))), st'')
          /\ length (lazies st'') = S (length (lazies st'))
          /\ definitionCache st'' !! map_key rt (prop "id" props)
             = Some (VLazy (length (lazies st')))
          /\ parse (JObj props) st'' = (Returns (VLazy (length (lazies st'))), st'')).
Proof.
  intros _ Hinv Hrun.
  destruct (monotone_parseNode _ _ _ _ Hrun) as (Hsub & _ & Hkeep).
  specialize (Hkeep Hinv). pose proof Hkeep as [[Hc1 Hc2] Hids].
  split; [exact Hsub |]. split; [exact Hkeep |].
  split; [now apply lazies_NoDup |].
  split; [now apply cache_size |]. split; [| split].
  - intros key1 key2 h H1 H2.
    destruct (Hc1 _ _ H1) as (h1 & [= <-] & Hl1).
    destruct (Hc1 _ _ H2) as (h2 & [= <-] & Hl2). congruence.
  - intros props cached Href _ Hc.
    assert (Hc' : definitionCache st' !! map_key rt (prop "id" props) = Some cached).
    { eapply lookup_weaken; eauto. }
    rewrite parse_object, (shape_of_ref _ Href).
    apply parse_ref_hit; [| exact Hc'].
    destruct (Hc1 _ _ Hc') as (h & _ & Hl).
    apply (Hids (map_key rt (prop "id" props))). eapply list_elem_of_lookup_2, Hl.
  - intros props Href _ Hdef Hmiss. eexists. split; [| split; [| split]].
    + rewrite parse_object, (shape_of_ref _ Href). now apply parse_ref_miss.
    + simpl. rewrite length_app. simpl. lia.
    + simpl. apply lookup_insert_eq.
    + rewrite parse_object, (shape_of_ref _ Href).
      apply parse_ref_hit; [exact Hdef |]. simpl. apply lookup_insert_eq.
Qed.

Lemma prop_not_key {B : Type} key (props : list (string * B)) :
  key ∉ map fst props -> prop key props = None.
Proof.
  intros Hk. destruct (prop key props) as [v |] eqn:E; [| reflexivity].
  exfalso. apply Hk. apply prop_elem_of in E.
  apply list_elem_of_fmap. now exists (key, v).
Qed.


Lemma mapM_scalars items (vs : list Value) st :
  Forall2 same_scalar items vs ->
  mapM parse items st = (Returns vs, st).
Proof.
  induction 1 as [| j v items vs Hjv _ IH]; simpl; [reflexivity |].
  unfold bind. destruct Hjv; simpl; rewrite IH; reflexivity.
Qed.

Lemma parse_scalar_array items (vs : list Value) st :
  Forall2 same_scalar items vs ->
  parse (JArr items) st = (Returns (VArr vs), st).
Proof.
  intros H. rewrite parseNode_unfold. simpl. unfold bind.
  now rewrite (mapM_scalars _ _ _ H).
Qed.

(** C8.  Scalars and [null] pass through unchanged: [parseNode] returns
    the value itself and does not touch the state, and a list of scalars
    resolves to the list of the same scalars.  So they reach the library
    as they are: a node whose [params] are scalars calls its constructor
    on exactly these scalars, and a tail entry whose parameters are
    scalars calls its method on exactly these scalars. *)
Theorem scalars_pass_through st :
  parse JNull st = (Returns VNull, st)
  /\ (forall b, parse (JBool b) st = (Returns (VBool b), st))
  /\ (forall n, parse (JNum n) st = (Returns (VNum n), st))
  /\ (forall s, parse (JStr s) st = (Returns (VStr s), st))
  /\ (forall items vs,
        Forall2 same_scalar items vs ->
        parse (JArr items) st = (Returns (VArr vs), st))
  /\ (forall props method methodFn items vs,
        shape_of props = IsZodJson ->
        prop "method" props = Some (JStr method) ->
        get rt (z rt) method ≫= callable rt = Some methodFn ->
        prop "params" props = Some (JArr items) ->
        Forall2 same_scalar items vs ->
        parse (JObj props) st
        = (schema <- lib_call methodFn None vs ;;
           run_tail rt parse method props schema) st)
  /\ (forall method name items vs rest current tailMethodFn,
        current <> VNull ->
        get_member rt current name ≫= callable rt = Some tailMethodFn ->
        Forall2 same_scalar items vs ->
        tail_step rt parse method (JArr (JStr name :: JArr items :: rest)) current st
        = lib_call tailMethodFn (Some current) vs st).
Proof.
  split; [reflexivity |]. split; [reflexivity |]. split; [reflexivity |].
  split; [reflexivity |]. split; [| split].
  - intros items vs H. now apply parse_scalar_array.
  - intros props method methodFn items vs Hshape Hm Hget Hp Hs.
    rewrite parse_object, Hshape. unfold parse_zod_json.
    rewrite Hm, Hget, prop_with_prop, Hp. cbn [fmap option_fmap option_map js_truthy].
    unfold bind at 1. rewrite (parse_scalar_array _ _ _ Hs). reflexivity.
  - intros method name items vs rest current fn Hnn Hfn Hs.
    unfold tail_step, call_tail. simpl. rewrite Hfn.
    assert (Hgo : (parsedTailParams <- parse (JArr items) ;;
                   args <- apply_args rt parsedTailParams ;;
                   lib_call fn (Some current) args) st
                  = lib_call fn (Some current) vs st).
    { unfold bind at 1. rewrite (parse_scalar_array _ _ _ Hs). reflexivity. }
    destruct current; try exact Hgo. now destruct Hnn.
Qed.

Lemma invalid_method_throws props st :
  shape_of props = IsZodJson ->
  (forall method, prop "method" props <> Some (JStr method)) ->
  parse (JObj props) st
  = (Throws (InvalidMethod (js_typeof (prop "method" props))), st).
Proof.
  intros Hshape Hm. rewrite parse_object, Hshape. unfold parse_zod_json.
  destruct (prop "method" props) as [[| | | method | |] |]; try reflexivity.
  now destruct (Hm method).
Qed.

Lemma invalid_method_always_fails props :
  shape_of props = IsZodJson ->
  (forall method, prop "method" props <> Some (JStr method)) ->
  always_fails rt root (JObj props).
Proof.
  intros Hshape Hm st. rewrite (invalid_method_throws _ _ Hshape Hm). eauto.
Qed.

(** C5 (as amended).  The check on [method] is [typeof method !== 'string']
    and nothing more.  A [ZodJson] node whose [method] is absent or is not
    a string throws [InvalidMethod] with the [typeof] of what it found,
    whatever the library is, and leaves the state alone.  A node whose
    [method] is a string, the empty string included, passes the check and
    goes on to the lookup of the constructor; when that lookup does not
    give a function the node throws [UnknownMethod] with the path. *)
Theorem non_string_method_is_invalid props st :
  shape_of props = IsZodJson ->
  match prop "method" props with
  | Some (JStr method) =>
      get rt (z rt) method ≫= callable rt = None ->
      parse (JObj props) st = (Throws (UnknownMethod method), st)
  | other =>
      parse (JObj props) st = (Throws (InvalidMethod (js_typeof other)), st)
  end.
Proof.
  intros Hshape. rewrite parse_object, Hshape. unfold parse_zod_json.
  destruct (prop "method" props) as [[| | | method | |] |]; try reflexivity.
  intros ->. reflexivity.
Qed.

(** *** The tail loop *)

Lemma foldM_app {A B : Type} (f : A -> B -> M B) l1 l2 acc st :
  foldM f (l1 ++ l2) acc st = (acc' <- foldM f l1 acc ;; foldM f l2 acc') st.
Proof.
  revert acc st. induction l1 as [| x l1 IH]; intros acc st; simpl; [reflexivity |].
  unfold bind in *. destruct (f x acc st) as [[acc' | e] st1]; [| reflexivity].
  apply IH.
Qed.

Lemma foldM_single {A B : Type} (f : A -> B -> M B) x acc st :
  foldM f [x] acc st = f x acc st.
Proof.
  simpl. unfold bind. destruct (f x acc st) as [[acc' | e] st1]; reflexivity.
Qed.

Lemma tail_step_array method elems current st :
  tail_step rt parse method (JArr elems) current st
  = match current with
    | VNull => (Throws (NativeTypeError NullReceiver), st)
    | _ =>
        match get_member rt current (key_of rt (head elems)) ≫= callable rt with
        | None => (Throws (UnknownTailMethod (key_of rt (head elems)) method), st)
        | Some tailMethodFn =>
            (parsedTailParams <-
               match elems !! 1 with
               | Some params =>
                   if js_truthy rt params then parse params else ret (VArr [])
               | None => ret (VArr [])
               end ;;
             args <- apply_args rt parsedTailParams ;;
             lib_call tailMethodFn (Some current) args) st
        end
    end.
Proof.
  unfold tail_step, call_tail.
  destruct elems as [| name [| params rest]]; destruct current; try reflexivity;
    cbn [lookup list_lookup];
    match goal with
    | |- context [get_member rt ?c ?k ≫= callable rt] =>
        destruct (get_member rt c k ≫= callable rt); reflexivity
    end.
Qed.

Lemma two_steps {A B : Type} (f : A -> B -> M B) first second acc st b st1 c st2 :
  f first acc st = (Returns b, st1) ->
  f second b st1 = (Returns c, st2) ->
  foldM f [first; second] acc st = (Returns c, st2).
Proof. intros H1 H2. simpl. unfold bind. now rewrite H1, H2. Qed.


(** *** Plain records *)

Lemma set_prop_fresh {B : Type} (fields : list (string * B)) key v :
  key ∉ map fst fields -> set_prop fields key v = fields ++ [(key, v)].
Proof.
  induction fields as [| [k w] rest IH]; simpl; intros Hk; [reflexivity |].
  apply not_elem_of_cons in Hk as [Hne Hk].
  destruct (String.eqb k key) eqn:E.
  - apply String.eqb_eq in E. congruence.
  - now rewrite IH.
Qed.

Lemma resolved_fields_keys st props fields st' :
  resolved_fields rt root st props fields st' -> map fst fields = map fst props.
Proof. induction 1; simpl; [reflexivity | now f_equal]. Qed.

Lemma assign_ordinary (fields : list (string * Value)) key v st :
  ordinary_key key = true ->
  assign rt (VObj fields) key v st = (Returns (VObj (set_prop fields key v)), st).
Proof.
  unfold ordinary_key, assign. intros Hk.
  destruct (String.eqb key "__proto__"); [discriminate | reflexivity].
Qed.

Lemma record_loop props : forall (acc : list (string * Value)) st res st',
  NoDup (map fst acc ++ map fst props) ->
  Forall (fun kv => ordinary_key (fst kv) = true) props ->
  foldM (fun kv result => v <- parse (snd kv) ;; assign rt result (fst kv) v)
        props (VObj acc) st = (Returns res, st')
  <-> exists fields,
      res = VObj (acc ++ fields) /\ resolved_fields rt root st props fields st'.
Proof.
  induction props as [| [k j] rest IH]; intros acc st res st' Hnd Hord; simpl.
  - split.
    + intros [= <- <-]. exists []. split; [now rewrite app_nil_r | constructor].
    + intros (fields & -> & Hr). inversion Hr; subst. now rewrite app_nil_r.
  - assert (Hfresh : k ∉ map fst acc).
    { apply NoDup_app in Hnd as (_ & Hdis & _). intros Hin.
      apply (Hdis _ Hin). simpl. apply list_elem_of_here. }
    assert (Hnd' : NoDup ((map fst acc ++ [k]) ++ map fst rest)).
    { now rewrite <- app_assoc. }
    apply Forall_cons in Hord as [Hk Hord]. cbn [fst snd] in *.
    unfold bind at 1 2. destruct (parse j st) as [[v | e] st1] eqn:Ej.
    + rewrite (assign_ordinary _ _ _ _ Hk), (set_prop_fresh _ _ _ Hfresh).
      assert (Hnd1 : NoDup (map fst (acc ++ [(k, v)]) ++ map fst rest)).
      { rewrite map_app. exact Hnd'. }
      rewrite (IH _ _ _ _ Hnd1 Hord). split.
      * intros (fields & -> & Hr). exists ((k, v) :: fields).
        split; [now rewrite <- app_assoc | econstructor; eauto].
      * intros (fields & -> & Hr). inversion Hr; subst.
        match goal with
        | H1 : parse j st = _ |- _ => rewrite Ej in H1; inversion H1; subst
        end.
        eexists. split; [| eassumption]. now rewrite <- app_assoc.
    + split; [discriminate |].
      intros (fields & _ & Hr). inversion Hr; subst. congruence.
Qed.

Lemma record_prefix_is_object props : forall (acc : list (string * Value)) st res st',
  Forall (fun kv => ordinary_key (fst kv) = true) props ->
  foldM (fun kv result => v <- parse (snd kv) ;; assign rt result (fst kv) v)
        props (VObj acc) st = (Returns res, st') ->
  exists fields, res = VObj fields.
Proof.
  induction props as [| [k j] rest IH]; intros acc st res st' Hord; simpl.
  - intros [= <- _]. eauto.
  - apply Forall_cons in Hord as [Hk Hord]. cbn [fst snd] in *.
    unfold bind at 1 2. destruct (parse j st) as [[v | e] st1]; [| discriminate].
    rewrite (assign_ordinary _ _ _ _ Hk). apply IH, Hord.
Qed.

Lemma prop_without {B : Type} key name (before after : list (string * B)) v :
  key <> name ->
  prop key (before ++ (name, v) :: after) = prop key (before ++ after).
Proof.
  intros Hne. induction before as [| [k w] before IH]; simpl.
  - destruct (String.eqb name key) eqn:E; [| reflexivity].
    apply String.eqb_eq in E. congruence.
  - destruct (String.eqb k key); [reflexivity | exact IH].
Qed.

Lemma shape_without name (before after : list (string * Json)) v :
  name <> "_is" -> name <> "_schema" ->
  shape_of (before ++ (name, v) :: after) = shape_of (before ++ after).
Proof.
  intros H1 H2. unfold shape_of, has_tag.
  rewrite !(prop_without "_is") by congruence.
  now rewrite !(prop_without "_schema") by congruence.
Qed.

Lemma proto_key_is_dropped before value after st :
  Forall (fun kv => ordinary_key (fst kv) = true) before ->
  (forall items, value <> JArr items) ->
  (forall props, value <> JObj props) ->
  value <> JNull ->
  parse_record rt parse (before ++ ("__proto__", value) :: after) st
  = parse_record rt parse (before ++ after) st.
Proof.
  intros Hord Harr Hobj Hnull. unfold parse_record. rewrite !foldM_app.
  unfold bind.
  destruct (foldM _ before (VObj []) st) as [[res | e] st1] eqn:Eb; [| reflexivity].
  destruct (record_prefix_is_object _ _ _ _ _ Hord Eb) as [fields ->].
  destruct value as [| b | n | s | items | props]; try reflexivity.
  - now destruct Hnull.
  - now destruct (Harr items).
  - now destruct (Hobj props).
Qed.

Lemma proto_key_last before value (fields : list (string * Value)) st st1 v st' :
  NoDup (map fst before) ->
  Forall (fun kv => ordinary_key (fst kv) = true) before ->
  resolved_fields rt root st before fields st1 ->
  parse value st1 = (Returns v, st') ->
  parse_record rt parse (before ++ [("__proto__", value)]) st
  = (Returns
       match v with
       | VBool _ | VNum _ | VStr _ => VObj fields
       | _ => set_prototype rt fields v
       end,
     st').
Proof.
  intros Hnd Hord Hfields Hvalue. unfold parse_record. rewrite foldM_app.
  assert (Hbefore :
            foldM (fun kv result => x <- parse (snd kv) ;; assign rt result (fst kv) x)
                  before (VObj []) st
            = (Returns (VObj fields), st1)).
  { apply (record_loop before [] st (VObj fields) st1); [exact Hnd | exact Hord |].
    exists fields. split; [reflexivity | exact Hfields]. }
  unfold bind at 1. rewrite Hbefore. rewrite foldM_single.
  cbn [fst snd]. unfold bind. rewrite Hvalue. unfold assign.
  destruct v; reflexivity.
Qed.

(** C7.  A plain record, that is an object that is none of a reference, a
    function spec or a [ZodJson] node.  When its keys are ordinary
    property names, it resolves to a new object with the same keys in the
    same order, each value being what [parseNode] returns on the value of
    the input, the values taken in order: it returns when every value
    resolves, and only then.  A key [__proto__] is not kept: the
    assignment to the new object runs the setter of [Object.prototype].
    When such a key comes last and its value resolves, the result has the
    keys before it and no other: it is the object of these properties
    itself when the value resolved to a boolean, a number or a string, and
    otherwise that object with the resolved value as its prototype.  And a
    record in which the value under [__proto__] is a boolean, a number or a
    string, wherever the key stands, resolves as the record without that
    property. *)
Theorem plain_mapping_keeps_ordinary_keys props st :
  shape_of props = IsRecord ->
  (NoDup (map fst props) ->
   Forall (fun kv => ordinary_key (fst kv) = true) props ->
   (forall v st',
       parse (JObj props) st = (Returns v, st')
       <-> exists fields,
           v = VObj fields /\ resolved_fields rt root st props fields st')
   /\ (forall fields st',
         resolved_fields rt root st props fields st' ->
         map fst fields = map fst props))
  /\ (forall before value fields st1 v st',
        props = before ++ [("__proto__", value)] ->
        NoDup (map fst before) ->
        Forall (fun kv => ordinary_key (fst kv) = true) before ->
        resolved_fields rt root st before fields st1 ->
        parse value st1 = (Returns v, st') ->
        map fst fields = map fst before
        /\ parse (JObj props) st
           = (Returns
                match v with
                | VBool _ | VNum _ | VStr _ => VObj fields
                | _ => set_prototype rt fields v
                end,
              st'))
  /\ (forall before value after,
        props = before ++ ("__proto__", value) :: after ->
        Forall (fun kv => ordinary_key (fst kv) = true) before ->
        (forall items, value <> JArr items) ->
        (forall fields, value <> JObj fields) ->
        value <> JNull ->
        shape_of (before ++ after) = IsRecord
        /\ parse (JObj props) st = parse (JObj (before ++ after)) st).
Proof.
  intros Hshape. split; [| split].
  - intros Hnd Hord. split; [| intros fields st'; apply resolved_fields_keys].
    intros v st'. rewrite parse_object, Hshape. unfold parse_record.
    apply (record_loop props [] st v st'); assumption.
  - intros before value fields st1 v st' -> Hnd Hord Hfields Hvalue.
    split; [eapply resolved_fields_keys, Hfields |].
    rewrite parse_object, Hshape.
    now apply (proto_key_last before value fields st st1 v st').
  - intros before value after -> Hord Harr Hobj Hnull.
    assert (Hshape' : shape_of (before ++ after) = IsRecord).
    { rewrite <- Hshape. symmetry. apply shape_without; discriminate. }
    split; [exact Hshape' |].
    rewrite !parse_object, Hshape, Hshape'.
    now apply proto_key_is_dropped.
Qed.

(** *** Errors of the eager part *)

Lemma fails_throw {A : Type} e : fails (throw (Num:=Num) (L:=L) (A:=A) e).
Proof. intros st. now exists e, st. Qed.

Lemma fails_bind_first {A B : Type} (m : M A) (k : A -> M B) :
  fails m -> fails (bind m k).
Proof.
  intros Hm st. destruct (Hm st) as (e & st' & H).
  exists e, st'. now apply bind_throws.
Qed.

Lemma fails_bind_second {A B : Type} (m : M A) (k : A -> M B) :
  (forall a, fails (k a)) -> fails (bind m k).
Proof.
  intros Hk st. unfold bind. destruct (m st) as [[a | e] st1]; [apply Hk | eauto].
Qed.

Lemma fails_mapM {A B : Type} (f : A -> M B) l x :
  x ∈ l -> fails (f x) -> fails (mapM f l).
Proof.
  intros Hin Hx. induction l as [| y l IH]; [now apply elem_of_nil in Hin |].
  simpl. apply elem_of_cons in Hin as [<- | Hin].
  - now apply fails_bind_first.
  - apply fails_bind_second. intros b. apply fails_bind_first. now apply IH.
Qed.

Lemma fails_foldM {A B : Type} (f : A -> B -> M B) l x :
  x ∈ l -> (forall acc, fails (f x acc)) -> forall acc, fails (foldM f l acc).
Proof.
  intros Hin Hx. induction l as [| y l IH]; [now apply elem_of_nil in Hin |].
  intros acc. simpl. apply elem_of_cons in Hin as [<- | Hin].
  - apply fails_bind_first, Hx.
  - apply fails_bind_second. intros acc'. now apply IH.
Qed.

Lemma always_fails_truthy x : always_fails rt root x -> js_truthy rt x = true.
Proof.
  intros H. destruct x; try reflexivity;
    destruct (H initial_state) as (e & st' & Hx); discriminate.
Qed.

Lemma fails_tail_step method name p rest :
  always_fails rt root p ->
  forall schema, fails (tail_step rt parse method (JArr (name :: p :: rest)) schema).
Proof.
  intros Hp schema. unfold tail_step, call_tail.
  rewrite (always_fails_truthy _ Hp).
  assert (Hgo : fails
            match get_member rt schema (key_of rt (head (name :: p :: rest)))
                  ≫= callable rt with
            | Some tailMethodFn =>
                parsedTailParams <- parse p ;;
                args <- apply_args rt parsedTailParams ;;
                lib_call tailMethodFn (Some schema) args
            | None =>
                throw (UnknownTailMethod (key_of rt (head (name :: p :: rest))) method)
            end).
  { destruct (get_member rt schema _ ≫= callable rt); [| apply fails_throw].
    now apply fails_bind_first. }
  destruct schema; try exact Hgo. apply fails_throw.
Qed.

Lemma eager_child_fails x node :
  eager_child x node -> always_fails rt root x -> always_fails rt root node.
Proof.
  intros Hch Hx. unfold always_fails in *.
  destruct Hch as [x items Hin | k v props Hshape Hin | p props Hshape Hp
                  | name p rest items props Hshape Ht Hin].
  - rewrite parseNode_unfold. simpl. apply fails_bind_first.
    now apply fails_mapM with (x := x).
  - rewrite parse_object, Hshape. unfold parse_record.
    apply fails_foldM with (x := (k, v)); [exact Hin |].
    intros acc. simpl. now apply fails_bind_first.
  - rewrite parse_object, Hshape. unfold parse_zod_json.
    destruct (prop "method" props) as [[| | | method | |] |]; try apply fails_throw.
    destruct (get rt (z rt) method ≫= callable rt); [| apply fails_throw].
    apply fails_bind_first. rewrite prop_with_prop, Hp. simpl.
    now rewrite (always_fails_truthy _ Hx).
  - rewrite parse_object, Hshape. unfold parse_zod_json.
    destruct (prop "method" props) as [[| | | method | |] |]; try apply fails_throw.
    destruct (get rt (z rt) method ≫= callable rt); [| apply fails_throw].
    apply fails_bind_second. intros params.
    apply fails_bind_second. intros args.
    apply fails_bind_second. intros schema.
    rewrite (run_tail_array _ _ _ _ _ Ht).
    apply fails_foldM with (x := JArr (name :: p :: rest)); [exact Hin |].
    now apply fails_tail_step.
Qed.

Lemma eager_in_fails x node :
  eager_in x node -> always_fails rt root x -> always_fails rt root node.
Proof.
  unfold eager_in. induction 1 as [| x y node Hxy _ IH]; [auto |].
  intros Hx. apply IH. now apply eager_child_fails with (x := x).
Qed.

Lemma lazy_thunk_defined refId defs definition st :
  definitions root = Some defs ->
  prop refId defs = Some definition ->
  js_truthy rt definition = true ->
  lazy_thunk rt root refId st = parse definition st.
Proof. intros Hd Hp Ht. unfold lazy_thunk. now rewrite Hd, Hp, Ht. Qed.


End ResolverFacts.

(** C10.  [toZodJson] throws for every schema and never returns a
    document. *)
Theorem toZodJson_always_throws {Num L : Type} (schema : Value Num L) :
  toZodJson schema = inl NotImplemented.
Proof. reflexivity. Qed.

(* ================================================================= *)
(** ** The pattern of the function branch *)

Section RegexFacts.

Import Regex.

#[local] Abbreviation capture := (option (list ascii)).

(** The matcher finds only what the pattern means. *)
Lemma star_loop_sound {R : Type} (r : regex)
  (k : list ascii -> capture -> option R) :
  (forall s cap (k' : list ascii -> capture -> option R) x,
      run r s cap k' = Some x ->
      exists s' cap', matches r s cap s' cap' /\ k' s' cap' = Some x) ->
  forall fuel s cap x,
    star_loop (run r) k fuel s cap = Some x ->
    exists s' cap', matches (Star r) s cap s' cap' /\ k s' cap' = Some x.
Proof.
  intros Hbody. induction fuel as [| fuel IH]; intros s cap x; simpl.
  - intros Hk. exists s, cap. split; [constructor | exact Hk].
  - destruct (run r s cap _) as [y |] eqn:Erun.
    + intros [= ->]. apply Hbody in Erun as (s1 & cap1 & Hm & Hk1).
      destruct (length s1 <? length s) eqn:Elt; [| discriminate].
      apply Nat.ltb_lt in Elt.
      apply IH in Hk1 as (s' & cap' & Hstar & Hk).
      exists s', cap'. split; [| exact Hk]. eapply m_star_more; eauto.
    + intros Hk. exists s, cap. split; [constructor | exact Hk].
Qed.

Lemma run_sound {R : Type} (r : regex) :
  forall s cap (k : list ascii -> capture -> option R) x,
    run r s cap k = Some x ->
    exists s' cap', matches r s cap s' cap' /\ k s' cap' = Some x.
Proof.
  induction r as [| c | p | r1 IH1 r2 IH2 | r IH | r IH | r IH];
    intros s cap k x.
  - simpl. intros Hk. exists s, cap. split; [constructor | exact Hk].
  - simpl. destruct s as [| c' s]; [discriminate |].
    destruct (Ascii.eqb c' c) eqn:E; [| discriminate].
    apply Ascii.eqb_eq in E. subst. intros Hk.
    exists s, cap. split; [constructor | exact Hk].
  - simpl. destruct s as [| c' s]; [discriminate |].
    destruct (p c') eqn:E; [| discriminate]. intros Hk.
    exists s, cap. split; [now constructor | exact Hk].
  - simpl. intros H. apply IH1 in H as (s1 & cap1 & Hm1 & H).
    apply IH2 in H as (s2 & cap2 & Hm2 & Hk).
    exists s2, cap2. split; [econstructor; eauto | exact Hk].
  - simpl. destruct (run r s cap k) as [y |] eqn:E.
    + intros [= ->]. apply IH in E as (s' & cap' & Hm & Hk).
      exists s', cap'. split; [now constructor | exact Hk].
    + intros Hk. exists s, cap. split; [apply m_opt_skipped | exact Hk].
  - intros H. exact (star_loop_sound r k IH (S (length s)) s cap x H).
  - simpl. intros H. apply IH in H as (s' & cap' & Hm & Hk).
    exists s', (Some (consumed s s')). split; [eapply m_group, Hm | exact Hk].
Qed.

(** The matcher finds a match whenever the pattern has one that the
    continuation accepts. *)
Lemma run_complete r s cap s' cap' :
  matches r s cap s' cap' ->
  (forall (R : Type) (k : list ascii -> capture -> option R) x,
      k s' cap' = Some x -> is_Some (run r s cap k))
  /\ (forall r0, r = Star r0 ->
      forall (R : Type) (k : list ascii -> capture -> option R) x fuel,
        k s' cap' = Some x -> length s < fuel ->
        is_Some (star_loop (run r0) k fuel s cap)).
Proof.
  induction 1 as [s cap | c s cap | p c s cap Hp
                 | r1 r2 s cap s1 cap1 s2 cap2 _ [IH1 _] _ [IH2 _]
                 | r s cap s' cap' _ [IH _] | r s cap
                 | r s cap
                 | r s cap s1 cap1 s2 cap2 _ [IH1 _] Hlt _ [_ IH2]
                 | r s cap s' cap' _ [IH _]].
  - split; [| discriminate]. intros R k x Hk. simpl. eauto.
  - split; [| discriminate]. intros R k x Hk. simpl.
    rewrite Ascii.eqb_refl. eauto.
  - split; [| discriminate]. intros R k x Hk. simpl. rewrite Hp. eauto.
  - split; [| discriminate]. intros R k x Hk. simpl.
    destruct (IH2 R k x Hk) as [y Hy]. eapply IH1. exact Hy.
  - split; [| discriminate]. intros R k x Hk. simpl.
    destruct (IH R k x Hk) as [y ->]. eauto.
  - split; [| discriminate]. intros R k x Hk. simpl.
    destruct (run r s cap k); eauto.
  - assert (Hloop : forall (R : Type) (k : list ascii -> capture -> option R) x fuel,
               k s cap = Some x -> is_Some (star_loop (run r) k fuel s cap)).
    { intros R k x fuel Hk. destruct fuel as [| fuel]; simpl; [eauto |].
      destruct (run r s cap _); eauto. }
    split.
    + intros R k x Hk. exact (Hloop R k x (S (length s)) Hk).
    + intros r0 [= <-] R k x fuel Hk _. eapply Hloop, Hk.
  - assert (Hloop : forall (R : Type) (k : list ascii -> capture -> option R) x fuel,
               k s2 cap2 = Some x -> length s < fuel ->
               is_Some (star_loop (run r) k fuel s cap)).
    { intros R k x fuel Hk Hfuel. destruct fuel as [| fuel]; [lia |]. simpl.
      destruct (IH2 r eq_refl R k x fuel Hk) as [y Hy]; [lia |].
      destruct (IH1 R
                  (fun s' cap' =>
                     if length s' <? length s
                     then star_loop (run r) k fuel s' cap' else None) y) as [y' ->].
      - apply Nat.ltb_lt in Hlt. now rewrite Hlt.
      - eauto. }
    split.
    + intros R k x Hk. exact (Hloop R k x (S (length s)) Hk (Nat.lt_succ_diag_r _)).
    + intros r0 [= <-]. exact Hloop.
  - split; [| discriminate]. intros R k x Hk. simpl.
    eapply (IH R (fun s0 _ => k s0 (Some (consumed s s0)))). exact Hk.
Qed.

(** What each part of the pattern consumes. *)

Lemma matches_seq_iff r1 r2 s cap s2 cap2 :
  matches (Seq r1 r2) s cap s2 cap2
  <-> exists s1 cap1, matches r1 s cap s1 cap1 /\ matches r2 s1 cap1 s2 cap2.
Proof.
  split.
  - intros H. inversion H; subst. eauto.
  - intros (s1 & cap1 & H1 & H2). econstructor; eauto.
Qed.

Lemma matches_class_star p s cap s' cap' :
  matches (Star (Cls p)) s cap s' cap'
  <-> exists w, Forall (fun c => p c = true) w /\ s = w ++ s' /\ cap' = cap.
Proof.
  split.
  - intros H. remember (Star (Cls p)) as r eqn:Er.
    induction H as [| | | | | | r s cap
                   | r s cap s1 cap1 s2 cap2 Hbody _ _ _ IH |];
      inversion Er; subst.
    + exists []. auto.
    + destruct (IH eq_refl) as (w & Hw & -> & ->).
      inversion Hbody; subst. exists (c :: w). auto.
  - intros (w & Hw & -> & ->). induction Hw as [| c w Hc _ IH]; simpl.
    + constructor.
    + eapply m_star_more; [constructor; exact Hc | simpl; lia | exact IH].
Qed.

Lemma matches_blank s cap s' cap' :
  matches ws s cap s' cap' <-> exists w, blank w /\ s = w ++ s' /\ cap' = cap.
Proof. apply matches_class_star. Qed.

Lemma matches_str lit s cap s' cap' :
  matches (Str lit) s cap s' cap' <-> s = lit ++ s' /\ cap' = cap.
Proof.
  revert s. induction lit as [| c lit IH]; intros s; simpl.
  - split.
    + intros H. inversion H; subst. auto.
    + intros [-> ->]. constructor.
  - rewrite matches_seq_iff. split.
    + intros (s1 & cap1 & H1 & H2). inversion H1; subst.
      apply IH in H2 as [-> ->]. auto.
    + intros [-> ->]. eexists _, _. split; [constructor | now apply IH].
Qed.

Lemma matches_opt_chr c s cap s' cap' :
  matches (Opt (Chr c)) s cap s' cap'
  <-> exists x, optional_char c x /\ s = x ++ s' /\ cap' = cap.
Proof.
  split.
  - intros H. inversion H as [| | | | ? ? ? ? ? Hc | | | |]; subst.
    + inversion Hc; subst. exists [c]. unfold optional_char. auto.
    + exists []. unfold optional_char. auto.
  - intros (x & [-> | ->] & -> & ->); simpl.
    + apply m_opt_skipped.
    + apply m_opt_taken. constructor.
Qed.

Lemma matches_marker word s cap s' cap' :
  matches (marker word) s cap s' cap'
  <-> exists text, optional_marker word text /\ s = text ++ s' /\ cap' = cap.
Proof.
  unfold marker. split.
  - intros H. inversion H as [| | | | ? ? ? ? ? Hin | | | |]; subst.
    + apply matches_seq_iff in Hin as (s1 & cap1 & H1 & Hin).
      apply matches_seq_iff in Hin as (s2 & cap2 & H2 & H3).
      apply matches_blank in H1 as (w1 & Hw1 & -> & ->).
      apply matches_str in H2 as [-> ->].
      apply matches_blank in H3 as (w2 & Hw2 & -> & ->).
      exists (w1 ++ list_ascii_of_string word ++ w2). split; [| split].
      * right. exists w1, w2. auto.
      * now rewrite <- !app_assoc.
      * reflexivity.
    + exists []. split; [now left | auto].
  - intros (text & [-> | (w1 & w2 & Hw1 & Hw2 & ->)] & -> & ->).
    + apply m_opt_skipped.
    + apply m_opt_taken. rewrite <- !app_assoc.
      apply matches_seq_iff. eexists _, _. split.
      { apply matches_blank. eauto. }
      apply matches_seq_iff. eexists _, _. split.
      { apply matches_str. eauto. }
      apply matches_blank. eauto.
Qed.

Lemma consumed_app (nm rest : list ascii) : consumed (nm ++ rest) rest = nm.
Proof.
  unfold consumed. rewrite length_app.
  replace (length nm + length rest - length rest) with (length nm) by lia.
  apply take_app_length.
Qed.

Lemma matches_name s cap s' cap' :
  matches (Group (Plus (Cls is_ident))) s cap s' cap'
  <-> exists nm, simple_name nm /\ s = nm ++ s' /\ cap' = Some nm.
Proof.
  unfold Plus. split.
  - intros H. inversion H as [| | | | | | | | ? ? ? ? ? Hin]; subst.
    apply matches_seq_iff in Hin as (s1 & cap1 & H1 & H2).
    inversion H1; subst.
    apply matches_class_star in H2 as (w & Hw & -> & ->).
    exists (c :: w). split; [| split].
    + split; [discriminate | auto].
    + reflexivity.
    + f_equal. apply (consumed_app (c :: w)).
  - intros (nm & [Hne Hid] & -> & ->).
    destruct Hid as [| c w Hc Hw]; [contradiction |].
    rewrite <- (consumed_app (c :: w) s') at 2.
    apply m_group with (cap' := cap). simpl.
    apply matches_seq_iff. eexists _, _. split; [constructor; exact Hc |].
    apply matches_class_star. eauto.
Qed.

(** The whole pattern. *)
Lemma matches_arg_regex s s' cap' :
  matches arg_regex s None s' cap'
  <-> exists a f lp w1 nm w2 rp w3,
      s = a ++ f ++ lp ++ w1 ++ nm ++ w2 ++ rp ++ w3
            ++ list_ascii_of_string "=>" ++ s'
      /\ optional_marker "async" a
      /\ optional_marker "function" f
      /\ optional_char "("%char lp
      /\ blank w1
      /\ simple_name nm
      /\ blank w2
      /\ optional_char ")"%char rp
      /\ blank w3
      /\ cap' = Some nm.
Proof.
  unfold arg_regex. split.
  - intros H.
    apply matches_seq_iff in H as (s1 & c1 & H1 & H).
    apply matches_seq_iff in H as (s2 & c2 & H2 & H).
    apply matches_seq_iff in H as (s3 & c3 & H3 & H).
    apply matches_seq_iff in H as (s4 & c4 & H4 & H).
    apply matches_seq_iff in H as (s5 & c5 & H5 & H).
    apply matches_seq_iff in H as (s6 & c6 & H6 & H).
    apply matches_seq_iff in H as (s7 & c7 & H7 & H).
    apply matches_seq_iff in H as (s8 & c8 & H8 & H9).
    apply matches_marker in H1 as (a & Ha & -> & ->).
    apply matches_marker in H2 as (f & Hf & -> & ->).
    apply matches_opt_chr in H3 as (lp & Hlp & -> & ->).
    apply matches_blank in H4 as (w1 & Hw1 & -> & ->).
    apply matches_name in H5 as (nm & Hnm & -> & ->).
    apply matches_blank in H6 as (w2 & Hw2 & -> & ->).
    apply matches_opt_chr in H7 as (rp & Hrp & -> & ->).
    apply matches_blank in H8 as (w3 & Hw3 & -> & ->).
    apply matches_str in H9 as [-> ->].
    exists a, f, lp, w1, nm, w2, rp, w3. repeat (split; [assumption || reflexivity |]).
    reflexivity.
  - intros (a & f & lp & w1 & nm & w2 & rp & w3
            & -> & Ha & Hf & Hlp & Hw1 & Hnm & Hw2 & Hrp & Hw3 & ->).
    apply matches_seq_iff. eexists _, _. split; [apply matches_marker; eauto |].
    apply matches_seq_iff. eexists _, _. split; [apply matches_marker; eauto |].
    apply matches_seq_iff. eexists _, _. split; [apply matches_opt_chr; eauto |].
    apply matches_seq_iff. eexists _, _. split; [apply matches_blank; eauto |].
    apply matches_seq_iff. eexists _, _. split; [apply matches_name; eauto |].
    apply matches_seq_iff. eexists _, _. split; [apply matches_blank; eauto |].
    apply matches_seq_iff. eexists _, _. split; [apply matches_opt_chr; eauto |].
    apply matches_seq_iff. eexists _, _. split; [apply matches_blank; eauto |].
    apply matches_str. eauto.
Qed.

(** [arg_match] finds a leading parameter exactly when there is one. *)
Lemma arg_match_found code name :
  arg_match code = Some name -> leading_parameter code name.
Proof.
  unfold arg_match.
  destruct (run arg_regex _ None _) as [[nm |] |] eqn:E; try discriminate.
  intros [= <-]. apply run_sound in E as (s' & cap' & Hm & [= ->]).
  apply matches_arg_regex in Hm
    as (a & f & lp & w1 & nm' & w2 & rp & w3 & Hs & ? & ? & ? & ? & ? & ? & ? & ? & [= <-]).
  exists a, f, lp, w1, nm, w2, rp, w3, s'. repeat (split; [assumption || reflexivity |]).
  assumption.
Qed.

Lemma arg_match_none code :
  arg_match code = None -> forall name, ~ leading_parameter code name.
Proof.
  intros Hnone name
    (a & f & lp & w1 & nm & w2 & rp & w3 & rest
     & Hs & Ha & Hf & Hlp & Hw1 & Hnm & _ & Hw2 & Hrp & Hw3).
  assert (Hm : matches arg_regex (list_ascii_of_string code) None rest (Some nm)).
  { apply matches_arg_regex. exists a, f, lp, w1, nm, w2, rp, w3.
    repeat (split; [assumption || reflexivity |]). reflexivity. }
  destruct (proj1 (run_complete _ _ _ _ _ Hm) _ (fun _ cap => Some cap) (Some nm) eq_refl)
    as [y Hy].
  unfold arg_match in Hnone. rewrite Hy in Hnone.
  destruct y as [nm' |]; [discriminate |].
  apply run_sound in Hy as (s' & cap' & Hm' & [= ->]).
  apply matches_arg_regex in Hm'
    as (? & ? & ? & ? & ? & ? & ? & ? & _ & _ & _ & _ & _ & _ & _ & _ & _ & Hcap).
  discriminate.
Qed.

End RegexFacts.

Section FunctionBranch.

Context {Num L : Type}.
Variable rt : Runtime Num L.
Variable root : ZodJsonRoot Num.

(** C9.  The parameter name of the callable built from a function spec is
    read off the front of [code].  When [code] starts with a single simple
    parameter name, optionally in parentheses and optionally after an
    [async] and/or a [function] marker, followed by an arrow, the name the
    pattern captures is such a leading parameter of [code]; when [code] has
    no such start, nothing is captured.  The callable takes the captured
    name, or [data] when there is none, as its one parameter, and its body
    returns [code] applied to that parameter.  When the text does not
    compile, the branch throws [FunctionCompileError] with [code] and the
    reason, and the message of that error quotes [code]. *)
Theorem function_parameter_is_inferred :
  (forall code,
      match Regex.arg_match code with
      | Some name => Regex.leading_parameter code name
      | None => forall name, ~ Regex.leading_parameter code name
      end)
  /\ (forall props code st,
        shape_of props = IsFunction ->
        prop "code" props = Some (JStr code) ->
        parseNode rt root (JObj props) st
        = match
            new_Function rt
              (default "data" (Regex.arg_match code))
              ("return (" +:+ code +:+ ")("
               +:+ default "data" (Regex.arg_match code) +:+ ")")
          with
          | None =>
              (Returns
                 (VFunction
                    (default "data" (Regex.arg_match code))
                    ("return (" +:+ code +:+ ")("
                     +:+ default "data" (Regex.arg_match code) +:+ ")")),
               st)
          | Some reason => (Throws (FunctionCompileError code reason), st)
          end)
  /\ (forall code reason,
        error_message (FunctionCompileError code reason)
        = Some ("[json-zod] Failed to parse function code: "
                +:+ JsString.quoted code +:+ ". Error: " +:+ reason)).
Proof.
  split; [| split].
  - intros code. destruct (Regex.arg_match code) as [name |] eqn:E.
    + now apply arg_match_found.
    + now apply arg_match_none.
  - intros props code st Hshape Hcode.
    rewrite parse_object, Hshape. unfold parse_function. rewrite Hcode.
    destruct (Regex.arg_match code); simpl;
      destruct (new_Function rt _ _); reflexivity.
  - reflexivity.
Qed.

End FunctionBranch.

(* ================================================================= *)
(** ** The statements on the documents of the examples *)

Section Examples.

Import Toy.

(** The recursive category: the pass returns the lazy schema, one thunk
    run resolves the body, and the reference inside the body is the same
    lazy schema. *)
Example category_resolves :
  fromZodJson rt category = Returns (VLazy 0)
  /\ fst <$> force rt category 0 (session_of (snd (resolve_pass rt category)))
     = Some (Returns
               (VLib
                  (Built "object"
                     [VObj [("name", VLib (Built "string" []));
                            ("subcategories",
                             VLib (Built "array" [VLazy 0]))]]))).
Proof. split; vm_compute; reflexivity. Qed.

(** Three definitions in a cycle: three thunk runs, three lazy schemas. *)
Example cycle_resolves :
  fst <$> force_all rt cycle 3 (session_of cycle_state) = Some (Returns tt)
  /\ lazies cycle_state = [(OfString, "A")]
  /\ (lazies ∘ state ∘ snd) <$> force_all rt cycle 3 (session_of cycle_state)
     = Some [(OfString, "A"); (OfString, "B"); (OfString, "C")].
Proof. repeat split; vm_compute; reflexivity. Qed.

(** The number 5 and the string "5" name one definition and are two keys
    of the cache: each gets a lazy schema of its own, and the second
    reference to "5" gets the lazy schema of the first. *)
Example number_and_string_ids :
  fromZodJson rt number_and_string = Returns (VArr [VLazy 0; VLazy 1; VLazy 1])
  /\ lazies (snd (resolve_pass rt number_and_string))
     = [(OfNumber, "5"); (OfString, "5")].
Proof. split; vm_compute; reflexivity. Qed.

(** Reversing a tail of two different operations gives another schema. *)
Example reversed_tail_differs :
  fromZodJson rt min_then_max
  = Returns
      (VLib
         (Chained (VLib (Chained (VLib (Built "string" [])) "min" [VNum 3%Z]))
            "max" [VNum 10%Z]))
  /\ fromZodJson rt max_then_min
     = Returns
         (VLib
            (Chained (VLib (Chained (VLib (Built "string" [])) "max" [VNum 10%Z]))
               "min" [VNum 3%Z]))
  /\ fromZodJson rt min_then_max <> fromZodJson rt max_then_min.
Proof. repeat split; try (vm_compute; reflexivity). vm_compute. discriminate. Qed.

(** What the pattern captures on some texts. *)
Example captured_names :
  Regex.arg_match "val => val.toUpperCase()" = Some "val"
  /\ Regex.arg_match "(x) => x" = Some "x"
  /\ Regex.arg_match "async (item) => item" = Some "item"
  /\ Regex.arg_match "  async   function ( $a1 )  => 1" = Some "$a1"
  /\ Regex.arg_match "async => 1" = Some "async"
  /\ Regex.arg_match "(a, b) => a" = None
  /\ Regex.arg_match "function (x) { return x }" = None.
Proof. repeat split; vm_compute; reflexivity. Qed.

Example function_spec_compiles :
  fromZodJson rt {| definitions := None; schema := fn "val => val.toUpperCase()" |}
  = Returns (VFunction "val" "return (val => val.toUpperCase())(val)")
  /\ fromZodJson rt {| definitions := None; schema := fn "(a, b) => a" |}
     = Returns (VFunction "data" "return ((a, b) => a)(data)")
  /\ fromZodJson rt {| definitions := None; schema := fn "val => val.toUpperCase(" |}
     = Throws (FunctionCompileError "val => val.toUpperCase(" "Unexpected end of input").
Proof. repeat split; vm_compute; reflexivity. Qed.


(** The empty string is a string: the node is not rejected as an invalid
    method, it fails at the lookup. *)
Lemma empty_method_is_unknown :
  fromZodJson rt empty_method = Throws (UnknownMethod "").
Proof. vm_compute. reflexivity. Qed.



Lemma non_string_method_is_invalid_witness :
  shape_of numeric_method_props = IsZodJson
  /\ parseNode rt no_definitions (JObj numeric_method_props) initial_state
     = (Throws (InvalidMethod "number"), initial_state).
Proof.
  split; [reflexivity |].
  exact (non_string_method_is_invalid rt no_definitions numeric_method_props
           initial_state eq_refl).
Defined.

Lemma one_lazy_schema_per_id_witness :
  primitive_ids body_of_A = true
  /\ cache_inv rt cycle cycle_state
  /\ definitionCache cycle_state !! (OfString, "A") = Some (VLazy 0)
  /\ NoDup (lazies (snd (parseNode rt cycle body_of_A cycle_state)))
  /\ parseNode rt cycle (JObj ref_A_props) (snd (parseNode rt cycle body_of_A cycle_state))
     = (Returns (VLazy 0), snd (parseNode rt cycle body_of_A cycle_state)).
Proof.
  assert (Hinv : cache_inv rt cycle cycle_state).
  { apply (resolve_pass_inv rt cycle). }
  assert (Hcached : definitionCache cycle_state !! (OfString, "A") = Some (VLazy 0)).
  { vm_compute. reflexivity. }
  destruct (one_lazy_schema_per_id rt cycle body_of_A cycle_state
              (fst (parseNode rt cycle body_of_A cycle_state))
              (snd (parseNode rt cycle body_of_A cycle_state))
              eq_refl Hinv (surjective_pairing _))
    as (_ & _ & Hnd & _ & _ & Hhit & _).
  split; [reflexivity |]. split; [exact Hinv |]. split; [exact Hcached |].
  split; [exact Hnd |].
  apply Hhit; [reflexivity | reflexivity | exact Hcached].
Defined.

Lemma plain_mapping_keeps_ordinary_keys_witness :
  shape_of proto_record = IsRecord
  /\ parseNode rt no_definitions (JObj proto_record) initial_state
     = (Returns
          (VLib (Reparented (VLib (Built "number" []))
                   [("a", VLib (Built "string" []))])),
        initial_state)
  /\ shape_of shape_props = IsRecord
  /\ exists fields,
      parseNode rt no_definitions (JObj shape_props) initial_state
      = (Returns (VObj fields), initial_state)
      /\ map fst fields = ["zeta"; "alpha"; "mid"].
Proof.
  destruct (plain_mapping_keeps_ordinary_keys rt no_definitions proto_record
              initial_state eq_refl) as (_ & Hlast & _).
  destruct (Hlast [("a", node "string" [])] (node "number" [])
              [("a", VLib (Built "string" []))] initial_state
              (VLib (Built "number" [])) initial_state eq_refl)
    as [_ Hproto].
  { apply (bool_decide_unpack _). vm_compute. exact I. }
  { repeat constructor. }
  { eapply resolved_cons; [vm_compute; reflexivity | constructor]. }
  { vm_compute. reflexivity. }
  assert (Hnd : NoDup (map fst shape_props)).
  { apply (bool_decide_unpack _). vm_compute. exact I. }
  assert (Hord : Forall (fun kv => ordinary_key (fst kv) = true) shape_props).
  { repeat constructor. }
  destruct (plain_mapping_keeps_ordinary_keys rt no_definitions shape_props
              initial_state eq_refl) as [Hkept _].
  destruct (Hkept Hnd Hord) as [Hiff Hkeys].
  split; [reflexivity |]. split; [exact Hproto |].
  split; [reflexivity |].
  destruct (proj1 (Hiff (VObj [("zeta", VLib (Built "string" []));
                               ("alpha", VNum 1%Z); ("mid", VNull)])
                     initial_state) eq_refl)
    as (fields & Hv & Hr).
  exists fields. split.
  - apply (proj2 (Hiff (VObj fields) initial_state)). eauto.
  - apply (Hkeys fields initial_state Hr).
Defined.



Lemma function_parameter_is_inferred_witness :
  Regex.leading_parameter "val => val.toUpperCase()" "val"
  /\ forall name, ~ Regex.leading_parameter "(a, b) => a" name.
Proof.
  split.
  - exact (proj1 (function_parameter_is_inferred rt no_definitions)
             "val => val.toUpperCase()").
  - exact (proj1 (function_parameter_is_inferred rt no_definitions) "(a, b) => a").
Defined.

End Examples.

(* ================================================================= *)
(** * Further properties of the code *)

Section MoreResolverFacts.

Context {Num L : Type}.
Variable rt : Runtime Num L.
Variable root : ZodJsonRoot Num.

#[local] Abbreviation Json := (Json Num).
#[local] Abbreviation Value := (Value Num L).
#[local] Abbreviation State := (State Num L).
#[local] Abbreviation M := (M Num L).
#[local] Abbreviation parse := (parseNode rt root).

(** *** Dotted paths *)

Lemma split_on_nonempty sep s : JsString.split_on sep s <> [].
Proof.
  destruct s as [| c s]; simpl; [discriminate |].
  destruct (Ascii.eqb c sep); [discriminate |].
  destruct (JsString.split_on sep s); discriminate.
Qed.

Lemma split_dot_app p q :
  JsString.split_dot (p +:+ "." +:+ q) = JsString.split_dot p ++ JsString.split_dot q.
Proof.
  unfold JsString.split_dot. induction p as [| c p IH]; simpl; [reflexivity |].
  destruct (Ascii.eqb c ".") eqn:E.
  - simpl in IH. now rewrite IH.
  - simpl in IH. rewrite IH.
    pose proof (split_on_nonempty "." p) as Hne.
    destruct (JsString.split_on "." p) as [| seg segs]; [contradiction | reflexivity].
Qed.

Lemma split_dot_plain name :
  "."%char ∉ list_ascii_of_string name -> JsString.split_dot name = [name].
Proof.
  unfold JsString.split_dot. induction name as [| c name IH]; simpl; [reflexivity |].
  intros Hc. apply not_elem_of_cons in Hc as [Hne Hc].
  destruct (Ascii.eqb c ".") eqn:E.
  - apply Ascii.eqb_eq in E. congruence.
  - now rewrite (IH Hc).
Qed.

Lemma walk_from_undefined (parts : list string) :
  fold_left
    (fun acc part =>
       match acc with
       | Some o => get_member rt (VLib o) part
       | None => None
       end) parts None = None.
Proof. induction parts; simpl; auto. Qed.

(** X1.  [get] walks a dotted path one segment after the other: looking
    up [p.q] is looking up [p] and then [q] on what was found, and is
    [undefined] as soon as [p] is; a name without a dot is one read of a
    member. *)
Theorem get_walks_the_path (obj : L) :
  (forall p q,
      get rt obj (p +:+ "." +:+ q) = get rt obj p ≫= (fun o => get rt o q))
  /\ (forall p q, get rt obj p = None -> get rt obj (p +:+ "." +:+ q) = None)
  /\ (forall name,
        "."%char ∉ list_ascii_of_string name ->
        get rt obj name = get_member rt (VLib obj) name).
Proof.
  assert (Hcomp : forall p q,
             get rt obj (p +:+ "." +:+ q) = get rt obj p ≫= (fun o => get rt o q)).
  { intros p q. unfold get. rewrite split_dot_app, fold_left_app.
    destruct (fold_left _ (JsString.split_dot p) (Some obj)) as [o |]; simpl.
    - reflexivity.
    - apply walk_from_undefined. }
  split; [exact Hcomp |]. split.
  - intros p q Hp. now rewrite Hcomp, Hp.
  - intros name Hname. unfold get. now rewrite (split_dot_plain _ Hname).
Qed.

(** *** Arrays *)

Lemma mapM_resolved items : forall st vs st',
  mapM parse items st = (Returns vs, st') <-> resolved_items rt root st items vs st'.
Proof.
  induction items as [| x items IH]; intros st vs st'; simpl.
  - split.
    + intros [= <- <-]. constructor.
    + intros H. inversion H; subst. reflexivity.
  - unfold bind at 1. destruct (parse x st) as [[v | e] st1] eqn:Ex.
    + unfold bind at 1. destruct (mapM parse items st1) as [[ws | e] st2] eqn:Em.
      * split.
        -- intros [= <- <-]. econstructor; [exact Ex | now apply IH].
        -- intros H. inversion H; subst.
           match goal with
           | H1 : parse x st = _, H2 : resolved_items _ _ _ _ _ _ |- _ =>
               rewrite Ex in H1; inversion H1; subst;
               apply IH in H2; rewrite Em in H2; now inversion H2
           end.
      * split; [discriminate |].
        intros H. inversion H; subst.
        match goal with
        | H1 : parse x st = _, H2 : resolved_items _ _ _ _ _ _ |- _ =>
            rewrite Ex in H1; inversion H1; subst;
            apply IH in H2; rewrite Em in H2; discriminate
        end.
    + split; [discriminate |].
      intros H. inversion H; subst. congruence.
Qed.

Lemma resolved_items_length st items vs st' :
  resolved_items rt root st items vs st' -> length vs = length items.
Proof. induction 1; simpl; congruence. Qed.

Lemma mapM_stops pre x post : forall st vs st1 e st2,
  resolved_items rt root st pre vs st1 ->
  parse x st1 = (Throws e, st2) ->
  mapM parse (pre ++ x :: post) st = (Throws e, st2).
Proof.
  induction pre as [| y pre IH]; intros st vs st1 e st2 Hpre Hx; simpl.
  - inversion Hpre; subst. unfold bind. now rewrite Hx.
  - inversion Hpre; subst. unfold bind at 1.
    match goal with H : parse y st = _ |- _ => rewrite H end.
    unfold bind at 1. erewrite IH; eauto.
Qed.

(** X2.  An array resolves element by element, in order.  It returns
    exactly when every element resolves, each in the state the one before
    it left, and then returns an array of as many values; when an element
    throws after the ones before it have resolved, the array throws that
    error in the state of that moment, so the elements after it are not
    looked at. *)
Theorem array_resolves_in_order items st :
  (forall v st',
      parse (JArr items) st = (Returns v, st')
      <-> exists vs, v = VArr vs /\ resolved_items rt root st items vs st')
  /\ (forall vs st',
        resolved_items rt root st items vs st' -> length vs = length items)
  /\ (forall pre x post vs st1 e st2,
        items = pre ++ x :: post ->
        resolved_items rt root st pre vs st1 ->
        parse x st1 = (Throws e, st2) ->
        parse (JArr items) st = (Throws e, st2)).
Proof.
  split; [| split].
  - intros v st'. rewrite parseNode_unfold. simpl. unfold bind.
    destruct (mapM parse items st) as [[vs | e] st1] eqn:Em.
    + apply mapM_resolved in Em. split.
      * intros [= <- <-]. eauto.
      * intros (ws & -> & Hw). apply mapM_resolved in Hw.
        apply mapM_resolved in Em. rewrite Em in Hw. now inversion Hw.
    + split; [discriminate |].
      intros (ws & -> & Hw). apply mapM_resolved in Hw. congruence.
  - intros vs st'. apply resolved_items_length.
  - intros pre x post vs st1 e st2 -> Hpre Hx.
    rewrite parseNode_unfold. simpl. unfold bind.
    now rewrite (mapM_stops _ _ _ _ _ _ _ _ Hpre Hx).
Qed.

(** *** The thunk of a lazy schema *)

(** X3.  The two checks at the head of the thunk never fire for a lazy
    schema of a document whose reference ids are not arrays or objects.
    Take the state [fromZodJson] leaves, or any
    session reached from it by forcing lazy schemas: for every lazy schema
    in it, [definitions] is there, and the read [root.definitions[refId]]
    of its thunk finds something truthy, whatever the state the thunk is
    run in.  What it finds is an own property of [definitions], and the
    thunk is [parseNode] on that definition, or, when [definitions] has no
    such key, a member inherited from [Object.prototype], and the thunk
    returns that member unresolved. *)
Theorem thunk_checks_never_fire (ss : Session Num L) h key :
  root_primitive_ids root = true ->
  (ss = session_of (snd (resolve_pass rt root))
   \/ exists fuel u,
        force_all rt root fuel (session_of (snd (resolve_pass rt root)))
        = Some (u, ss)) ->
  lazies (state ss) !! h = Some key ->
  exists defs,
    definitions root = Some defs
    /\ match prop (snd key) defs with
       | Some definition =>
           js_truthy rt definition = true
           /\ forall st', lazy_thunk rt root (snd key) st' = parse definition st'
       | None =>
           inherited_name (snd key) = true
           /\ forall st',
               lazy_thunk rt root (snd key) st'
               = (Returns
                    (if String.eqb (snd key) "__proto__" then VObj []
                     else VLib (inherited rt (snd key))),
                  st')
       end.
Proof.
  intros _ Hreached Hl.
  assert (Hinv : session_inv rt root ss).
  { destruct Hreached as [-> | (fuel & u & Hforce)].
    - apply resolve_pass_inv.
    - apply (force_all_inv rt root fuel _ u ss (resolve_pass_inv rt root) Hforce). }
  destruct Hinv as [[_ Hids] _].
  assert (Hdef : has_definition rt root (snd key) = true).
  { apply Hids. eapply list_elem_of_lookup_2, Hl. }
  unfold has_definition in Hdef.
  destruct (definitions root) as [defs |] eqn:Ed; [| discriminate].
  exists defs. split; [reflexivity |].
  destruct (prop (snd key) defs) as [definition |] eqn:Ep.
  - split; [exact Hdef |]. intros st'.
    now apply lazy_thunk_defined with (defs := defs).
  - split; [exact Hdef |]. intros st'. unfold lazy_thunk, parse_inherited.
    rewrite Ed, Ep, Hdef.
    destruct (String.eqb (snd key) "__proto__"); reflexivity.
Qed.

(** *** A tail entry that the schema does not have *)

Lemma foldM_stops {A B : Type} (f : A -> B -> M B) pre x post :
  forall acc st current st1 e st2,
    foldM f pre acc st = (Returns current, st1) ->
    f x current st1 = (Throws e, st2) ->
    foldM f (pre ++ x :: post) acc st = (Throws e, st2).
Proof.
  intros acc st current st1 e st2 Hpre Hx.
  rewrite foldM_app. unfold bind at 1. rewrite Hpre. simpl.
  unfold bind. now rewrite Hx.
Qed.

(** X4.  A tail entry whose name is not a function on the current schema
    stops the chain.  When the entries before it have returned a schema
    and that schema has no callable member of the entry's name, the loop
    throws [UnknownTailMethod] with that name and the method of the node,
    in the state the entries before it left: the parameters of the entry
    are not resolved and the entries after it are not run.  The message
    names both the chained method and the base method. *)
Theorem unknown_tail_method_stops_the_chain
  method before name rest after schema st current st1 :
  foldM (tail_step rt parse method) before schema st = (Returns current, st1) ->
  current <> VNull ->
  get_member rt current name ≫= callable rt = None ->
  foldM (tail_step rt parse method)
        (before ++ JArr (JStr name :: rest) :: after) schema st
  = (Throws (UnknownTailMethod name method), st1)
  /\ error_message (UnknownTailMethod name method)
     = Some ("[json-zod] Unknown Zod tail method: "
             +:+ JsString.quoted ("." +:+ name +:+ "()")
             +:+ " on " +:+ JsString.quoted ("z." +:+ method)).
Proof.
  intros Hbefore Hnn Hnone. split; [| reflexivity].
  eapply foldM_stops; [exact Hbefore |].
  unfold tail_step, call_tail. simpl. rewrite Hnone.
  destruct current; try reflexivity. now destruct Hnn.
Qed.

(** *** Computations that leave the cache alone *)

Lemma confined_ret {A : Type} allowed (a : A) :
  confined allowed (ret (Num:=Num) (L:=L) a).
Proof. intros st r st' [= <- <-]. auto. Qed.

Lemma confined_throw {A : Type} (allowed : ResolutionError -> Prop) e :
  allowed e -> confined allowed (throw (Num:=Num) (L:=L) (A:=A) e).
Proof. intros He st r st' [= <- <-]. auto. Qed.

Lemma confined_bind_dep {A B : Type} allowed (m : M A) (k : A -> M B) :
  confined allowed m ->
  (forall a, (exists st st', m st = (Returns a, st')) -> confined allowed (k a)) ->
  confined allowed (bind m k).
Proof.
  intros Hm Hk st r st' H.
  destruct (bind_inv _ _ _ _ _ H) as [(a & st1 & H1 & H2) | (e & H1 & ->)].
  - destruct (Hm _ _ _ H1) as [-> _]. eapply Hk; eauto.
  - destruct (Hm _ _ _ H1) as [-> He]. auto.
Qed.

Lemma confined_bind {A B : Type} allowed (m : M A) (k : A -> M B) :
  confined allowed m -> (forall a, confined allowed (k a)) ->
  confined allowed (bind m k).
Proof. intros Hm Hk. apply confined_bind_dep; auto. Qed.

Lemma confined_mapM {A B : Type} allowed (f : A -> M B) l :
  Forall (fun x => confined allowed (f x)) l -> confined allowed (mapM f l).
Proof.
  induction 1 as [| x l Hx _ IH]; simpl; [apply confined_ret |].
  apply confined_bind; [exact Hx |]. intros y.
  apply confined_bind; [exact IH |]. intros ys. apply confined_ret.
Qed.

Lemma confined_foldM {A B : Type} allowed (f : A -> B -> M B) l :
  Forall (fun x => forall acc, confined allowed (f x acc)) l ->
  forall acc, confined allowed (foldM f l acc).
Proof.
  induction 1 as [| x l Hx _ IH]; simpl; intros acc; [apply confined_ret |].
  apply confined_bind; [apply Hx | exact IH].
Qed.

Lemma confined_lib_call allowed
  (fn : option Value -> list Value -> string + Value) this args :
  (forall message, allowed (LibraryError message)) ->
  confined allowed (lib_call fn this args).
Proof.
  intros Hl. unfold lib_call.
  destruct (fn this args); [now apply confined_throw | apply confined_ret].
Qed.

Lemma confined_assign allowed result key v :
  (forall message, allowed (LibraryError message)) ->
  confined allowed (assign rt result key v).
Proof.
  intros Hl. unfold assign. destruct result;
    try (destruct (host_assign rt _ key v); [now apply confined_throw | apply confined_ret]).
  destruct (String.eqb key "__proto__"); [| apply confined_ret].
  destruct v; apply confined_ret.
Qed.

Lemma confined_call_tail allowed method name parseParams schema :
  (forall message, allowed (LibraryError message)) ->
  allowed (UnknownTailMethod name method) ->
  allowed (NativeTypeError NullReceiver) ->
  confined allowed
    (parsedTailParams <- parseParams ;; apply_args rt parsedTailParams) ->
  confined allowed (call_tail rt method name parseParams schema).
Proof.
  intros Hl Hu Hn Hp. unfold call_tail.
  assert (Hgo : confined allowed
            match get_member rt schema name ≫= callable rt with
            | Some tailMethodFn =>
                parsedTailParams <- parseParams ;;
                args <- apply_args rt parsedTailParams ;;
                lib_call tailMethodFn (Some schema) args
            | None => throw (UnknownTailMethod name method)
            end).
  { destruct (get_member rt schema name ≫= callable rt) as [fn |];
      [| now apply confined_throw].
    intros st r st' H.
    assert (H' : (args <- (parsedTailParams <- parseParams ;;
                           apply_args rt parsedTailParams) ;;
                  lib_call fn (Some schema) args) st = (r, st')).
    { rewrite <- H. unfold bind. destruct (parseParams st) as [[v | e] s1]; reflexivity. }
    revert H'. apply confined_bind; [exact Hp |].
    intros args. now apply confined_lib_call. }
  destruct schema; try exact Hgo. now apply confined_throw.
Qed.

(** *** Documents without references *)

Lemma inside_trans (a b c : Json) : inside a b -> inside b c -> inside a c.
Proof.
  intros Hab Hbc. induction Hbc as [b c Hch | b c' c Hbc' IH Hch].
  - exact (inside_deeper a b c Hab Hch).
  - exact (inside_deeper a c' c (IH Hab) Hch).
Qed.

Lemma reference_free_inside (c node : Json) :
  reference_free node -> inside c node -> reference_free c.
Proof.
  intros Hfree Hin c' props [-> | Hc'] Heq.
  - eapply Hfree; eauto.
  - eapply Hfree; [right; eapply inside_trans; eauto | exact Heq].
Qed.

#[local] Abbreviation anything := (fun _ : ResolutionError => True).

Lemma stateless_spread params : confined anything (spread rt params).
Proof.
  unfold spread.
  destruct params; try (now apply confined_throw); try apply confined_ret;
    destruct (iterate rt _); (now apply confined_throw) || apply confined_ret.
Qed.

Lemma stateless_apply_args args : confined anything (apply_args rt args).
Proof.
  unfold apply_args.
  destruct args; (now apply confined_throw) || apply confined_ret.
Qed.

Lemma stateless_tail_step (f : Json -> M Value) method item schema :
  (forall elems, item = JArr elems ->
                 forall p, p ∈ elems -> confined anything (f p)) ->
  confined anything (tail_step rt f method item schema).
Proof.
  intros Hf. unfold tail_step. destruct item; try (now apply confined_throw).
  - apply confined_call_tail; auto.
    apply confined_bind; [| intros; apply stateless_apply_args].
    destruct (JsString.chars s) as [| ? [| ? ?]]; apply confined_ret.
  - apply confined_call_tail; auto.
    apply confined_bind; [| intros; apply stateless_apply_args].
    destruct items as [| name [| p rest]]; try apply confined_ret.
    destruct (js_truthy rt p); [| apply confined_ret].
    apply (Hf _ eq_refl). apply list_elem_of_further, list_elem_of_here.
Qed.

(** X5.  A document that holds no reference is resolved without the
    cache: whatever such a document is, well typed or not, and whether
    [parseNode] returns or throws on it, the cache and the lazy schemas are
    afterwards what they were before. *)
Theorem no_reference_no_cache_change node :
  reference_free node ->
  forall st r st', parse node st = (r, st') -> st' = st.
Proof.
  intros Hfree.
  enough (H : confined anything (parse node)).
  { intros st r st' Hrun. now destruct (H _ _ _ Hrun). }
  revert Hfree. induction node as [node IH] using Json_deep_ind. intros Hfree.
  assert (IH' : forall c, inside c node -> confined anything (parse c)).
  { intros c Hc. apply IH; [exact Hc |]. eapply reference_free_inside; eauto. }
  rewrite parseNode_unfold.
  destruct node as [| b | n | s | items | props]; simpl; try apply confined_ret.
  - apply confined_bind; [| intros; apply confined_ret].
    apply confined_mapM, Forall_forall. intros x Hx.
    apply IH', inside_child, child_item, Hx.
  - rewrite (Hfree (JObj props) props (or_introl eq_refl) eq_refl).
    destruct (has_tag "_is" "function" props).
    { unfold parse_function.
      destruct (prop "code" props) as [[] |]; try (now apply confined_throw).
      destruct (new_Function rt _ _); [now apply confined_throw | apply confined_ret]. }
    destruct (has_tag "_schema" "json-zod" props).
    + unfold parse_zod_json.
      destruct (prop "method" props) as [[| | | method | |] |];
        try (now apply confined_throw).
      destruct (get rt (z rt) method ≫= callable rt) as [methodFn |];
        [| now apply confined_throw].
      apply confined_bind.
      { rewrite prop_with_prop.
        destruct (prop "params" props) as [p |] eqn:Hp; simpl; [| apply confined_ret].
        destruct (js_truthy rt p); [| apply confined_ret].
        apply IH', inside_child. eapply child_value, prop_elem_of, Hp. }
      intros params. apply confined_bind; [apply stateless_spread |]. intros args.
      apply confined_bind; [now apply confined_lib_call |]. intros schema.
      unfold run_tail. rewrite prop_with_prop.
      destruct (prop "tail" props) as [tail |] eqn:Ht; simpl; [| apply confined_ret].
      destruct tail; try apply confined_ret.
      apply confined_foldM, Forall_forall. intros item Hitem acc.
      apply stateless_tail_step. intros elems -> p Hp.
      apply IH'. eapply inside_deeper; [eapply inside_deeper |].
      * apply inside_child, child_item, Hp.
      * apply child_item, Hitem.
      * eapply child_value, prop_elem_of, Ht.
    + unfold parse_record.
      apply confined_foldM, Forall_forall. intros [k v] Hkv acc. simpl.
      apply confined_bind; [| intros; now apply confined_assign].
      apply IH', inside_child. eapply child_value, Hkv.
Qed.

(** *** Typed documents *)

Lemma parse_array_value items st v st' :
  parse (JArr items) st = (Returns v, st') -> exists vs, v = VArr vs.
Proof.
  rewrite parseNode_unfold. simpl. unfold bind.
  destruct (mapM parse items st) as [[vs | e] st1]; [| discriminate].
  intros [= <- _]. eauto.
Qed.

Lemma typed_params_confined {B : Type} (k : Value -> M B) (params : list Json) :
  confined from_library (parse (JArr params)) ->
  (forall vs, confined from_library (k (VArr vs))) ->
  confined from_library (resolved <- parse (JArr params) ;; k resolved).
Proof.
  intros Hp Hk. apply confined_bind_dep; [exact Hp |].
  intros a (st & st' & Ha). apply parse_array_value in Ha as [vs ->]. apply Hk.
Qed.

Lemma typed_entry_confined method entry schema :
  typed_entry typed_document entry ->
  (forall name params, entry = JArr [JStr name; JArr params] ->
                       confined from_library (parse (JArr params))) ->
  confined from_library (tail_step rt parse method entry schema).
Proof.
  intros Hentry Hparams. destruct Hentry as [name | name params Hps];
    unfold tail_step; simpl.
  - apply confined_call_tail; simpl; auto.
    apply confined_bind_dep; [apply confined_ret |].
    intros a (st & st' & [= <- _]). apply confined_ret.
  - apply confined_call_tail; simpl; auto.
    apply typed_params_confined; [now apply (Hparams name) |].
    intros vs. apply confined_ret.
Qed.

(** Resolving a typed document is confined to the failures of the
    library. *)
Lemma typed_document_confined node :
  typed_document node -> confined from_library (parse node).
Proof.
  induction node as [node IH] using Json_deep_ind. intros Htyped.
  destruct Htyped as [| b | n | s | items Hitems
                     | props method Hshape Hm Hparams Htail
                     | props Hshape Hvalues].
  1-4: (rewrite parseNode_unfold; apply confined_ret).
  - rewrite parseNode_unfold. simpl.
    apply confined_bind; [| intros; apply confined_ret].
    apply confined_mapM, Forall_forall. intros x Hx.
    apply IH; [apply inside_child, child_item, Hx |].
    rewrite Forall_forall in Hitems. now apply Hitems.
  - rewrite parse_object, Hshape. unfold parse_zod_json. rewrite Hm.
    destruct (get rt (z rt) method ≫= callable rt) as [methodFn |];
      [| now apply confined_throw].
    assert (Hrest : forall vs,
               confined from_library
                 (args <- spread rt (VArr vs) ;;
                  schema <- lib_call methodFn None args ;;
                  run_tail rt parse method props schema)).
    { intros vs. simpl. apply confined_bind; [apply confined_ret |]. intros args.
      apply confined_bind; [now apply confined_lib_call |]. intros schema.
      unfold run_tail. rewrite prop_with_prop.
      destruct Htail as [-> | (entries & Ht & Hentries)]; simpl;
        [apply confined_ret |].
      rewrite Ht. simpl.
      apply confined_foldM, Forall_forall. intros entry Hentry acc.
      rewrite Forall_forall in Hentries.
      apply typed_entry_confined; [now apply Hentries |].
      intros name params Heq.
      assert (Hin : inside (JArr params) (JObj props)).
      { eapply inside_deeper; [eapply inside_deeper |].
        - apply inside_child.
          apply (child_item (JArr params) [JStr name; JArr params]).
          apply list_elem_of_further, list_elem_of_here.
        - rewrite <- Heq. apply child_item, Hentry.
        - eapply child_value, prop_elem_of, Ht. }
      apply IH; [exact Hin |]. apply typed_array.
      specialize (Hentries _ Hentry). rewrite Heq in Hentries.
      inversion Hentries; subst. assumption. }
    rewrite prop_with_prop.
    destruct Hparams as [-> | (params & Hp & Hps)]; simpl.
    + apply confined_bind_dep; [apply confined_ret |].
      intros a (st & st' & [= <- _]). apply Hrest.
    + rewrite Hp. simpl. apply typed_params_confined; [| exact Hrest].
      apply IH; [| now apply typed_array].
      apply inside_child. eapply child_value, prop_elem_of, Hp.
  - rewrite parse_object, Hshape. unfold parse_record.
    apply confined_foldM, Forall_forall. intros [k v] Hkv acc. simpl.
    apply confined_bind; [| intros; now apply confined_assign].
    apply IH; [apply inside_child; eapply child_value, Hkv |].
    rewrite Forall_forall in Hvalues. now apply (Hvalues (k, v)).
Qed.


End MoreResolverFacts.

(* ================================================================= *)
(** ** Properties and the assignment of a property *)

Section Properties.

Context {B : Type}.

Lemma prop_set_prop_eq (props : list (string * B)) key v :
  prop key (set_prop props key v) = Some v.
Proof.
  induction props as [| [k w] rest IH]; simpl.
  - now rewrite String.eqb_refl.
  - destruct (String.eqb k key) eqn:E; simpl; rewrite E; [reflexivity | exact IH].
Qed.

Lemma prop_set_prop_ne (props : list (string * B)) key key' v :
  key' <> key -> prop key' (set_prop props key v) = prop key' props.
Proof.
  intros Hne. induction props as [| [k w] rest IH]; simpl.
  - destruct (String.eqb key key') eqn:E; [| reflexivity].
    apply String.eqb_eq in E. congruence.
  - destruct (String.eqb k key) eqn:E; simpl.
    + apply String.eqb_eq in E. subst k.
      destruct (String.eqb key key') eqn:E'; [| reflexivity].
      apply String.eqb_eq in E'. congruence.
    + destruct (String.eqb k key'); [reflexivity | exact IH].
Qed.

Lemma set_prop_values (P : B -> Prop) (props : list (string * B)) key v :
  Forall (fun kv => P (snd kv)) props -> P v ->
  Forall (fun kv => P (snd kv)) (set_prop props key v).
Proof.
  intros Hall Hv. induction Hall as [| [k w] rest Hw Hrest IH]; simpl.
  - repeat constructor. exact Hv.
  - destruct (String.eqb k key); constructor; simpl; auto.
Qed.

Lemma set_prop_keys (props : list (string * B)) key v :
  map fst (set_prop props key v)
  = if bool_decide (key ∈ map fst props) then map fst props
    else map fst props ++ [key].
Proof.
  induction props as [| [k w] rest IH]; simpl; [reflexivity |].
  destruct (String.eqb k key) eqn:E.
  - apply String.eqb_eq in E. subst k. simpl.
    rewrite bool_decide_eq_true_2; [reflexivity | apply list_elem_of_here].
  - simpl. rewrite IH.
    assert (Hne : key <> k).
    { intros ->. rewrite String.eqb_refl in E. discriminate. }
    destruct (bool_decide (key ∈ map fst rest)) eqn:Ed.
    + apply bool_decide_eq_true_1 in Ed.
      rewrite bool_decide_eq_true_2; [reflexivity | now apply list_elem_of_further].
    + apply bool_decide_eq_false_1 in Ed.
      rewrite bool_decide_eq_false_2; [reflexivity |].
      intros Hin. apply elem_of_cons in Hin as [? | ?]; congruence.
Qed.

End Properties.

Section ConvertFacts.

Import ToJsonZod.

Context {Num : Type}.

#[local] Abbreviation Json := (Json Num).
#[local] Abbreviation convert := (convertSchema (Num:=Num)).

Lemma has_tag_set_prop_ne (props : list (string * Json)) key key' tag v :
  key' <> key -> has_tag key' tag (set_prop props key v) = has_tag key' tag props.
Proof. intros Hne. unfold has_tag. now rewrite prop_set_prop_ne. Qed.

Lemma shape_of_set_tail (props : list (string * Json)) v :
  shape_of (set_prop props "tail" v) = shape_of props.
Proof.
  unfold shape_of. now rewrite !has_tag_set_prop_ne by discriminate.
Qed.

Lemma has_tag_objects (props : list (string * Json)) key tag :
  Forall (fun kv => exists ps, snd kv = JObj ps) props ->
  has_tag key tag props = false.
Proof.
  intros Hall. unfold has_tag.
  destruct (prop key props) as [v |] eqn:E; [| reflexivity].
  apply prop_elem_of in E. rewrite Forall_forall in Hall.
  destruct (Hall _ E) as [ps Hps]. simpl in Hps. now subst.
Qed.

Lemma convert_unfold typeName type shape innerType :
  convert (ZodDef typeName type shape innerType)
  = convertSchema_body convert (ZodDef typeName type shape innerType).
Proof. reflexivity. Qed.

(** The loop over the entries of a shape. *)
Lemma convert_entries_ok (P : ZodSchema -> Prop) entries :
  Forall (fun kv => forall props, convert (snd kv) = inr props -> P (snd kv)) entries ->
  forall acc out,
    convert_entries convert entries acc = inr out ->
    Forall (fun kv => P (snd kv)) entries.
Proof.
  induction 1 as [| [k s] rest Hs _ IH]; intros acc out; simpl; [constructor |].
  destruct (convert s) as [e | node] eqn:Es; [discriminate |].
  intros Hrest. constructor; [now apply (Hs node) | eapply IH, Hrest].
Qed.

Lemma convert_entries_total entries :
  Forall (fun kv => exists props, convert (snd kv) = inr props) entries ->
  forall acc, exists out, convert_entries convert entries acc = inr out.
Proof.
  induction 1 as [| [k s] rest [node Hs] _ IH]; intros acc; simpl; [eauto |].
  simpl in Hs. rewrite Hs. apply IH.
Qed.

Lemma convert_entries_error (P : ConvertError -> Prop) entries :
  Forall (fun kv => forall e, convert (snd kv) = inl e -> P e) entries ->
  forall acc e, convert_entries convert entries acc = inl e -> P e.
Proof.
  induction 1 as [| [k s] rest Hs _ IH]; intros acc e; simpl; [discriminate |].
  destruct (convert s) as [e' | node] eqn:Es.
  - intros [= <-]. now apply Hs.
  - apply IH.
Qed.

Ltac by_type_name name :=
  destruct (String.eqb name "ZodString") eqn:?E1;
  [| destruct (String.eqb name "ZodNumber") eqn:?E2;
     [| destruct (String.eqb name "ZodBoolean") eqn:?E3;
        [| destruct (String.eqb name "ZodArray") eqn:?E4;
           [| destruct (String.eqb name "ZodObject") eqn:?E5;
              [| destruct (String.eqb name "ZodOptional") eqn:?E6]]]]].

Lemma convert_returns_convertible s :
  forall props, convert s = inr props -> convertible s.
Proof.
  induction s as [typeName type shape innerType IHt IHs IHi]
    using ZodSchema_nested_ind.
  intros props. rewrite convert_unfold. unfold convertSchema_body.
  destruct typeName as [name |]; [| discriminate].
  by_type_name name.
  - apply String.eqb_eq in E1. subst. intros _. constructor.
  - apply String.eqb_eq in E2. subst. intros _. constructor.
  - apply String.eqb_eq in E3. subst. intros _. constructor.
  - apply String.eqb_eq in E4. subst.
    destruct type as [element |]; [| discriminate]. simpl in IHt.
    destruct (convert element) as [e | el] eqn:Ee; [discriminate |].
    intros _. constructor. now apply (IHt el).
  - apply String.eqb_eq in E5. subst.
    destruct shape as [entries |]; [| discriminate]. simpl in IHs.
    destruct (convert_entries convert entries []) as [e | out] eqn:Ec; [discriminate |].
    intros _. constructor. eapply convert_entries_ok; [| exact Ec]. exact IHs.
  - apply String.eqb_eq in E6. subst.
    destruct innerType as [inner |]; [| discriminate]. simpl in IHi.
    destruct (convert inner) as [e | innerSchema] eqn:Ei; [discriminate |].
    intros _. constructor. now apply (IHi innerSchema).
  - discriminate.
Qed.

Lemma convertible_converts s :
  convertible s -> exists props, convert s = inr props.
Proof.
  induction s as [typeName type shape innerType IHt IHs IHi]
    using ZodSchema_nested_ind.
  intros Hc. rewrite convert_unfold.
  inversion Hc as [| | | element ? ? He | ? entries ? He | ? ? inner He]; subst; simpl.
  - eauto.
  - eauto.
  - eauto.
  - simpl in IHt. destruct (IHt He) as [el ->]. eauto.
  - simpl in IHs.
    destruct (convert_entries_total entries) with (acc := @nil (string * Json))
      as [out ->]; [| eauto].
    rewrite Forall_forall in *. intros kv Hkv. apply IHs; auto.
  - simpl in IHi. destruct (IHi He) as [innerSchema ->]. eauto.
Qed.

Lemma unsupported_is_outside s :
  forall name, convert s = inl (Unsupported name) -> name ∉ supported_names.
Proof.
  induction s as [typeName type shape innerType IHt IHs IHi]
    using ZodSchema_nested_ind.
  intros bad. rewrite convert_unfold. unfold convertSchema_body.
  destruct typeName as [name |].
  2: { intros [= <-]. apply (bool_decide_unpack _). vm_compute. exact I. }
  by_type_name name.
  - discriminate.
  - discriminate.
  - discriminate.
  - destruct type as [element |]; [| discriminate]. simpl in IHt.
    destruct (convert element) as [e | el] eqn:Ee; [| discriminate].
    intros [= ->]. now apply IHt.
  - destruct shape as [entries |]; [| discriminate]. simpl in IHs.
    destruct (convert_entries convert entries []) as [e | out] eqn:Ec; [| discriminate].
    intros [= ->].
    apply (convert_entries_error
             (fun e => forall n, e = Unsupported n -> n ∉ supported_names)
             entries) with (acc := @nil (string * Json)) (e := Unsupported bad);
      [| exact Ec | reflexivity].
    rewrite Forall_forall in *. intros kv Hkv e He n ->.
    now apply (IHs kv Hkv).
  - destruct innerType as [inner |]; [| discriminate]. simpl in IHi.
    destruct (convert inner) as [e | innerSchema] eqn:Ei; [| discriminate].
    intros [= ->]. now apply IHi.
  - intros [= <-]. unfold supported_names. intros Hin.
    repeat (apply elem_of_cons in Hin as [-> | Hin];
            [rewrite String.eqb_refl in *; discriminate |]).
    now apply elem_of_nil in Hin.
Qed.

(** X7.  [toZodJson] of [lib/to-json-zod.ts] returns a document exactly
    for the schemas every part of which is a string, a number, a boolean,
    an array, an object or an optional with its member in place; the
    document has no [definitions].  When it throws for an unsupported
    type, at whatever depth that type sits, the name in the error is none
    of the six names the [switch] knows. *)
Theorem toZodJson_converts_the_supported_schemas (s : ZodSchema) :
  ((exists root, ToJsonZod.toZodJson (Num:=Num) s = inr root) <-> convertible s)
  /\ (forall root,
        ToJsonZod.toZodJson (Num:=Num) s = inr root -> definitions root = None)
  /\ (forall name,
        ToJsonZod.toZodJson (Num:=Num) s = inl (Unsupported name) ->
        name ∉ supported_names).
Proof.
  unfold ToJsonZod.toZodJson. split; [| split].
  - split.
    + intros [root Hroot]. destruct (convert s) as [e | props] eqn:Ec; [discriminate |].
      eapply convert_returns_convertible, Ec.
    + intros Hc. destruct (convertible_converts s Hc) as [props ->]. eauto.
  - intros root. destruct (convert s); [discriminate |]. now intros [= <-].
  - intros name. destruct (convert s) as [e | props] eqn:Ec; [| discriminate].
    intros [= ->]. eapply unsupported_is_outside, Ec.
Qed.

End ConvertFacts.

Section ConvertedDocuments.

Import ToJsonZod.

Context {Num L : Type}.
Variable rt : Runtime Num L.

#[local] Abbreviation Json := (Json Num).
#[local] Abbreviation convert := (convertSchema (Num:=Num)).

Lemma converted_leaf method : converted_node (zod_json (Num:=Num) method []).
Proof.
  split; [reflexivity |].
  apply typed_node with (method := method); try reflexivity; now left.
Qed.

Lemma converted_with_params method (params : list Json) :
  Forall typed_document params ->
  converted_node (zod_json method [("params", JArr params)]).
Proof.
  intros Hp. split; [reflexivity |].
  apply typed_node with (method := method); try reflexivity; [| now left].
  right. exists params. split; [reflexivity | exact Hp].
Qed.

Lemma converted_with_optional (props : list (string * Json)) :
  converted_node props -> converted_node (with_optional props).
Proof.
  intros [Hshape Htyped]. unfold with_optional.
  split; [now rewrite shape_of_set_tail |].
  inversion Htyped as [| | | | | ? method _ Hm Hparams Htail | ? Hrecord _]; subst;
    [| congruence].
  apply typed_node with (method := method).
  - now rewrite shape_of_set_tail.
  - now rewrite prop_set_prop_ne by discriminate.
  - rewrite prop_set_prop_ne by discriminate. exact Hparams.
  - right. eexists. split; [apply prop_set_prop_eq |].
    unfold tail_or_empty.
    destruct Htail as [-> | (entries & -> & Hentries)]; simpl.
    + repeat constructor.
    + apply Forall_app. split; [exact Hentries | repeat constructor].
Qed.

Lemma convert_entries_converted entries :
  Forall (fun kv => forall props, convert (snd kv) = inr props -> converted_node props)
         entries ->
  forall acc out,
    Forall (fun kv => exists ps, snd kv = JObj ps /\ converted_node ps) acc ->
    convert_entries convert entries acc = inr out ->
    Forall (fun kv => exists ps, snd kv = JObj ps /\ converted_node ps) out.
Proof.
  induction 1 as [| [k s] rest Hs _ IH]; intros acc out Hacc; simpl.
  - now intros [= <-].
  - destruct (convert s) as [e | node] eqn:Es; [discriminate |].
    apply IH.
    apply (set_prop_values (fun v => exists ps, v = JObj ps /\ converted_node ps));
      [exact Hacc |].
    exists node. split; [reflexivity | now apply Hs].
Qed.

Lemma convert_returns_typed_node s :
  forall props, convert s = inr props -> converted_node props.
Proof.
  induction s as [typeName type shape innerType IHt IHs IHi]
    using ZodSchema_nested_ind.
  intros props. rewrite convert_unfold. unfold convertSchema_body.
  destruct typeName as [name |]; [| discriminate].
  destruct (String.eqb name "ZodString"); [intros [= <-]; apply converted_leaf |].
  destruct (String.eqb name "ZodNumber"); [intros [= <-]; apply converted_leaf |].
  destruct (String.eqb name "ZodBoolean"); [intros [= <-]; apply converted_leaf |].
  destruct (String.eqb name "ZodArray").
  { destruct type as [element |]; [| discriminate]. simpl in IHt.
    destruct (convert element) as [e | el] eqn:Ee; [discriminate |].
    intros [= <-]. apply converted_with_params.
    constructor; [| constructor]. now apply (IHt el). }
  destruct (String.eqb name "ZodObject").
  { destruct shape as [entries |]; [| discriminate]. simpl in IHs.
    destruct (convert_entries convert entries []) as [e | out] eqn:Ec; [discriminate |].
    intros [= <-]. apply converted_with_params.
    pose proof (convert_entries_converted entries IHs [] out (Forall_nil_2 _) Ec) as Hout.
    constructor; [| constructor]. apply typed_record.
    - unfold shape_of.
      rewrite !has_tag_objects; [reflexivity | | |];
        (eapply Forall_impl; [exact Hout |]; intros kv (ps & Hps & _); eauto).
    - eapply Forall_impl; [exact Hout |].
      intros kv (ps & -> & _ & Hty). exact Hty. }
  destruct (String.eqb name "ZodOptional"); [| discriminate].
  destruct innerType as [inner |]; [| discriminate]. simpl in IHi.
  destruct (convert inner) as [e | innerSchema] eqn:Ei; [discriminate |].
  intros [= <-]. apply converted_with_optional. now apply IHi.
Qed.

(** X8.  The document [toZodJson] of [lib/to-json-zod.ts] returns is a
    typed document without references and function specs.  So
    [fromZodJson] on it registers no lazy schema and leaves the cache
    empty, and can only fail in the library: with [UnknownMethod],
    [UnknownTailMethod], an exception of a library call, or a chained call
    on a schema that is [null].  The keys of the shapes are taken to be
    ordinary property names, which is where the association lists are the
    objects the code builds. *)
Theorem converted_documents_resolve_in_the_library (s : ZodSchema) root :
  ordinary_keys s = true ->
  ToJsonZod.toZodJson s = inr root ->
  typed_document (schema root)
  /\ snd (resolve_pass rt root) = initial_state
  /\ match fromZodJson rt root with
     | Returns _ => True
     | Throws e => from_library e
     end.
Proof.
  intros _. unfold ToJsonZod.toZodJson.
  destruct (convert s) as [e | props] eqn:Ec; [discriminate |].
  intros [= <-].
  set (converted := {| definitions := None; schema := JObj props |}).
  destruct (convert_returns_typed_node s props Ec) as [_ Htyped].
  split; [exact Htyped |].
  unfold fromZodJson, resolve_pass.
  change (schema converted) with (JObj props).
  destruct (parseNode rt converted (JObj props) initial_state) as [r st'] eqn:Erun.
  destruct (typed_document_confined rt converted _ Htyped _ _ _ Erun)
    as [-> Hr].
  split; [reflexivity | exact Hr].
Qed.

(** Chaining [optional] after a node. *)
Lemma with_optional_appends (root : ZodJsonRoot Num) props method :
  shape_of props = IsZodJson ->
  prop "method" props = Some (JStr method) ->
  (prop "tail" props = None
   \/ exists entries, prop "tail" props = Some (JArr entries)) ->
  forall st,
    parseNode rt root (JObj (with_optional props)) st
    = (schema <- parseNode rt root (JObj props) ;;
       call_tail rt method "optional" (ret (VArr [])) schema) st.
Proof.
  intros Hshape Hm Htail st. unfold with_optional.
  rewrite !parse_object, shape_of_set_tail, Hshape. unfold parse_zod_json.
  rewrite prop_set_prop_ne by discriminate. rewrite Hm.
  destruct (get rt (z rt) method ≫= callable rt) as [methodFn |]; [| reflexivity].
  rewrite !prop_with_prop. rewrite prop_set_prop_ne by discriminate.
  assert (Hloop : forall schema st1,
             run_tail rt (parseNode rt root) method
               (set_prop props "tail"
                  (JArr (tail_or_empty props ++ [JArr [JStr "optional"]])))
               schema st1
             = (current <- run_tail rt (parseNode rt root) method props schema ;;
                call_tail rt method "optional" (ret (VArr [])) current) st1).
  { intros schema st1.
    rewrite (run_tail_array rt _ _ _ _ _ (prop_set_prop_eq _ _ _)).
    rewrite foldM_app. unfold tail_or_empty.
    destruct Htail as [Ht | (entries & Ht)]; rewrite Ht.
    - rewrite (run_tail_absent rt) by (intros items; congruence).
      simpl. unfold bind. simpl.
      destruct (call_tail rt method "optional" (ret (VArr [])) schema st1)
        as [[v | e] st2]; reflexivity.
    - rewrite (run_tail_array rt _ _ _ _ _ Ht). unfold bind.
      destruct (foldM _ entries schema st1) as [[current | e] st2]; [| reflexivity].
      rewrite foldM_single. reflexivity. }
  match goal with |- bind ?m _ st = _ => set (resolveParams := m) end.
  unfold bind.
  destruct (resolveParams st) as [[params | e] st1]; [| reflexivity].
  destruct (spread rt params st1) as [[args | e] st2]; [| reflexivity].
  destruct (lib_call methodFn None args st2) as [[schema | e] st3]; [| reflexivity].
  rewrite Hloop. unfold bind. reflexivity.
Qed.

(** X9.  Converting an optional schema and resolving the result is
    resolving the converted inner schema and then chaining [optional] on
    what that returned: [toZodJson] puts [optional] at the end of the tail
    it found, after every chained call of the inner schema, and the
    lookup and the parameters of the inner node are the same. *)
Theorem optional_is_chained_last
  (root : ZodJsonRoot Num) typeName type shape inner innerSchema :
  typeName = Some "ZodOptional" ->
  ordinary_keys inner = true ->
  convert inner = inr innerSchema ->
  exists method,
    prop "method" innerSchema = Some (JStr method)
    /\ convert (ZodDef typeName type shape (Some inner)) = inr (with_optional innerSchema)
    /\ tail_or_empty (with_optional innerSchema)
       = tail_or_empty innerSchema ++ [JArr [JStr "optional"]]
    /\ forall st,
        parseNode rt root (JObj (with_optional innerSchema)) st
        = (schema <- parseNode rt root (JObj innerSchema) ;;
           call_tail rt method "optional" (ret (VArr [])) schema) st.
Proof.
  intros -> _ Hinner.
  destruct (convert_returns_typed_node inner innerSchema Hinner) as [Hshape Htyped].
  inversion Htyped as [| | | | | ? method _ Hm _ Htail | ? Hrecord _]; subst;
    [| congruence].
  exists method. split; [exact Hm |]. split; [| split].
  - rewrite convert_unfold. simpl. now rewrite Hinner.
  - unfold tail_or_empty at 1, with_optional. now rewrite prop_set_prop_eq.
  - apply with_optional_appends; [exact Hshape | exact Hm |].
    destruct Htail as [Ht | (entries & Ht & _)]; eauto.
Qed.

End ConvertedDocuments.

(* ================================================================= *)
(** ** Filling a shape property by property *)

Section Assignments.

Context {A B : Type}.
Variable key : A -> string.
Variable val : A -> B.

#[local] Abbreviation assign_all :=
  (fold_left (fun (shape : list (string * B)) x => set_prop shape (key x) (val x))).

Lemma assign_all_other l : forall acc k,
  k ∉ map key l -> prop k (assign_all l acc) = prop k acc.
Proof.
  induction l as [| x l IH]; intros acc k Hk; simpl; [reflexivity |].
  simpl in Hk. apply not_elem_of_cons in Hk as [Hne Hk].
  rewrite (IH _ _ Hk). now apply prop_set_prop_ne.
Qed.

Lemma assign_all_last pre x post acc :
  key x ∉ map key post ->
  prop (key x) (assign_all (pre ++ x :: post) acc) = Some (val x).
Proof.
  intros Hk. rewrite fold_left_app. simpl.
  rewrite (assign_all_other _ _ _ Hk). apply prop_set_prop_eq.
Qed.

Lemma assign_all_NoDup l : forall acc,
  NoDup (map fst acc) -> NoDup (map fst (assign_all l acc)).
Proof.
  induction l as [| x l IH]; intros acc Hnd; simpl; [exact Hnd |].
  apply IH. rewrite set_prop_keys.
  destruct (bool_decide (key x ∈ map fst acc)) eqn:E; [exact Hnd |].
  apply bool_decide_eq_false_1 in E.
  apply NoDup_app. split; [exact Hnd |]. split.
  - intros k Hin Hk. apply list_elem_of_singleton in Hk. now subst.
  - apply NoDup_singleton.
Qed.

Lemma assign_all_keys l : forall acc k,
  k ∈ map fst (assign_all l acc) <-> k ∈ map fst acc ++ map key l.
Proof.
  induction l as [| x l IH]; intros acc k; simpl; [now rewrite app_nil_r |].
  rewrite IH, set_prop_keys.
  destruct (bool_decide (key x ∈ map fst acc)) eqn:E;
    rewrite ?elem_of_app, ?elem_of_cons, ?elem_of_nil.
  - apply bool_decide_eq_true_1 in E. split; [tauto |].
    intros [H | [-> | H]]; auto.
  - tauto.
Qed.

Lemma assign_all_distinct l : forall acc,
  NoDup (map fst acc ++ map key l) ->
  assign_all l acc = acc ++ map (fun x => (key x, val x)) l.
Proof.
  induction l as [| x l IH]; intros acc Hnd; simpl; [now rewrite app_nil_r |].
  assert (Hfresh : key x ∉ map fst acc).
  { apply NoDup_app in Hnd as (_ & Hdis & _). intros Hin.
    apply (Hdis _ Hin). simpl. apply list_elem_of_here. }
  rewrite (set_prop_fresh _ _ _ Hfresh).
  rewrite IH.
  - now rewrite <- app_assoc.
  - rewrite map_app. simpl. now rewrite <- app_assoc.
Qed.

Lemma assign_all_values (P : B -> Prop) l : forall acc,
  Forall (fun kv => P (snd kv)) acc ->
  (forall x, x ∈ l -> P (val x)) ->
  Forall (fun kv => P (snd kv)) (assign_all l acc).
Proof.
  induction l as [| x l IH]; intros acc Hacc Hl; simpl; [exact Hacc |].
  apply IH.
  - apply (set_prop_values P); [exact Hacc |]. apply Hl, list_elem_of_here.
  - intros y Hy. apply Hl. now apply list_elem_of_further.
Qed.

End Assignments.

Section FormFacts.

Context {Num L : Type}.
Variable rt : Runtime Num L.

#[local] Abbreviation Json := (Json Num).
#[local] Abbreviation Field := (FormSchemas.Field Num).

Lemma method_of_is_the_type t : FormSchemas.method_of t = FormSchemas.type_name t.
Proof. destruct t; reflexivity. Qed.

(** X10.  [createDynamicFormSchema] builds the shape by assignment, field
    after field, and the document has no [definitions].  For field names
    that are ordinary property names, the shape never has a key twice, its
    keys are the names of the fields, and a name listed more than once
    keeps the schema of its last field.  When moreover the names are
    pairwise distinct and none is an array index, the shape has one
    property per field, in the order of the fields, each holding the
    schema built for that field. *)
Theorem dynamic_form_shape (fields : list Field) :
  exists shape,
    FormSchemas.createDynamicFormSchema fields = FormSchemas.form_root shape
    /\ definitions (FormSchemas.createDynamicFormSchema fields) = None
    /\ (Forall (fun field => ordinary_key (FormSchemas.name field) = true) fields ->
        NoDup (map fst shape)
        /\ (forall k, k ∈ map fst shape <-> k ∈ map FormSchemas.name fields)
        /\ (forall before field after,
              fields = before ++ field :: after ->
              FormSchemas.name field ∉ map FormSchemas.name after ->
              prop (FormSchemas.name field) shape
              = Some (FormSchemas.field_schema field))
        /\ (NoDup (map FormSchemas.name fields) ->
            Forall (fun field => index_like (FormSchemas.name field) = false) fields ->
            shape
            = map (fun field =>
                     (FormSchemas.name field, FormSchemas.field_schema field))
                  fields)).
Proof.
  eexists. split; [reflexivity |]. split; [reflexivity |].
  intros _. split; [| split; [| split]].
  - apply assign_all_NoDup. constructor.
  - intros k. rewrite (assign_all_keys FormSchemas.name FormSchemas.field_schema).
    reflexivity.
  - intros before field after -> Hlast.
    apply (assign_all_last FormSchemas.name FormSchemas.field_schema). exact Hlast.
  - intros Hnd _.
    apply (assign_all_distinct FormSchemas.name FormSchemas.field_schema fields []).
    exact Hnd.
Qed.

(** X11.  [createSimpleFormSchema], given the entries of an object in the
    order [Object.entries] lists them, with ordinary property names as
    keys, returns the [object] node over a shape with one property per
    entry, in the order of the entries; the node of a field has the name
    of its type as [method], for [email] as for the other three types, and
    neither [params] nor [tail]. *)
Theorem simple_form_shape (fields : list (string * FormSchemas.FieldType)) :
  NoDup (map fst fields) ->
  Forall (fun entry => ordinary_key (fst entry) = true) fields ->
  FormSchemas.createSimpleFormSchema (Num:=Num) fields
  = FormSchemas.form_root
      (map (fun entry =>
              (fst entry,
               JObj [("_schema", JStr "json-zod");
                     ("method", JStr (FormSchemas.type_name (snd entry)))]))
           fields).
Proof.
  intros Hnd _. unfold FormSchemas.createSimpleFormSchema. f_equal.
  rewrite (assign_all_distinct fst
             (fun entry =>
                JObj [("_schema", JStr "json-zod");
                      ("method", JStr (FormSchemas.method_of (snd entry)))])
             fields [] Hnd).
  simpl. apply map_ext. intros [k t]. simpl. now rewrite method_of_is_the_type.
Qed.

(** *** The tail of a field *)

Lemma validation_rules_names (v : FormSchemas.Validation Num) :
  sublist (map FormSchemas.entry_name (FormSchemas.validation_rules v))
          [Some "min"; Some "max"; Some "regex"].
Proof.
  unfold FormSchemas.validation_rules.
  destruct (FormSchemas.min v), (FormSchemas.max v), (FormSchemas.pattern v) as [p |];
    try destruct (String.eqb p ""); simpl;
    repeat first [apply sublist_nil | apply sublist_skip | apply sublist_cons].
Qed.

Set Warnings "-clear-no-such-hyp".

Ltac tail_cases field :=
  unfold FormSchemas.field_tail, FormSchemas.validation_rules;
  destruct (FormSchemas.validation field) as [[lower upper text] |];
  cbn [FormSchemas.min FormSchemas.max FormSchemas.pattern];
  [destruct lower, upper, text as [text |];
   try (destruct (String.eqb text "") eqn:Etext;
        [apply String.eqb_eq in Etext | apply String.eqb_neq in Etext]) |];
  destruct (FormSchemas.required field) as [[] |];
  cbn [app];
  rewrite ?elem_of_cons, ?elem_of_nil.

Lemma field_tail_entries (field : Field) :
  (forall entry,
      entry ∈ FormSchemas.field_tail field ->
      (exists n, entry = JArr [JStr "min"; JArr [JNum n]])
      \/ (exists n, entry = JArr [JStr "max"; JArr [JNum n]])
      \/ (exists p, entry = JArr [JStr "regex"; JArr [JStr p]] /\ p <> "")
      \/ entry = JArr [JStr "optional"])
  /\ (forall n,
        JArr [JStr "min"; JArr [JNum n]] ∈ FormSchemas.field_tail field
        <-> exists v, FormSchemas.validation field = Some v
                      /\ FormSchemas.min v = Some n)
  /\ (forall n,
        JArr [JStr "max"; JArr [JNum n]] ∈ FormSchemas.field_tail field
        <-> exists v, FormSchemas.validation field = Some v
                      /\ FormSchemas.max v = Some n)
  /\ (forall p,
        JArr [JStr "regex"; JArr [JStr p]] ∈ FormSchemas.field_tail field
        <-> exists v, FormSchemas.validation field = Some v
                      /\ FormSchemas.pattern v = Some p /\ p <> "").
Proof.
  split; [| split; [| split]].
  - intros entry. tail_cases field; naive_solver.
  - intros n. tail_cases field; naive_solver.
  - intros n. tail_cases field; naive_solver.
  - intros p. tail_cases field; naive_solver.
Qed.

(** X12.  The tail of a generated field is fixed by the field.  The names
    of its entries are a sublist of [min], [max], [regex], [optional], so
    each comes at most once and in that order, and every entry is one of
    these four with the parameter the source gives it.  [min] is chained
    with a value exactly when the field has a [validation] whose [min] is
    that value, whatever the value is, and likewise [max]; [regex] is
    chained with a pattern exactly when the field has a [validation] whose
    [pattern] is that text and the text is not empty.  [optional] is
    chained exactly when the field is not marked required, and then it is
    the last entry.  A field has no [tail] property at all exactly when its
    tail would be empty. *)
Theorem field_tail_is_ordered (field : Field) :
  sublist (map FormSchemas.entry_name (FormSchemas.field_tail field))
          [Some "min"; Some "max"; Some "regex"; Some "optional"]
  /\ (forall entry,
        entry ∈ FormSchemas.field_tail field ->
        (exists n, entry = JArr [JStr "min"; JArr [JNum n]])
        \/ (exists n, entry = JArr [JStr "max"; JArr [JNum n]])
        \/ (exists p, entry = JArr [JStr "regex"; JArr [JStr p]] /\ p <> "")
        \/ entry = JArr [JStr "optional"])
  /\ (forall n,
        JArr [JStr "min"; JArr [JNum n]] ∈ FormSchemas.field_tail field
        <-> exists v, FormSchemas.validation field = Some v
                      /\ FormSchemas.min v = Some n)
  /\ (forall n,
        JArr [JStr "max"; JArr [JNum n]] ∈ FormSchemas.field_tail field
        <-> exists v, FormSchemas.validation field = Some v
                      /\ FormSchemas.max v = Some n)
  /\ (forall p,
        JArr [JStr "regex"; JArr [JStr p]] ∈ FormSchemas.field_tail field
        <-> exists v, FormSchemas.validation field = Some v
                      /\ FormSchemas.pattern v = Some p /\ p <> "")
  /\ (JArr [JStr "optional"] ∈ FormSchemas.field_tail field
      <-> FormSchemas.required field <> Some true)
  /\ (FormSchemas.required field <> Some true ->
      last (FormSchemas.field_tail field) = Some (JArr [JStr "optional"]))
  /\ (FormSchemas.field_tail field = []
      <-> FormSchemas.field_schema field
          = JObj [("_schema", JStr "json-zod");
                  ("method", JStr (FormSchemas.type_name (FormSchemas.type field)))]).
Proof.
  destruct (field_tail_entries field) as (Hforms & Hmin & Hmax & Hregex).
  split; [| split; [exact Hforms |]; split; [exact Hmin |]; split; [exact Hmax |];
            split; [exact Hregex |]; split; [| split]].
  - unfold FormSchemas.field_tail. rewrite map_app.
    change [Some "min"; Some "max"; Some "regex"; Some "optional"]
      with ([Some "min"; Some "max"; Some "regex"] ++ [Some "optional"]).
    apply sublist_app.
    + destruct (FormSchemas.validation field) as [v |];
        [apply validation_rules_names | apply sublist_nil_l].
    + destruct (FormSchemas.required field) as [[] |]; simpl;
        repeat first [apply sublist_nil | apply sublist_skip | apply sublist_cons].
  - unfold FormSchemas.field_tail. rewrite elem_of_app. split.
    + intros [Hin | Hin].
      * exfalso. destruct (FormSchemas.validation field) as [v |];
          [| now apply elem_of_nil in Hin].
        unfold FormSchemas.validation_rules in Hin.
        repeat (apply elem_of_app in Hin as [Hin | Hin]);
          [destruct (FormSchemas.min v) | destruct (FormSchemas.max v)
          | destruct (FormSchemas.pattern v) as [p |];
            [destruct (String.eqb p "") |]];
          repeat (apply elem_of_cons in Hin as [Hin | Hin]; [discriminate |]);
          now apply elem_of_nil in Hin.
      * destruct (FormSchemas.required field) as [[] |]; try discriminate.
        now apply elem_of_nil in Hin.
    + intros Hreq. right.
      destruct (FormSchemas.required field) as [[] |]; try congruence;
        apply list_elem_of_here.
  - intros Hreq. unfold FormSchemas.field_tail.
    destruct (FormSchemas.required field) as [[] |]; try congruence;
      apply last_snoc.
  - unfold FormSchemas.field_schema. rewrite method_of_is_the_type.
    destruct (FormSchemas.field_tail field) as [| entry rest]; split;
      try reflexivity; try discriminate.
Qed.

(** *** Resolving a generated form *)

Lemma typed_root_resolves (root : ZodJsonRoot Num) :
  typed_document (schema root) ->
  snd (resolve_pass rt root) = initial_state
  /\ match fromZodJson rt root with
     | Returns _ => True
     | Throws e => from_library e
     end.
Proof.
  intros Htyped. unfold fromZodJson, resolve_pass.
  destruct (parseNode rt root (schema root) initial_state) as [r st'] eqn:Erun.
  destruct (typed_document_confined rt root _ Htyped _ _ _ Erun)
    as [-> Hr].
  split; [reflexivity | exact Hr].
Qed.

Lemma form_root_typed (shape : list (string * Json)) :
  Forall (fun kv => exists ps, snd kv = JObj ps /\ ToJsonZod.converted_node ps) shape ->
  typed_document (schema (FormSchemas.form_root shape)).
Proof.
  intros Hshape.
  apply (converted_with_params "object" [JObj shape]).
  constructor; [| constructor]. apply typed_record.
  - unfold shape_of.
    rewrite !has_tag_objects; [reflexivity | | |];
      (eapply Forall_impl; [exact Hshape |]; intros kv (ps & Hps & _); eauto).
  - eapply Forall_impl; [exact Hshape |].
    intros kv (ps & -> & _ & Hty). exact Hty.
Qed.

Lemma field_tail_typed (field : Field) :
  Forall (typed_entry typed_document) (FormSchemas.field_tail field).
Proof.
  unfold FormSchemas.field_tail. apply Forall_app. split.
  - destruct (FormSchemas.validation field) as [v |]; [| constructor].
    unfold FormSchemas.validation_rules.
    repeat (apply Forall_app; split).
    + destruct (FormSchemas.min v); repeat constructor.
    + destruct (FormSchemas.max v); repeat constructor.
    + destruct (FormSchemas.pattern v) as [p |]; [| constructor].
      destruct (String.eqb p ""); repeat constructor.
  - destruct (FormSchemas.required field) as [[] |]; repeat constructor.
Qed.

Lemma field_schema_typed (field : Field) :
  exists ps, FormSchemas.field_schema field = JObj ps /\ ToJsonZod.converted_node ps.
Proof.
  unfold FormSchemas.field_schema. eexists. split; [reflexivity |].
  pose proof (field_tail_typed field) as Htail.
  destruct (FormSchemas.field_tail field) as [| entry rest].
  - apply (converted_leaf (Num:=Num)).
  - split; [reflexivity |].
    apply typed_node with (method := FormSchemas.method_of (FormSchemas.type field));
      try reflexivity; [now left |].
    right. eexists. split; [reflexivity | exact Htail].
Qed.

(** X13.  What the two form generators return, for fields whose names
    are ordinary property names, is a typed document without references
    and function specs, whatever the fields are.  So [fromZodJson] on a
    generated form leaves the cache empty and can only fail in the
    library: when zod lacks a constructor or a chained method the form
    names, or when a call into zod throws. *)
Theorem generated_forms_resolve_in_the_library :
  (forall fields : list Field,
      Forall (fun field => ordinary_key (FormSchemas.name field) = true) fields ->
      typed_document (schema (FormSchemas.createDynamicFormSchema fields))
      /\ snd (resolve_pass rt (FormSchemas.createDynamicFormSchema fields))
         = initial_state
      /\ match fromZodJson rt (FormSchemas.createDynamicFormSchema fields) with
         | Returns _ => True
         | Throws e => from_library e
         end)
  /\ (forall fields : list (string * FormSchemas.FieldType),
        Forall (fun entry => ordinary_key (fst entry) = true) fields ->
        typed_document (schema (FormSchemas.createSimpleFormSchema (Num:=Num) fields))
        /\ snd (resolve_pass rt (FormSchemas.createSimpleFormSchema fields))
           = initial_state
        /\ match fromZodJson rt (FormSchemas.createSimpleFormSchema fields) with
           | Returns _ => True
           | Throws e => from_library e
           end).
Proof.
  split; intros fields _.
  - assert (Htyped : typed_document
                       (schema (FormSchemas.createDynamicFormSchema fields))).
    { apply form_root_typed.
      apply (assign_all_values FormSchemas.name FormSchemas.field_schema
               (fun v => exists ps, v = JObj ps /\ ToJsonZod.converted_node ps));
        [constructor |].
      intros field _. apply field_schema_typed. }
    split; [exact Htyped | now apply typed_root_resolves].
  - assert (Htyped : typed_document
                       (schema (FormSchemas.createSimpleFormSchema (Num:=Num) fields))).
    { apply form_root_typed.
      apply (assign_all_values fst
               (fun entry =>
                  JObj [("_schema", JStr "json-zod");
                        ("method", JStr (FormSchemas.method_of (snd entry)))])
               (fun v => exists ps, v = JObj ps /\ ToJsonZod.converted_node ps));
        [constructor |].
      intros entry _. eexists. split; [reflexivity |].
      apply (converted_leaf (Num:=Num)). }
    split; [exact Htyped | now apply typed_root_resolves].
Qed.

End FormFacts.

Section ReferenceTest.

Context {Num : Type}.

Lemma mentions_reference_child (c node : Json Num) :
  child c node -> mentions_reference node = false -> mentions_reference c = false.
Proof.
  intros Hch Hnode. destruct Hch as [x items Hin | k v props Hin]; simpl in Hnode.
  - destruct (mentions_reference x) eqn:E; [| reflexivity].
    assert (existsb mentions_reference items = true); [| congruence].
    apply existsb_exists. exists x. split; [now apply list_elem_of_In | exact E].
  - apply orb_false_iff in Hnode as [_ Hnode].
    destruct (mentions_reference v) eqn:E; [| reflexivity].
    assert (existsb (fun kv => mentions_reference (snd kv)) props = true);
      [| congruence].
    apply existsb_exists. exists (k, v). split; [now apply list_elem_of_In | exact E].
Qed.

Lemma mentions_reference_sound (node : Json Num) :
  mentions_reference node = false -> reference_free node.
Proof.
  intros Hnode c props Hc ->.
  assert (Hfalse : mentions_reference (JObj props) = false).
  { destruct Hc as [-> | Hin]; [exact Hnode |].
    induction Hin as [c j Hch | c j' j Hin IH Hch].
    - eapply mentions_reference_child; eauto.
    - apply IH. eapply mentions_reference_child; eauto. }
  simpl in Hfalse. now apply orb_false_iff in Hfalse as [Hf _].
Qed.

End ReferenceTest.

(* ================================================================= *)
(** ** The further properties on the documents of the examples *)

Section MoreExamples.

Import Toy.
Import Samples.

Lemma thunk_checks_never_fire_witness :
  force_all rt cycle 3 (session_of (snd (resolve_pass rt cycle)))
  = Some (Returns tt, snd (default (Returns tt, session_of cycle_state)
                             (force_all rt cycle 3 (session_of cycle_state))))
  /\ exists defs,
      definitions cycle = Some defs
      /\ match prop "C" defs with
         | Some definition =>
             js_truthy rt definition = true
             /\ forall st',
                 lazy_thunk rt cycle "C" st' = parseNode rt cycle definition st'
         | None =>
             inherited_name "C" = true
             /\ forall st',
                 lazy_thunk rt cycle "C" st'
                 = (Returns
                      (if String.eqb "C" "__proto__" then VObj []
                       else VLib (inherited rt "C")),
                    st')
         end.
Proof.
  assert (Hrun : force_all rt cycle 3 (session_of (snd (resolve_pass rt cycle)))
                 = Some (Returns tt,
                         snd (default (Returns tt, session_of cycle_state)
                                (force_all rt cycle 3 (session_of cycle_state))))).
  { vm_compute. reflexivity. }
  split; [exact Hrun |].
  apply (thunk_checks_never_fire rt cycle _ 2 (OfString, "C") eq_refl
           (or_intror (ex_intro _ 3 (ex_intro _ (Returns tt) Hrun)))).
  vm_compute. reflexivity.
Defined.

Lemma unknown_tail_method_stops_the_chain_witness :
  foldM (tail_step rt (parseNode rt no_definitions) "string")
        [min_entry] (VLib (Built "string" [])) initial_state
  = (Returns (VLib (Chained (VLib (Built "string" [])) "min" [VNum 3%Z])),
     initial_state)
  /\ foldM (tail_step rt (parseNode rt no_definitions) "string")
           [min_entry; unknown_entry; max_entry]
           (VLib (Built "string" [])) initial_state
     = (Throws (UnknownTailMethod "nope" "string"), initial_state).
Proof.
  assert (Hbefore :
            foldM (tail_step rt (parseNode rt no_definitions) "string")
                  [min_entry] (VLib (Built "string" [])) initial_state
            = (Returns (VLib (Chained (VLib (Built "string" [])) "min" [VNum 3%Z])),
               initial_state)).
  { vm_compute. reflexivity. }
  split; [exact Hbefore |].
  refine (proj1 (unknown_tail_method_stops_the_chain rt no_definitions
                   "string" [min_entry] "nope" [] [max_entry]
                   (VLib (Built "string" [])) initial_state _ initial_state
                   Hbefore _ _)).
  - discriminate.
  - reflexivity.
Defined.

Lemma no_reference_no_cache_change_witness :
  reference_free (schema trimmed)
  /\ snd (parseNode rt cycle (schema trimmed) cycle_state) = cycle_state.
Proof.
  assert (Hfree : reference_free (schema trimmed)).
  { apply mentions_reference_sound. reflexivity. }
  split; [exact Hfree |].
  exact (no_reference_no_cache_change rt cycle (schema trimmed) Hfree
           cycle_state _ _ (surjective_pairing _)).
Defined.


Lemma converted_documents_resolve_in_the_library_witness :
  exists root,
    ToJsonZod.toZodJson (Num:=Z) ToJsonZod.person = inr root
    /\ typed_document (schema root)
    /\ snd (resolve_pass rt root) = initial_state
    /\ match fromZodJson rt root with
       | Returns _ => True
       | Throws e => from_library e
       end.
Proof.
  destruct (ToJsonZod.toZodJson (Num:=Z) ToJsonZod.person) as [e | root] eqn:Eroot.
  - vm_compute in Eroot. discriminate Eroot.
  - exists root. split; [reflexivity |].
    exact (converted_documents_resolve_in_the_library rt ToJsonZod.person root
             eq_refl Eroot).
Defined.

Lemma optional_is_chained_last_witness :
  ToJsonZod.convertSchema (ToJsonZod.array_of (ToJsonZod.leaf "ZodString"))
  = inr tags_node
  /\ ToJsonZod.convertSchema
       (ToJsonZod.optional_of (ToJsonZod.array_of (ToJsonZod.leaf "ZodString")))
     = inr (ToJsonZod.with_optional tags_node)
  /\ ToJsonZod.tail_or_empty (ToJsonZod.with_optional tags_node)
     = [JArr [JStr "optional"]]
  /\ forall st,
      parseNode rt no_definitions (JObj (ToJsonZod.with_optional tags_node)) st
      = (schema <- parseNode rt no_definitions (JObj tags_node) ;;
         call_tail rt "array" "optional" (ret (VArr [])) schema) st.
Proof.
  destruct (optional_is_chained_last rt no_definitions
              (Some "ZodOptional") None None
              (ToJsonZod.array_of (ToJsonZod.leaf "ZodString")) tags_node
              eq_refl eq_refl eq_refl)
    as (method & Hmethod & Hconvert & Htail & Hparse).
  injection Hmethod as <-.
  split; [reflexivity |]. split; [exact Hconvert |]. split; [exact Htail |].
  exact Hparse.
Defined.

Lemma simple_form_shape_witness :
  NoDup (map fst signup)
  /\ FormSchemas.createSimpleFormSchema (Num:=Z) signup
     = FormSchemas.form_root
         [("firstName", node "string" []);
          ("email", node "email" []);
          ("age", node "number" [])].
Proof.
  assert (Hnd : NoDup (map fst signup)).
  { apply (bool_decide_unpack _). vm_compute. exact I. }
  split; [exact Hnd |].
  refine (simple_form_shape signup Hnd _).
  repeat constructor.
Defined.

End MoreExamples.
